(** * Family-Tree-Builder: layout, cycle guard and relationship resolver

    A shallow embedding of [frontend/lib/types.ts], [frontend/lib/cycles.ts],
    [frontend/lib/relationships.ts] and [frontend/lib/tree-layout.ts], and of
    the updates of the list of persons in [frontend/app/editor/page.tsx], and
    the properties of these functions.

    Conventions of the embedding.
    - A JavaScript string is a [string] (a sequence of bytes, so a Tamil label
      is its UTF-8 encoding); [===] on strings is [String.eqb].
    - A JavaScript number is an exact rational [Q]: the layout only adds,
      subtracts and halves small integers, which IEEE doubles do exactly. A
      quotient is kept in lowest terms ([Qred]).
    - [Map<string, V>] is a [gmap string V] where only [get]/[set]/[has] and
      order-insensitive reads of the values are used, and an association list
      where the insertion order is read back.
    - [Set<string>] is a [gset string].
    - A [Position] object lives in a store (a list of cells, a reference is an
      index); a [Person] holds a reference into it, so that two holders of one
      object see each other's writes.
    - A loop or a recursion whose termination is not structural takes a fuel
      argument and answers [NoFuel] when it runs out. *)

From stdpp Require Import gmap strings list fin_maps pretty relations.
From Stdlib Require Import QArith Qminmax Lqa.
Close Scope Q_scope.
#[local] Set Warnings "-clear-no-such-hyp".

(** ** types.ts *)

Record Position := mkPosition { x : Q; y : Q }.

Record EventDetails := mkEvent { date : string; place : string }.

Inductive Gender := Male | Female | Other | NoGender.

Record Marriage := mkMarriage {
  spouseId : string;
  marriageDate : string;
  marriagePlace : string;
  divorced : bool;
  divorceDate : string;
  divorcePlace : string }.

(** A reference to a [Position] object of the store. *)
Abbreviation ref := nat.

Record Person := mkPerson {
  id : string;
  name : string;
  givenName : string;
  surname : string;
  gender : Gender;
  occupation : string;
  notes : string;
  birth : EventDetails;
  death : option EventDetails;
  parentIds : list string;
  spouseIds : list string;
  childIds : list string;
  marriages : list Marriage;
  avatarUrl : option string;
  position : option ref }.

Definition createEmptyPerson (i : string) : Person :=
  {| id := i; name := ""; givenName := ""; surname := ""; gender := NoGender;
     occupation := ""; notes := ""; birth := mkEvent "" ""; death := None;
     parentIds := []; spouseIds := []; childIds := []; marriages := [];
     avatarUrl := None; position := None |}.

#[global] Instance Gender_eq_dec : EqDecision Gender.
Proof. solve_decision. Defined.

(** Functional record updates (the object spreads of the editor). *)
Definition withParents (ps : list string) (p : Person) : Person :=
  mkPerson (id p) (name p) (givenName p) (surname p) (gender p) (occupation p)
    (notes p) (birth p) (death p) ps (spouseIds p) (childIds p) (marriages p)
    (avatarUrl p) (position p).
Definition withSpouses (ss : list string) (p : Person) : Person :=
  mkPerson (id p) (name p) (givenName p) (surname p) (gender p) (occupation p)
    (notes p) (birth p) (death p) (parentIds p) ss (childIds p) (marriages p)
    (avatarUrl p) (position p).
Definition withChildren (cs : list string) (p : Person) : Person :=
  mkPerson (id p) (name p) (givenName p) (surname p) (gender p) (occupation p)
    (notes p) (birth p) (death p) (parentIds p) (spouseIds p) cs (marriages p)
    (avatarUrl p) (position p).
Definition withGender (g : Gender) (p : Person) : Person :=
  mkPerson (id p) (name p) (givenName p) (surname p) g (occupation p)
    (notes p) (birth p) (death p) (parentIds p) (spouseIds p) (childIds p)
    (marriages p) (avatarUrl p) (position p).
Definition withPosition (r : option ref) (p : Person) : Person :=
  mkPerson (id p) (name p) (givenName p) (surname p) (gender p) (occupation p)
    (notes p) (birth p) (death p) (parentIds p) (spouseIds p) (childIds p)
    (marriages p) (avatarUrl p) r.

(** ** JavaScript array helpers *)

(** [arr.includes(s)] *)
Definition includes (l : list string) (s : string) : bool :=
  List.existsb (String.eqb s) l.

(** [people.find(p => p.id === i)] *)
Definition findPerson (people : list Person) (i : string) : option Person :=
  List.find (fun p => String.eqb (id p) i) people.

(** A [for ... of] loop whose body may [return]: the first iteration that
    returns decides. *)
Fixpoint firstSome {A B : Type} (f : A -> option B) (l : list A) : option B :=
  match l with
  | [] => None
  | a :: l' => match f a with Some b => Some b | None => firstSome f l' end
  end.

(** The result of a fuelled computation. *)
Inductive fuelled (A : Type) : Type :=
  | Ret (a : A)
  | NoFuel.
Arguments Ret {A} a.
Arguments NoFuel {A}.

(** ** relationships.ts *)

Record RelationshipResult := mkResult {
  english : string;
  tamil : string;
  path : list string }.

(** The three [for] loops of [findPath] over the neighbours of the current
    node: the first neighbour whose search succeeds decides. *)
Fixpoint firstPath (search : string -> fuelled (option (list string)))
    (l : list string) : fuelled (option (list string)) :=
  match l with
  | [] => Ret None
  | n :: l' =>
      match search n with
      | Ret (Some result) => Ret (Some result)
      | Ret None => firstPath search l'
      | NoFuel => NoFuel
      end
  end.

(** [findPath(people, fromId, toId, visited, path)]. Every recursive call is
    handed a copy [new Set(visited)] of the caller's set, so the set is passed
    by value. *)
Fixpoint findPath (fuel : nat) (people : list Person) (fromId toId : string)
    (visited : gset string) (path0 : list string)
    : fuelled (option (list string)) :=
  match fuel with
  | O => NoFuel
  | S fuel' =>
      if String.eqb fromId toId then Ret (Some (path0 ++ [fromId]))
      else if bool_decide (fromId ∈ visited) then Ret None
      else
        let visited' := {[fromId]} ∪ visited in
        match findPerson people fromId with
        | None => Ret None
        | Some current =>
            let currentPath := path0 ++ [fromId] in
            let search := fun n => findPath fuel' people n toId visited' currentPath in
            match firstPath search (parentIds current) with
            | Ret None =>
                match firstPath search (childIds current) with
                | Ret None => firstPath search (spouseIds current)
                | r => r
                end
            | r => r
            end
        end
  end.

(** One hop of [getGenerationDiff]. *)
Definition generationHop (people : list Person) (a b : string) : Z :=
  match findPerson people a, findPerson people b with
  | Some current, Some next =>
      if includes (parentIds current) (id next) then (-1)%Z
      else if includes (childIds current) (id next) then 1%Z
      else 0%Z
  | _, _ => 0%Z
  end.

(** [getGenerationDiff(people, fromId, toId, path)]: the loop over [i], with
    the running [genDiff]. *)
Fixpoint getGenerationDiffLoop (people : list Person) (l : list string)
    (genDiff : Z) : Z :=
  match l with
  | a :: (b :: _) as l' =>
      getGenerationDiffLoop people l' (genDiff + generationHop people a b)%Z
  | _ => genDiff
  end.

Definition getGenerationDiff (people : list Person) (fromId toId : string)
    (l : list string) : Z :=
  getGenerationDiffLoop people l 0%Z.

(** [goesThoughSpouse(people, path)] *)
Fixpoint goesThoughSpouse (people : list Person) (l : list string) : bool :=
  match l with
  | a :: (b :: _) as l' =>
      match findPerson people a, findPerson people b with
      | Some current, Some next =>
          if includes (spouseIds current) (id next) then true
          else goesThoughSpouse people l'
      | _, _ => goesThoughSpouse people l'
      end
  | _ => false
  end.

(** The recurring three-way choice on the gender of [person2]. *)
Definition byGender (g : Gender) (m f o : string * string) (l : list string)
    : RelationshipResult :=
  match g with
  | Male => mkResult (fst m) (snd m) l
  | Female => mkResult (fst f) (snd f) l
  | _ => mkResult (fst o) (snd o) l
  end.

(** [people.filter(p => p.id !== i && p.parentIds.some(pid => ps.includes(pid)))]:
    the persons other than [i] who share a parent with the list [ps]. *)
Definition siblingsOf (people : list Person) (i : string) (ps : list string)
    : list Person :=
  List.filter (fun p => negb (String.eqb (id p) i)
                        && List.existsb (fun pid => includes ps pid) (parentIds p))
    people.

(** The named rules of [findRelationship], in the order of the source; [None]
    when the control flow reaches the generic fallback. [l] is the path that
    [findPath] found. *)
Definition namedRelationship (people : list Person) (person1 person2 : Person)
    (l : list string) : option RelationshipResult :=
  let person1Gender := gender person1 in
  let person2Gender := gender person2 in
  let siblings := siblingsOf people (id person1) (parentIds person1) in
  (* Spouse *)
  if includes (spouseIds person1) (id person2) then
    Some (byGender person2Gender ("Husband", "கணவர்") ("Wife", "மனைவி")
            ("Spouse", "கணவன் / மனைவி") l)
  (* Parent *)
  else if includes (parentIds person1) (id person2) then
    Some (byGender person2Gender ("Father", "அப்பா") ("Mother", "அம்மா")
            ("Parent", "பெற்றோர்") l)
  (* Child *)
  else if includes (childIds person1) (id person2) then
    Some (byGender person2Gender ("Son", "மகன்") ("Daughter", "மகள்")
            ("Child", "குழந்தை") l)
  (* Sibling (share at least one parent) *)
  else if negb (Nat.eqb (length (List.filter (fun pid => includes (parentIds person2) pid)
                                   (parentIds person1))) 0) then
    Some (byGender person2Gender ("Brother", "சகோதரன்") ("Sister", "சகோதரி")
            ("Sibling", "உடன்பிறந்தவர்") l)
  else
  (* Grandparent (parent's parent) *)
  match firstSome (fun parentId =>
          match findPerson people parentId with
          | Some parent =>
              if includes (parentIds parent) (id person2) then
                Some (byGender person2Gender ("Grandfather", "தாத்தா")
                        ("Grandmother", "பாட்டி") ("Grandparent", "பாட்டி/தாத்தா") l)
              else None
          | None => None
          end) (parentIds person1) with
  | Some r => Some r
  | None =>
  (* Grandchild (child's child) *)
  match firstSome (fun childId =>
          match findPerson people childId with
          | Some child =>
              if includes (childIds child) (id person2) then
                Some (byGender person2Gender ("Grandson", "பேரன்")
                        ("Granddaughter", "பேத்தி") ("Grandchild", "பேரக்குழந்தை") l)
              else None
          | None => None
          end) (childIds person1) with
  | Some r => Some r
  | None =>
  (* Great-grandparent *)
  match firstSome (fun parentId =>
          match findPerson people parentId with
          | None => None
          | Some parent =>
              firstSome (fun gpId =>
                match findPerson people gpId with
                | Some gp =>
                    if includes (parentIds gp) (id person2) then
                      Some (byGender person2Gender
                              ("Great Grandfather", "கொள்ளுத் தாத்தா")
                              ("Great Grandmother", "கொள்ளுப் பாட்டி")
                              ("Great Grandparent", "கொள்ளுத் தாத்தா/பாட்டி") l)
                    else None
                | None => None
                end) (parentIds parent)
          end) (parentIds person1) with
  | Some r => Some r
  | None =>
  (* Great-grandchild *)
  match firstSome (fun childId =>
          match findPerson people childId with
          | None => None
          | Some child =>
              firstSome (fun gcId =>
                match findPerson people gcId with
                | Some gc =>
                    if includes (childIds gc) (id person2) then
                      Some (byGender person2Gender
                              ("Great Grandson", "கொள்ளுப்பேரன்")
                              ("Great Granddaughter", "கொள்ளுப்பேத்தி")
                              ("Great Grandchild", "கொள்ளுப்பேரக்குழந்தை") l)
                    else None
                | None => None
                end) (childIds child)
          end) (childIds person1) with
  | Some r => Some r
  | None =>
  (* Uncle/Aunt (parent's sibling) *)
  match firstSome (fun parentId =>
          match findPerson people parentId with
          | None => None
          | Some parent =>
              let parentSiblings := siblingsOf people parentId (parentIds parent) in
              let parentGender := gender parent in
              if List.existsb (fun s => String.eqb (id s) (id person2)) parentSiblings then
                (* Determine maternal or paternal *)
                match person2Gender with
                | Male =>
                    match parentGender with
                    | Female => Some (mkResult "Maternal Uncle" "மாமா (தாய் மாமா)" l)
                    | _ => Some (mkResult "Paternal Uncle" "சித்தப்பா / பெரியப்பா" l)
                    end
                | Female =>
                    match parentGender with
                    | Female => Some (mkResult "Maternal Aunt" "சித்தி / பெரியம்மா" l)
                    | _ => Some (mkResult "Paternal Aunt" "அத்தை" l)
                    end
                | _ => Some (mkResult "Uncle/Aunt" "மாமா/அத்தை" l)
                end
              else
                (* Check if person2 is spouse of parent's sibling *)
                firstSome (fun sibling =>
                  if includes (spouseIds sibling) (id person2) then
                    match person2Gender with
                    | Male =>
                        match parentGender with
                        | Female => Some (mkResult "Uncle (by marriage)" "மாமா" l)
                        | _ => Some (mkResult "Uncle (by marriage)" "சித்தப்பா / பெரியப்பா" l)
                        end
                    | _ =>
                        match parentGender with
                        | Male => Some (mkResult "Aunt (by marriage)" "மாமி" l)
                        | _ => Some (mkResult "Aunt (by marriage)" "சித்தி / பெரியம்மா" l)
                        end
                    end
                  else None) parentSiblings
          end) (parentIds person1) with
  | Some r => Some r
  | None =>
  (* Nephew/Niece (sibling's child) *)
  match firstSome (fun sibling =>
          if includes (childIds sibling) (id person2) then
            Some (byGender person2Gender
                    ("Nephew", "மருமகன் (சகோதரன்/சகோதரியின் மகன்)")
                    ("Niece", "மருமகள் (சகோதரன்/சகோதரியின் மகள்)")
                    ("Nephew/Niece", "மருமகன்/மருமகள்") l)
          else None) siblings with
  | Some r => Some r
  | None =>
  (* Cousin (parent's sibling's child) *)
  match firstSome (fun parentId =>
          match findPerson people parentId with
          | None => None
          | Some parent =>
              let parentSiblings := siblingsOf people parentId (parentIds parent) in
              firstSome (fun uncle =>
                if includes (childIds uncle) (id person2) then
                  Some (byGender person2Gender
                          ("Cousin Brother", "மாமா/அத்தை மகன் (உறவு சகோதரன்)")
                          ("Cousin Sister", "மாமா/அத்தை மகள் (உறவு சகோதரி)")
                          ("Cousin", "உறவினர்") l)
                else None) parentSiblings
          end) (parentIds person1) with
  | Some r => Some r
  | None =>
  (* Father-in-law / Mother-in-law (spouse's parent) *)
  match firstSome (fun spouseId =>
          match findPerson people spouseId with
          | Some spouse =>
              if includes (parentIds spouse) (id person2) then
                Some (byGender person2Gender ("Father-in-law", "மாமனார்")
                        ("Mother-in-law", "மாமியார்")
                        ("Parent-in-law", "மாமனார்/மாமியார்") l)
              else None
          | None => None
          end) (spouseIds person1) with
  | Some r => Some r
  | None =>
  (* Son-in-law / Daughter-in-law (child's spouse) *)
  match firstSome (fun childId =>
          match findPerson people childId with
          | Some child =>
              if includes (spouseIds child) (id person2) then
                Some (byGender person2Gender ("Son-in-law", "மருமகன்")
                        ("Daughter-in-law", "மருமகள்")
                        ("Child-in-law", "மருமகன்/மருமகள்") l)
              else None
          | None => None
          end) (childIds person1) with
  | Some r => Some r
  | None =>
  (* Brother-in-law / Sister-in-law (spouse's sibling) *)
  match firstSome (fun spouseId =>
          match findPerson people spouseId with
          | None => None
          | Some spouse =>
              let spouseSiblings := siblingsOf people spouseId (parentIds spouse) in
              if List.existsb (fun s => String.eqb (id s) (id person2)) spouseSiblings then
                Some (byGender person2Gender
                        ("Brother-in-law", "மைத்துனர் / மச்சான்")
                        ("Sister-in-law", "நாத்தனார் / மைத்துனி")
                        ("Sibling-in-law", "மைத்துனர்/நாத்தனார்") l)
              else None
          end) (spouseIds person1) with
  | Some r => Some r
  | None =>
  (* Brother-in-law / Sister-in-law (sibling's spouse) *)
  match firstSome (fun sibling =>
          if includes (spouseIds sibling) (id person2) then
            match person1Gender with
            | Male =>
                match person2Gender with
                | Male => Some (mkResult "Brother-in-law" "மச்சான் / அத்தான்" l)
                | _ => Some (mkResult "Sister-in-law" "அண்ணி / மைத்துனி" l)
                end
            | _ =>
                match person2Gender with
                | Male => Some (mkResult "Brother-in-law" "அத்தான் / மச்சான்" l)
                | _ => Some (mkResult "Sister-in-law" "அண்ணி" l)
                end
            end
          else None) siblings with
  | Some r => Some r
  | None =>
  (* Co-brother / Co-sister (spouse's sibling's spouse) *)
  firstSome (fun spouseId =>
    match findPerson people spouseId with
    | None => None
    | Some spouse =>
        let spouseSiblings := siblingsOf people spouseId (parentIds spouse) in
        firstSome (fun spouseSibling =>
          if includes (spouseIds spouseSibling) (id person2) then
            match person2Gender with
            | Male => Some (mkResult "Co-Brother" "சகலை" l)
            | Female => Some (mkResult "Co-Sister" "ஓரகத்தி" l)
            | _ => None
            end
          else None) spouseSiblings
    end) (spouseIds person1)
  end end end end end end end end end end end.

(** The generic fallback of [findRelationship], based on the generation
    difference along the found path. *)
Definition fallbackRelationship (people : list Person) (person1 person2 : Person)
    (l : list string) : RelationshipResult :=
  let genDiff := getGenerationDiff people (id person1) (id person2) l in
  let throughSpouse := goesThoughSpouse people l in
  if (genDiff <? -2)%Z then
    mkResult ("Ancestor (" +:+ pretty (Z.abs genDiff) +:+ " generations)")
             ("மூதாதையர் (" +:+ pretty (Z.abs genDiff) +:+ " தலைமுறை)") l
  else if (2 <? genDiff)%Z then
    mkResult ("Descendant (" +:+ pretty genDiff +:+ " generations)")
             ("வழித்தோன்றல் (" +:+ pretty genDiff +:+ " தலைமுறை)") l
  else if throughSpouse then
    mkResult "Relative by marriage" "திருமண உறவினர்" l
  else mkResult "Relative" "உறவினர்" l.

(** [findRelationship(people, person1, person2)], with the fuel handed to
    [findPath]. *)
Definition findRelationshipFuel (fuel : nat) (people : list Person)
    (person1 person2 : Person) : fuelled RelationshipResult :=
  if String.eqb (id person1) (id person2) then
    Ret (mkResult "Same Person" "ஒரே நபர்" [id person1])
  else
    match findPath fuel people (id person1) (id person2) ∅ [] with
    | NoFuel => NoFuel
    | Ret None => Ret (mkResult "No direct relationship found" "நேரடி உறவு இல்லை" [])
    | Ret (Some l) =>
        match namedRelationship people person1 person2 l with
        | Some r => Ret r
        | None => Ret (fallbackRelationship people person1 person2 l)
        end
    end.

(** The recursion of [findPath] is at most one deeper than the number of
    persons: every level below the first adds a person of the list to the
    visited set (see [findPath_fuel_enough]). *)
Definition findRelationship (people : list Person) (person1 person2 : Person)
    : fuelled RelationshipResult :=
  findRelationshipFuel (S (length people)) people person1 person2.

(** ** cycles.ts *)

(** [new Map(people.map(p => [p.id, p]))]: a later person with the same id
    replaces an earlier one. *)
Definition peopleMapOf (people : list Person) : gmap string Person :=
  fold_left (fun m p => <[id p := p]> m) people ∅.

(** [people.forEach(person => childrenMap.set(person.id, []))] *)
Definition emptyChildrenMap (people : list Person) : gmap string (list string) :=
  fold_left (fun m p => <[id p := []]> m) people ∅.

(** The body of the inner [forEach] of [wouldCreateCycle]'s children map:
    [children.push(person.id)] when [parentId] is a key. *)
Definition pushChild (c : string) (m : gmap string (list string))
    (parentId : string) : gmap string (list string) :=
  match m !! parentId with
  | Some children => <[parentId := children ++ [c]]> m
  | None => m
  end.

(** The children map that [wouldCreateCycle] builds. *)
Definition cycleChildrenMap (people : list Person) : gmap string (list string) :=
  fold_left (fun m person => fold_left (pushChild (id person)) (parentIds person) m)
    people (emptyChildrenMap people).

(** The first [while] loop of [wouldCreateCycle]. The [return true] in the
    callback of [children.forEach] leaves the callback, not the function: it
    only keeps that descendant out of the queue. The loop has no result. *)
Fixpoint descendantsLoop (fuel : nat) (childrenMap : gmap string (list string))
    (potentialParentId : string) (queue : list string) (visited : gset string)
    : fuelled unit :=
  match fuel with
  | O => NoFuel
  | S fuel' =>
      match queue with
      | [] => Ret tt
      | currentId :: queue' =>
          if bool_decide (currentId ∈ visited) then
            descendantsLoop fuel' childrenMap potentialParentId queue' visited
          else
            let children := default [] (childrenMap !! currentId) in
            descendantsLoop fuel' childrenMap potentialParentId
              (queue' ++ List.filter (fun d => negb (String.eqb d potentialParentId)) children)
              ({[currentId]} ∪ visited)
      end
  end.

(** The second [while] loop of [wouldCreateCycle]: the walk up the
    [parentIds] from [potentialParentId]. *)
Fixpoint ancestorsLoop (fuel : nat) (peopleMap : gmap string Person)
    (childId : string) (ancestorQueue : list string)
    (ancestorVisited : gset string) : fuelled bool :=
  match fuel with
  | O => NoFuel
  | S fuel' =>
      match ancestorQueue with
      | [] => Ret false
      | currentId :: queue' =>
          if bool_decide (currentId ∈ ancestorVisited) then
            ancestorsLoop fuel' peopleMap childId queue' ancestorVisited
          else if String.eqb currentId childId then Ret true
          else
            let pushed :=
              match peopleMap !! currentId with
              | Some person => parentIds person
              | None => []
              end in
            ancestorsLoop fuel' peopleMap childId (queue' ++ pushed)
              ({[currentId]} ∪ ancestorVisited)
      end
  end.

Definition wouldCreateCycleFuel (fuel : nat) (people : list Person)
    (childId potentialParentId : string) : fuelled bool :=
  if String.eqb childId potentialParentId then Ret true
  else
    let peopleMap := peopleMapOf people in
    let childrenMap := cycleChildrenMap people in
    match descendantsLoop fuel childrenMap potentialParentId [childId] ∅ with
    | NoFuel => NoFuel
    | Ret _ => ancestorsLoop fuel peopleMap childId [potentialParentId] ∅
    end.

(** The number of [parentIds] entries of the whole list. *)
Definition parentEntries (people : list Person) : nat :=
  length (flat_map parentIds people).

(** [wouldCreateCycle(people, childId, potentialParentId)]. Each loop takes at
    most one turn per queue entry, and a queue holds its first entry and what
    the first visit of a node pushes (see [wouldCreateCycle_returns]). *)
Definition wouldCreateCycle (people : list Person)
    (childId potentialParentId : string) : fuelled bool :=
  wouldCreateCycleFuel (2 + parentEntries people) people childId potentialParentId.

(** ** tree-layout.ts *)

Definition NODE_RADIUS : Q := 45%Q.
Definition HORIZONTAL_SPACING : Q := 180%Q.
Definition VERTICAL_SPACING : Q := 180%Q.
Definition SPOUSE_SPACING : Q := 100%Q.
Definition CANVAS_PADDING : Q := 100%Q.
Definition UNIT_SPACING : Q := 60%Q.
Definition CHILD_SPACING : Q := HORIZONTAL_SPACING.
Definition COUPLE_GAP : Q := SPOUSE_SPACING.

Record LayoutNode := mkNode {
  person : Person;            (* the spread [...person] *)
  computedPosition : ref;
  generation : nat }.

Record LayoutResult := mkLayout {
  nodes : list LayoutNode;
  width : Q;
  height : Q }.

(** The store of [Position] objects. Every reference that a [Person] of the
    input holds is below the length of the store. *)
Abbreviation Store := (list Position).

(** [{ x: ..., y: ... }]: a new object. *)
Definition alloc (s : Store) (v : Position) : ref * Store := (length s, s ++ [v]).

(** [r.x] and [r.y]; a reference outside the store does not occur. *)
Definition readX (s : Store) (r : ref) : Q := x (default (mkPosition 0 0) (s !! r)).
Definition readY (s : Store) (r : ref) : Q := y (default (mkPosition 0 0) (s !! r)).

(** [Array.prototype.sort(cmp)] is stable; on a consistent comparator its
    result is the one of insertion sort. *)
Fixpoint insertBy {A : Type} (cmp : A -> A -> Z) (a : A) (sorted : list A) : list A :=
  match sorted with
  | [] => [a]
  | b :: rest => if (cmp a b <? 0)%Z then a :: b :: rest else b :: insertBy cmp a rest
  end.

Definition sortBy {A : Type} (cmp : A -> A -> Z) (l : list A) : list A :=
  fold_left (fun sorted a => insertBy cmp a sorted) l [].

(** The default order of [sort()] on strings: unit by unit, here byte by
    byte, which is the same order on ASCII ids. *)
Definition compareStrings (a b : string) : Z :=
  match String.compare a b with Lt => (-1)%Z | Eq => 0%Z | Gt => 1%Z end.

(** [ids.sort().join('-')] *)
Definition joinSorted (ids : list string) : string :=
  String.concat "-" (sortBy compareStrings ids).

(** [key.includes(sub)] on strings. *)
Fixpoint stringIncludes (key sub : string) : bool :=
  if String.prefix sub key then true
  else match key with
       | EmptyString => false
       | String _ key' => stringIncludes key' sub
       end.

(** [Math.min(...l)] and [Math.max(...l)]; [None] stands for the infinity
    that an empty list gives. *)
Definition mathMin (l : list Q) : option Q :=
  match l with
  | [] => None
  | a :: l' => Some (fold_left Qmin l' a)
  end.
Definition mathMax (l : list Q) : option Q :=
  match l with
  | [] => None
  | a :: l' => Some (fold_left Qmax l' a)
  end.

(** The body of the inner [forEach] of [buildChildrenMap]: a child is pushed
    once. *)
Definition pushChildOnce (c : string) (m : gmap string (list string))
    (parentId : string) : gmap string (list string) :=
  match m !! parentId with
  | Some children =>
      if includes children c then m else <[parentId := children ++ [c]]> m
  | None => m
  end.

Definition buildChildrenMap (people : list Person) : gmap string (list string) :=
  fold_left (fun m person => fold_left (pushChildOnce (id person)) (parentIds person) m)
    people (emptyChildrenMap people).

Definition findRoots (people : list Person) : list Person :=
  List.filter (fun p => Nat.eqb (length (parentIds p)) 0) people.

(** [generations.set(id, gen)] unless a larger generation is recorded. *)
Definition raiseGeneration (generations : gmap string nat) (i : string) (gen : nat)
    : gmap string nat :=
  match generations !! i with
  | Some g => if g <? gen then <[i := gen]> generations else generations
  | None => <[i := gen]> generations
  end.

(** The children that one turn of the loop queues. *)
Definition childrenToQueue (generations : gmap string nat) (gen : nat)
    (children : list string) : list (string * nat) :=
  map (fun childId => (childId, gen + 1))
    (List.filter (fun childId =>
       match generations !! childId with
       | None => true
       | Some currentGen => currentGen <? gen + 1
       end) children).

(** The [while (queue.length > 0)] loop of [calculateGenerations]. *)
Fixpoint generationsLoop (fuel : nat) (childrenMap : gmap string (list string))
    (queue : list (string * nat)) (generations : gmap string nat)
    : fuelled (gmap string nat) :=
  match fuel with
  | O => NoFuel
  | S fuel' =>
      match queue with
      | [] => Ret generations
      | (i, gen) :: queue' =>
          let generations' := raiseGeneration generations i gen in
          let children := default [] (childrenMap !! i) in
          generationsLoop fuel' childrenMap
            (queue' ++ childrenToQueue generations' gen children) generations'
      end
  end.

(** "Handle disconnected nodes". *)
Definition fillDisconnected (people : list Person) (generations : gmap string nat)
    : gmap string nat :=
  fold_left (fun g p => match g !! id p with
                        | Some _ => g
                        | None => <[id p := 0]> g
                        end) people generations.

(** [calculateGenerations(people)]. The loop has no bound in the source: on a
    cyclic parent relation below a root it does not end. *)
Definition calculateGenerations (fuel : nat) (people : list Person)
    : fuelled (gmap string nat) :=
  let childrenMap := buildChildrenMap people in
  let roots := findRoots people in
  match generationsLoop fuel childrenMap (map (fun r => (id r, 0)) roots) ∅ with
  | Ret generations => Ret (fillDisconnected people generations)
  | NoFuel => NoFuel
  end.

Definition groupByGeneration (people : list Person) (generations : gmap string nat)
    : gmap nat (list Person) :=
  fold_left (fun groups person =>
               let gen := default 0 (generations !! id person) in
               <[gen := default [] (groups !! gen) ++ [person]]> groups)
    people ∅.

Definition areSpouses (person1 person2 : Person) : bool :=
  includes (spouseIds person1) (id person2) || includes (spouseIds person2) (id person1).

(** [Math.max(...Array.from(generations.values()))]; the generations are
    naturals and the map is not empty when the list of persons is not. *)
Definition maxGenerationOf (generations : gmap string nat) : nat :=
  map_fold (fun _ g acc => Nat.max g acc) 0 generations.

(** What the placement loops of [computeLayout] update. *)
Record Placement := mkPlacement {
  store : Store;
  nodePositions : gmap string ref;
  positionedIds : gset string }.

(** [nodePositions.set(i, pos); positionedIds.add(i)] for a new [pos]. *)
Definition setPosition (st : Placement) (i : string) (pos : Position) : Placement :=
  let '(r, s) := alloc (store st) pos in
  mkPlacement s (<[i := r]> (nodePositions st)) ({[i]} ∪ positionedIds st).

(** [Array.from(nodePositions.values()).map(p => p.x)], in some order. *)
Definition existingX (st : Placement) : list Q :=
  map (fun kr => readX (store st) (snd kr)) (map_to_list (nodePositions st)).

(** [peopleByParents]: a map read back in insertion order. *)
Fixpoint groupPush (key : string) (person : Person)
    (groups : list (string * list Person)) : list (string * list Person) :=
  match groups with
  | [] => [(key, [person])]
  | (k, g) :: groups' =>
      if String.eqb k key then (k, g ++ [person]) :: groups'
      else (k, g) :: groupPush key person groups'
  end.

Definition yOfGeneration (gen : nat) : Q :=
  (CANVAS_PADDING + inject_Z (Z.of_nat gen) * VERTICAL_SPACING)%Q.

Section Layout.
(** [a.localeCompare(b)], the collation of the host. *)
Variable localeCompare : string -> string -> Z.

(** The comparator of the sibling sort. *)
Definition compareSiblings (a b : Person) : Z :=
  if areSpouses a b then 0%Z else localeCompare (givenName a) (givenName b).

(** The bottom generation: groups by parents, then the orphans. *)
Definition bottomGroups (genPeople : list Person) : list (list Person) :=
  let '(peopleByParents, orphans) :=
    fold_left (fun '(byParents, orphans) person =>
                 if Nat.eqb (length (parentIds person)) 0
                 then (byParents, orphans ++ [person])
                 else (groupPush (joinSorted (parentIds person)) person byParents,
                       orphans))
      genPeople ([], []) in
  let allGroups := map snd peopleByParents in
  if 0 <? length orphans then allGroups ++ [orphans] else allGroups.

Definition placeGroup (y : Q) (sorted : list Person) (acc : Placement * Q)
    : Placement * Q :=
  fold_left (fun '(st, currentX) person =>
               if bool_decide (id person ∈ positionedIds st) then (st, currentX)
               else (setPosition st (id person) (mkPosition currentX y),
                     (currentX + CHILD_SPACING)%Q))
    sorted acc.

Fixpoint placeGroups (y : Q) (allGroups : list (list Person))
    (acc : Placement * Q) : Placement * Q :=
  match allGroups with
  | [] => acc
  | group :: rest =>
      let '(st, currentX) := placeGroup y (sortBy compareSiblings group) acc in
      (* the gap between sibling groups, not after the last group *)
      let currentX' := match rest with
                       | [] => currentX
                       | _ => (currentX + UNIT_SPACING)%Q
                       end in
      placeGroups y rest (st, currentX')
  end.

Definition placeBottom (gen : nat) (genPeople : list Person) (st : Placement)
    : Placement :=
  fst (placeGroups (yOfGeneration gen) (bottomGroups genPeople) (st, CANVAS_PADDING)).

(** The upper generations: the units. *)
Definition spousesInGen (peopleMap : gmap string Person)
    (generations : gmap string nat) (gen : nat) (person : Person) : list string :=
  List.filter (fun spouseId =>
                 match peopleMap !! spouseId with
                 | Some _ => bool_decide (generations !! spouseId = Some gen)
                 | None => false
                 end) (spouseIds person).

(** The couple of [person] and [spouseId], unless its pair key is
    processed. [spousesInGen] keeps only ids that [peopleMap] holds. *)
Definition addCouple (peopleMap : gmap string Person) (person : Person)
    (acc : gset string * list (list Person)) (spouseId : string)
    : gset string * list (list Person) :=
  let '(processedPairs, units) := acc in
  let pairKey := joinSorted [id person; spouseId] in
  if bool_decide (pairKey ∈ processedPairs) then acc
  else match peopleMap !! spouseId with
       | Some spouse => ({[pairKey]} ∪ processedPairs, units ++ [[person; spouse]])
       | None => ({[pairKey]} ∪ processedPairs, units)
       end.

Definition collectUnits (peopleMap : gmap string Person)
    (generations : gmap string nat) (gen : nat) (genPeople : list Person)
    : list (list Person) :=
  (* First collect multi-spouse groups *)
  let multi :=
    fold_left (fun acc person =>
                 let spouses := spousesInGen peopleMap generations gen person in
                 if 1 <? length spouses
                 then fold_left (addCouple peopleMap person) spouses acc
                 else acc)
      genPeople (∅, []) in
  (* Then single-spouse couples *)
  snd (fold_left (fun acc person =>
                    match spousesInGen peopleMap generations gen person with
                    | [spouseId] => addCouple peopleMap person acc spouseId
                    | [] =>
                        let isInPair :=
                          List.existsb (fun key => stringIncludes key (id person))
                            (elements (fst acc)) in
                        if isInPair then acc else (fst acc, snd acc ++ [[person]])
                    | _ => acc
                    end)
         genPeople multi).

(** The centre of a unit: above its children when they are placed. The
    [Set] of child ids is read for emptiness and for the range of the
    positions only, so a list stands for it. *)
Definition centerOf (childrenMap : gmap string (list string)) (st : Placement)
    (unit : list Person) : Q :=
  let unitChildIds :=
    flat_map (fun parent => default [] (childrenMap !! id parent)) unit in
  if 0 <? length unitChildIds then
    let childPositions :=
      omap (fun cid => nodePositions st !! cid) unitChildIds in
    let xs := map (readX (store st)) childPositions in
    match mathMin xs, mathMax xs with
    | Some minX, Some maxX => Qred ((minX + maxX) / 2)%Q
    | _, _ =>
        (CANVAS_PADDING
         + inject_Z (Z.of_nat (size (positionedIds st))) * CHILD_SPACING)%Q
    end
  else
    match mathMax (existingX st) with
    | Some m => (m + CHILD_SPACING)%Q
    | None => CANVAS_PADDING
    end.

Definition placeIfNew (st : Placement) (p : Person) (pos : Position) : Placement :=
  if bool_decide (id p ∈ positionedIds st) then st else setPosition st (id p) pos.

Definition placeUnit (childrenMap : gmap string (list string)) (y : Q)
    (st : Placement) (unit : list Person) : Placement :=
  let centerX := centerOf childrenMap st unit in
  match unit with
  | [p1; p2] =>
      let halfGap := Qred (COUPLE_GAP / 2)%Q in
      let st1 := placeIfNew st p1 (mkPosition (centerX - halfGap)%Q y) in
      placeIfNew st1 p2 (mkPosition (centerX + halfGap)%Q y)
  | person :: _ => placeIfNew st person (mkPosition centerX y)
  | [] => st
  end.

Definition placeUpper (peopleMap : gmap string Person)
    (childrenMap : gmap string (list string)) (generations : gmap string nat)
    (gen : nat) (genPeople : list Person) (st : Placement) : Placement :=
  fold_left (placeUnit childrenMap (yOfGeneration gen))
    (collectUnits peopleMap generations gen genPeople) st.

(** [people.forEach(person => nodes.push({...person, computedPosition, generation}))] *)
Definition makeNode (autoAlign : bool) (generations : gmap string nat)
    (nodePositions : gmap string ref) (acc : Store * list LayoutNode)
    (p : Person) : Store * list LayoutNode :=
  let '(s, nodes) := acc in
  let gen := default 0 (generations !! id p) in
  let choose := fun pos : ref =>
    match position p with
    | Some manual => if negb autoAlign then manual else pos
    | None => pos
    end in
  match nodePositions !! id p with
  | Some pos => (s, nodes ++ [mkNode p (choose pos) gen])
  | None =>
      let '(fallbackPos, s') :=
        alloc s (mkPosition CANVAS_PADDING (yOfGeneration gen)) in
      (s', nodes ++ [mkNode p (choose fallbackPos) gen])
  end.

(** [node.computedPosition.x += shiftX] *)
Definition shiftNode (shiftX : Q) (s : Store) (node : LayoutNode) : Store :=
  alter (fun pos => mkPosition (x pos + shiftX)%Q (y pos)) (computedPosition node) s.

(** "Normalize positions": the shift is written into the objects that the
    nodes refer to. *)
Definition normalize (s : Store) (nodes : list LayoutNode) : Store :=
  match mathMin (map (fun n => readX s (computedPosition n)) nodes) with
  | Some minX =>
      if Qle_bool CANVAS_PADDING minX then s
      else fold_left (shiftNode (CANVAS_PADDING - minX)%Q) nodes s
  | None => s
  end.

(** [computeLayout(people, autoAlign)] on the store [s]: the store after the
    call and the result. The loop that fills [familyUnits] is left out: the
    array is never read. *)
Definition computeLayout (fuel : nat) (s : Store) (people : list Person)
    (autoAlign : bool) : fuelled (Store * LayoutResult) :=
  match people with
  | [] => Ret (s, mkLayout [] 800%Q 600%Q)
  | _ =>
      match calculateGenerations fuel people with
      | NoFuel => NoFuel
      | Ret generations =>
          let generationGroups := groupByGeneration people generations in
          let maxGeneration := maxGenerationOf generations in
          let peopleMap := peopleMapOf people in
          let childrenMap := buildChildrenMap people in
          let placed :=
            fold_left (fun st gen =>
                         let genPeople := default [] (generationGroups !! gen) in
                         if Nat.eqb gen maxGeneration
                         then placeBottom gen genPeople st
                         else placeUpper peopleMap childrenMap generations
                                gen genPeople st)
              (rev (seq 0 (S maxGeneration)))
              (mkPlacement s ∅ ∅) in
          let '(s1, nodes) :=
            fold_left (makeNode autoAlign generations (nodePositions placed))
              people (store placed, []) in
          let s2 := normalize s1 nodes in
          let xs := map (fun n => readX s2 (computedPosition n)) nodes in
          let ys := map (fun n => readY s2 (computedPosition n)) nodes in
          Ret (s2, mkLayout nodes
                     (fold_left Qmax xs 800 + CANVAS_PADDING)%Q
                     (fold_left Qmax ys 600 + CANVAS_PADDING)%Q)
      end
  end.
End Layout.

(** ** The remaining functions of cycles.ts, types.ts and tree-layout.ts *)

(** The result of [validateTree]. *)
Record TreeValidation := mkValidation {
  valid : bool;
  error : option string }.

(** [people.filter(p => p.id !== person.id || !p.parentIds.includes(parentId))] *)
Definition withoutEdge (people : list Person) (person : Person) (parentId : string)
    : list Person :=
  List.filter (fun p => negb (String.eqb (id p) (id person))
                        || negb (includes (parentIds p) parentId)) people.

(** The inner [for] loop of [validateTree]; [Some] is its [return]. *)
Fixpoint validateParents (people : list Person) (person : Person)
    (ps : list string) : fuelled (option TreeValidation) :=
  match ps with
  | [] => Ret None
  | parentId :: ps' =>
      match wouldCreateCycle (withoutEdge people person parentId) (id person) parentId with
      | NoFuel => NoFuel
      | Ret true =>
          Ret (Some (mkValidation false
                       (Some ("Cycle detected: " +:+ name person
                              +:+ " cannot have this parent relationship"))))
      | Ret false => validateParents people person ps'
      end
  end.

(** The outer [for] loop of [validateTree]. *)
Fixpoint validatePersons (people : list Person) (l : list Person)
    : fuelled (option TreeValidation) :=
  match l with
  | [] => Ret None
  | person :: l' =>
      match validateParents people person (parentIds person) with
      | Ret None => validatePersons people l'
      | r => r
      end
  end.

(** [validateTree(people)] *)
Definition validateTree (people : list Person) : fuelled TreeValidation :=
  match validatePersons people people with
  | NoFuel => NoFuel
  | Ret (Some r) => Ret r
  | Ret None => Ret (mkValidation true None)
  end.

(** [getFullName(person)]; a string is falsy when it is empty. *)
Definition getFullName (p : Person) : string :=
  if negb (String.eqb (name p) "") then name p
  else
    let parts := List.filter (fun part => negb (String.eqb part ""))
                   [givenName p; surname p] in
    let joined := String.concat " " parts in
    if negb (String.eqb joined "") then joined else "Unknown".

(** [computeAutoAlignPositions(people)] on the store [s]: the store after the
    call and the map from ids to [Position] objects. *)
Definition computeAutoAlignPositions (localeCompare : string -> string -> Z)
    (fuel : nat) (s : Store) (people : list Person)
    : fuelled (Store * gmap string ref) :=
  match computeLayout localeCompare fuel s people true with
  | NoFuel => NoFuel
  | Ret (s', layout) =>
      Ret (s', fold_left (fun positions node =>
                            <[id (person node) := computedPosition node]> positions)
                 (nodes layout) ∅)
  end.

(** ** app/editor/page.tsx: the updates of the list of persons

    Each handler hands [setPeople] a function from the previous list to the
    next one; these functions are modelled. *)

(** [{ ...p, childIds: [...p.childIds, i] }] for the person [target] that does
    not hold [i] yet, and likewise for the other two arrays. *)
Definition linkChild (i target : string) (p : Person) : Person :=
  if String.eqb (id p) target && negb (includes (childIds p) i)
  then withChildren (childIds p ++ [i]) p else p.
Definition linkParent (i target : string) (p : Person) : Person :=
  if String.eqb (id p) target && negb (includes (parentIds p) i)
  then withParents (parentIds p ++ [i]) p else p.
Definition linkSpouse (i target : string) (p : Person) : Person :=
  if String.eqb (id p) target && negb (includes (spouseIds p) i)
  then withSpouses (spouseIds p ++ [i]) p else p.

(** The update of [handleDialogAdd]. *)
Definition handleDialogAdd (prev : list Person) (person : Person) : list Person :=
  let newPeople := prev ++ [person] in
  let newPeople :=
    fold_left (fun np parentId => map (linkChild (id person) parentId) np)
      (parentIds person) newPeople in
  let newPeople :=
    fold_left (fun np childId => map (linkParent (id person) childId) np)
      (childIds person) newPeople in
  fold_left (fun np spouseId => map (linkSpouse (id person) spouseId) np)
    (spouseIds person) newPeople.

(** The update of [handleUpdatePerson]. *)
Definition handleUpdatePerson (prev : list Person) (updatedPerson : Person)
    : list Person :=
  let newPeople :=
    map (fun p => if String.eqb (id p) (id updatedPerson) then updatedPerson else p)
      prev in
  let newPeople :=
    fold_left (fun np spouseId => map (linkSpouse (id updatedPerson) spouseId) np)
      (spouseIds updatedPerson) newPeople in
  let newPeople :=
    fold_left (fun np childId => map (linkParent (id updatedPerson) childId) np)
      (childIds updatedPerson) newPeople in
  fold_left (fun np parentId => map (linkChild (id updatedPerson) parentId) np)
    (parentIds updatedPerson) newPeople.

(** The update of [handleDeletePerson]. *)
Definition handleDeletePerson (prev : list Person) (personId : string)
    : list Person :=
  map (fun p =>
         mkPerson (id p) (name p) (givenName p) (surname p) (gender p)
           (occupation p) (notes p) (birth p) (death p)
           (List.filter (fun i => negb (String.eqb i personId)) (parentIds p))
           (List.filter (fun i => negb (String.eqb i personId)) (spouseIds p))
           (List.filter (fun i => negb (String.eqb i personId)) (childIds p))
           (List.filter (fun m => negb (String.eqb (spouseId m) personId))
              (marriages p))
           (avatarUrl p) (position p))
    (List.filter (fun p => negb (String.eqb (id p) personId)) prev).

(** ** The fallback rule as the specification words it

    Section 4.4, rule 12: the signed generation difference sums -1 per
    parent-hop, +1 per child-hop and 0 per spouse-hop along the found path; a
    magnitude above 2 gives "Ancestor (N generations)" or "Descendant (N
    generations)", else a spousal edge on the path gives "Relative by
    marriage", else "Relative". A hop from [a] to [b] is a parent-hop when
    [b] is among the parents stored at [a], and so on. *)

Definition specHop (people : list Person) (a b : string) : Z :=
  match findPerson people a with
  | Some p =>
      if bool_decide (b ∈ parentIds p) then (-1)%Z
      else if bool_decide (b ∈ childIds p) then 1%Z
      else 0%Z
  | None => 0%Z
  end.

Fixpoint specGenerationDiff (people : list Person) (l : list string) : Z :=
  match l with
  | a :: (b :: _) as l' => (specHop people a b + specGenerationDiff people l')%Z
  | _ => 0%Z
  end.

Definition specSpousalHop (people : list Person) (a b : string) : bool :=
  match findPerson people a with
  | Some p => bool_decide (b ∈ spouseIds p)
  | None => false
  end.

Fixpoint specThroughSpouse (people : list Person) (l : list string) : bool :=
  match l with
  | a :: (b :: _) as l' => specSpousalHop people a b || specThroughSpouse people l'
  | _ => false
  end.

Definition specFallbackLabel (people : list Person) (l : list string) : string :=
  let d := specGenerationDiff people l in
  if bool_decide (2 < Z.abs d)%Z then
    if bool_decide (d < 0)%Z
    then "Ancestor (" +:+ pretty (Z.abs d) +:+ " generations)"
    else "Descendant (" +:+ pretty (Z.abs d) +:+ " generations)"
  else if specThroughSpouse people l then "Relative by marriage"
  else "Relative".

(** ** The vocabulary of the properties *)

(** [b] is in one of the stored arrays of the person that [find] answers for
    the id [a]. *)
Definition adjacent (people : list Person) (a b : string) : Prop :=
  exists p, findPerson people a = Some p /\
            (b ∈ parentIds p \/ b ∈ childIds p \/ b ∈ spouseIds p).

(** Every consecutive pair of the list is adjacent. *)
Fixpoint isChain (people : list Person) (l : list string) : Prop :=
  match l with
  | a :: (b :: _) as l' => adjacent people a b /\ isChain people l'
  | _ => True
  end.

(** A path of stored edges leads from [a] to [b]. *)
Definition connected (people : list Person) (a b : string) : Prop :=
  exists l, head l = Some a /\ last l = Some b /\ isChain people l.

(** [a] is a descendant of [b] in [G]: a chain of persons of [G], each
    listing the id of the next among its [parentIds], leads from [a] up to
    [b]. *)
Inductive descendantOf (G : list Person) : Person -> Person -> Prop :=
  | descendant_child (a b : Person) :
      a ∈ G -> b ∈ G -> id b ∈ parentIds a -> descendantOf G a b
  | descendant_further (a m b : Person) :
      a ∈ G -> m ∈ G -> id m ∈ parentIds a -> descendantOf G m b ->
      descendantOf G a b.

(** [k] is a parent of [c] within the list: [k] is the id of a person of the
    list, and a person of the list with the id [c] lists [k] among its
    [parentIds]. *)
Definition parentOf (people : list Person) (k c : string) : Prop :=
  k ∈ map id people /\ exists p, p ∈ people /\ id p = c /\ k ∈ parentIds p.

(** No id is its own ancestor within the list. *)
Definition acyclic (people : list Person) : Prop :=
  forall i, ~ tc (parentOf people) i i.

(** A chain of [g] parent-to-child steps leads from a root (a person without
    [parentIds]) down to [c]; every parent on it is a person of the list. *)
Inductive chainDepth (people : list Person) : string -> nat -> Prop :=
  | depth_root (r : Person) :
      r ∈ people -> parentIds r = [] -> chainDepth people (id r) 0
  | depth_child (k c : string) (g : nat) :
      chainDepth people k g -> parentOf people k c -> chainDepth people c (S g).

(** [n] is the length of the longest such chain down to [c]. *)
Definition longestChain (people : list Person) (c : string) (n : nat) : Prop :=
  chainDepth people c n /\ forall m, chainDepth people c m -> m <= n.

(** One step up: the map of the list resolves [a] to a person that lists [b]
    among its [parentIds]. *)
Definition parentStep (people : list Person) (a b : string) : Prop :=
  exists p, peopleMapOf people !! a = Some p /\ b ∈ parentIds p.

(** Every reference among the three relation arrays is the id of a person of
    the list. *)
Definition closedRefs (people : list Person) : Prop :=
  forall p i, p ∈ people ->
    i ∈ parentIds p \/ i ∈ childIds p \/ i ∈ spouseIds p -> i ∈ map id people.

(** The three relation arrays mirror each other. *)
Definition symmetricRefs (people : list Person) : Prop :=
  forall p q, p ∈ people -> q ∈ people ->
    (id q ∈ parentIds p <-> id p ∈ childIds q) /\
    (id q ∈ spouseIds p <-> id p ∈ spouseIds q).

(** [p'] is [p] with the mirror entries for the person [i], whose arrays are
    [ps], [cs] and [ss]: [i] is among the children of its parents, among the
    parents of its children and among the spouses of its spouses. *)
Definition mirrored (i : string) (ps cs ss : list string) (p p' : Person) : Prop :=
  id p' = id p /\
  (forall x, x ∈ childIds p' <-> x ∈ childIds p \/ (x = i /\ id p ∈ ps)) /\
  (forall x, x ∈ parentIds p' <-> x ∈ parentIds p \/ (x = i /\ id p ∈ cs)) /\
  (forall x, x ∈ spouseIds p' <-> x ∈ spouseIds p \/ (x = i /\ id p ∈ ss)).

(** ** Invariants and measures of the proofs *)

(** The children map of the layout holds [c] under the key [k]. *)
Definition isChild (people : list Person) (k c : string) : Prop :=
  exists cs, buildChildrenMap people !! k = Some cs /\ c ∈ cs.

(** The parents of [c] within the list. *)
Definition parentsIn (people : list Person) (c : string) : list string :=
  List.filter (fun k => includes (map id people) k)
    (flat_map parentIds (List.filter (fun p => String.eqb (id p) c) people)).

(** The length of the longest chain of parents above [c] within the list,
    cut at [n]. *)
Fixpoint depthFuel (people : list Person) (n : nat) (c : string) : nat :=
  match n with
  | O => 0
  | S n' => max_list (map (fun k => S (depthFuel people n' k)) (parentsIn people c))
  end.

(** [l] lists a parent of [c], a parent of that parent, and so on. *)
Fixpoint isUpChain (people : list Person) (c : string) (l : list string) : Prop :=
  match l with
  | [] => True
  | k :: l' => parentOf people k c /\ isUpChain people k l'
  end.

(** The ids of the persons of the list. *)
Definition idSet (people : list Person) : gset string :=
  list_to_set (map id people).

(** The children that the children map of [wouldCreateCycle] holds under the
    key [k]: the id of each person once per occurrence of [k] among its
    [parentIds]. *)
Definition childrenOf (people : list Person) (k : string) : list string :=
  flat_map (fun p => replicate (count_occ String.string_dec (parentIds p) k) (id p)) people.

(** The parent entries of the list whose target is not visited yet. *)
Definition openEntries (people : list Person) (visited : gset string) : nat :=
  length (List.filter (fun e => bool_decide (e ∉ visited)) (flat_map parentIds people)).

(** The parent entries stored at persons that are not visited yet. *)
Definition openParents (people : list Person) (visited : gset string) : nat :=
  sum_list (map (fun p => if bool_decide (id p ∈ visited) then 0
                          else length (parentIds p)) people).

(** [x] leads up to [childId] through parents that the map of the persons
    resolves, along ids outside [visited]. *)
Inductive reachUp (people : list Person) (childId : string) (visited : gset string)
    : string -> Prop :=
  | reachUp_here : childId ∉ visited -> reachUp people childId visited childId
  | reachUp_step (x y : string) (p : Person) :
      x ∉ visited -> peopleMapOf people !! x = Some p -> y ∈ parentIds p ->
      reachUp people childId visited y -> reachUp people childId visited x.

(** What every turn of the loop of [calculateGenerations] keeps: a recorded
    generation is exceeded by the generation of each child, recorded or
    queued; every root is recorded or queued; a recorded or queued generation
    is the length of a chain from a root. *)
Definition generationsInv (people : list Person) (queue : list (string * nat))
    (generations : gmap string nat) : Prop :=
  (forall k g c, generations !! k = Some g -> isChild people k c ->
     (exists g', generations !! c = Some g' /\ g < g') \/
     (exists g', (c, g') ∈ queue /\ g < g')) /\
  (forall r, r ∈ people -> parentIds r = [] ->
     is_Some (generations !! id r) \/ exists g, (id r, g) ∈ queue) /\
  (forall c g, (c, g) ∈ queue -> chainDepth people c g) /\
  (forall c g, generations !! c = Some g -> chainDepth people c g).

(** The measure of the queue of [calculateGenerations] under a numbering
    [rank] of the ids: an entry weighs a power of the base, the higher the
    further its rank is below the largest rank. *)
Definition rankBound (people : list Person) (rank : string -> nat) : nat :=
  max_list (map rank (map id people)).
Definition weightBase (people : list Person) : nat := S (length people).
Definition queueWeight (people : list Person) (rank : string -> nat)
    (queue : list (string * nat)) : nat :=
  sum_list (map (fun e => weightBase people ^ (rankBound people rank - rank (fst e)))
              queue).

(** The row of an id: the generation that the map records, 0 without one. *)
Definition rowOf (generations : gmap string nat) (i : string) : nat :=
  default 0 (generations !! i).

(** [st'] comes from [st] by placing persons: each step is a [setPosition] of
    an id at a position on the row of the id. *)
Inductive placedFrom (generations : gmap string nat) (st : Placement)
    : Placement -> Prop :=
  | placed_same : placedFrom generations st st
  | placed_more (st' : Placement) (i : string) (pos : Position) :
      placedFrom generations st st' ->
      y pos = yOfGeneration (rowOf generations i) ->
      placedFrom generations st (setPosition st' i pos).

(** What the placement keeps over the store [s] of the call: the store grows
    at its end, and every recorded position is a new object on the row of its
    id. *)
Definition placementInv (generations : gmap string nat) (s : Store)
    (st : Placement) : Prop :=
  (exists ext, store st = s ++ ext) /\
  forall i r, nodePositions st !! i = Some r ->
    length s <= r /\
    exists pos, store st !! r = Some pos /\
                y pos = yOfGeneration (rowOf generations i).

(** ** Example inputs *)

(** A grandfather, his child and his granddaughter. *)
Definition chainP1 : Person :=
  withGender Male (withChildren ["P2"] (createEmptyPerson "P1")).
Definition chainP2 : Person :=
  withChildren ["P3"] (withParents ["P1"] (createEmptyPerson "P2")).
Definition chainP3 : Person :=
  withGender Female (withParents ["P2"] (createEmptyPerson "P3")).

(** The generation of the three-person chain is its numbering. *)
Definition chainRank (i : string) : nat :=
  if String.eqb i "P1" then 0 else if String.eqb i "P2" then 1 else 2.

(** Two persons without any relation. *)
Definition loneA : Person := createEmptyPerson "A".
Definition loneB : Person := createEmptyPerson "B".

(** A line of five generations, youngest first. *)
Definition lineA : Person := withParents ["M1"] (createEmptyPerson "A").
Definition lineM1 : Person :=
  withChildren ["A"] (withParents ["M2"] (createEmptyPerson "M1")).
Definition lineM2 : Person :=
  withChildren ["M1"] (withParents ["M3"] (createEmptyPerson "M2")).
Definition lineM3 : Person :=
  withChildren ["M2"] (withParents ["X"] (createEmptyPerson "M3")).
Definition lineX : Person := withChildren ["M3"] (createEmptyPerson "X").

(** A married couple without parents. *)
Definition coupleP1 : Person := withSpouses ["P2"] (createEmptyPerson "P1").
Definition coupleP2 : Person := withSpouses ["P1"] (createEmptyPerson "P2").

(** A root, its child, and the child's spouse, who has no parents. *)
Definition inLawA : Person := withChildren ["B"] (createEmptyPerson "A").
Definition inLawB : Person :=
  withSpouses ["C"] (withParents ["A"] (createEmptyPerson "B")).
Definition inLawC : Person := withSpouses ["B"] (createEmptyPerson "C").

(** A person whose only parent is not in the list, and its child. *)
Definition danglingQ : Person := withParents ["ghost"] (createEmptyPerson "q").
Definition danglingP : Person := withParents ["q"] (createEmptyPerson "p").

(** [A] is married to [B] and to [C]; [K1] is the child of [A] and [B], [K2]
    the child of [A] and [C]. *)
Definition famA : Person :=
  withSpouses ["B"; "C"] (withChildren ["K1"; "K2"] (createEmptyPerson "A")).
Definition famB : Person :=
  withSpouses ["A"] (withChildren ["K1"] (createEmptyPerson "B")).
Definition famC : Person :=
  withSpouses ["A"] (withChildren ["K2"] (createEmptyPerson "C")).
Definition famK1 : Person := withParents ["A"; "B"] (createEmptyPerson "K1").
Definition famK2 : Person := withParents ["A"; "C"] (createEmptyPerson "K2").

(** A person that was dragged to the position (50, 70). *)
Definition draggedPerson : Person := withPosition (Some 0) (createEmptyPerson "a").
Definition draggedStore : Store := [mkPosition 50 70].

(** An imported list in which the id [a] occurs twice ([validateFamilyTreeJson]
    does not compare ids): a child of [b], then [b], then a second person with
    the id [a] and no parents. *)
Definition twiceChild : Person := withParents ["b"] (createEmptyPerson "a").
Definition twiceParent : Person := createEmptyPerson "b".
Definition twiceAgain : Person := createEmptyPerson "a".
Definition twiceList : list Person := [twiceChild; twiceParent; twiceAgain].

(** A root, its child [a], and [b]: [a] and [b] are each a parent of the
    other. *)
Definition lassoR : Person := createEmptyPerson "r".
Definition lassoA : Person := withParents ["r"; "b"] (createEmptyPerson "a").
Definition lassoB : Person := withParents ["a"] (createEmptyPerson "b").

(** * Properties *)

(** ** Array helpers *)

Lemma includes_true (l : list string) (s : string) :
  includes l s = true <-> s ∈ l.
Proof.
  unfold includes. rewrite existsb_exists. split.
  - intros (y & Hin & Heq). apply String.eqb_eq in Heq. subst y.
    by apply list_elem_of_In.
  - intros Hin. exists s. split; [by apply list_elem_of_In | apply String.eqb_refl].
Qed.

Lemma includes_false (l : list string) (s : string) :
  includes l s = false <-> s ∉ l.
Proof.
  rewrite <- includes_true. destruct (includes l s); split; congruence.
Qed.

Lemma findPerson_Some (people : list Person) (i : string) (p : Person) :
  findPerson people i = Some p -> p ∈ people /\ id p = i.
Proof.
  unfold findPerson. intros H. apply find_some in H as [Hin Heq].
  split; [by apply list_elem_of_In | by apply String.eqb_eq].
Qed.

Lemma findPerson_None (people : list Person) (i : string) :
  findPerson people i = None -> forall p, p ∈ people -> id p <> i.
Proof.
  unfold findPerson. intros H p Hin Heq.
  apply list_elem_of_In in Hin. apply (find_none _ _ H p) in Hin.
  by apply String.eqb_neq in Hin.
Qed.

Lemma findPerson_present (people : list Person) (p : Person) :
  p ∈ people -> is_Some (findPerson people (id p)).
Proof.
  intros Hin. destruct (findPerson people (id p)) eqn:E; [eauto|].
  by destruct (findPerson_None _ _ E p Hin).
Qed.

(** With pairwise distinct ids, [find] by id answers the person itself. *)
Lemma findPerson_unique (people : list Person) (p : Person) :
  NoDup (map id people) -> p ∈ people -> findPerson people (id p) = Some p.
Proof.
  unfold findPerson. induction people as [|q people IH]; intros Hnd Hin.
  - by apply elem_of_nil in Hin.
  - simpl in *. apply NoDup_cons in Hnd as [Hq Hnd].
    apply elem_of_cons in Hin as [->|Hin].
    + by rewrite String.eqb_refl.
    + destruct (String.eqb_spec (id q) (id p)) as [Heq|Hne]; [|by apply IH].
      exfalso. apply Hq. rewrite Heq. apply list_elem_of_fmap. eauto.
Qed.

Lemma firstSome_Some {A B : Type} (f : A -> option B) (l : list A) (b : B) :
  firstSome f l = Some b -> exists a, a ∈ l /\ f a = Some b.
Proof.
  induction l as [|a l IH]; simpl; [done|].
  destruct (f a) eqn:E.
  - intros [= ->]. exists a. split; [left | done].
  - intros H. destruct (IH H) as (a' & Hin & Hf). exists a'. split; [by right | done].
Qed.

(** ** The path search *)

Lemma size_list_to_set_le (l : list string) :
  size (list_to_set l : gset string) <= length l.
Proof.
  induction l as [|a l IH].
  - by rewrite list_to_set_nil, size_empty.
  - rewrite list_to_set_cons, size_union_alt, size_singleton. cbn [length].
    assert (size ((list_to_set l : gset string) ∖ {[a]})
            <= size (list_to_set l : gset string)).
    { apply subseteq_size. set_solver. }
    lia.
Qed.

Lemma idSet_size (people : list Person) : size (idSet people) <= length people.
Proof.
  unfold idSet. etrans; [apply size_list_to_set_le|]. by rewrite length_map.
Qed.

Lemma firstPath_Ret (search : string -> fuelled (option (list string)))
    (l : list string) :
  (forall n, n ∈ l -> search n <> NoFuel) -> firstPath search l <> NoFuel.
Proof.
  induction l as [|n l IH]; intros H; simpl; [done|].
  destruct (search n) as [[r|]|] eqn:E; [done| |].
  - apply IH. intros m Hm. apply H. by right.
  - exfalso. apply (H n); [left | done].
Qed.

Lemma firstPath_Some (search : string -> fuelled (option (list string)))
    (l : list string) (r : list string) :
  firstPath search l = Ret (Some r) ->
  exists n, n ∈ l /\ search n = Ret (Some r).
Proof.
  induction l as [|n l IH]; simpl; [done|].
  destruct (search n) as [[r'|]|] eqn:E; [| |done].
  - intros [= ->]. exists n. split; [left | done].
  - intros H. destruct (IH H) as (m & Hm & Hs). exists m. split; [by right | done].
Qed.

(** The recursion of [findPath] ends within the fuel once the fuel exceeds the
    number of ids of the list that are not yet visited. *)
Lemma findPath_fuel_enough (people : list Person) (toId : string) (fuel : nat) :
  forall (fromId : string) (visited : gset string) (path0 : list string),
    size (idSet people ∖ visited) < fuel ->
    findPath fuel people fromId toId visited path0 <> NoFuel.
Proof.
  induction fuel as [|fuel IH]; intros fromId visited path0 Hsize; [lia|].
  simpl. destruct (String.eqb fromId toId); [done|].
  case_bool_decide as Hvis; [done|].
  destruct (findPerson people fromId) as [current|] eqn:Hfind; [|done].
  apply findPerson_Some in Hfind as [Hin Hid].
  assert (Hsmall : size (idSet people ∖ ({[fromId]} ∪ visited)) < fuel).
  { assert (idSet people ∖ ({[fromId]} ∪ visited) ⊂ idSet people ∖ visited) as Hsub.
    { assert (fromId ∈ idSet people).
      { unfold idSet. rewrite elem_of_list_to_set, list_elem_of_fmap. eauto. }
      set_solver. }
    apply subset_size in Hsub. lia. }
  assert (Hs : forall l, firstPath (fun n => findPath fuel people n toId
                ({[fromId]} ∪ visited) (path0 ++ [fromId])) l <> NoFuel).
  { intros l. apply firstPath_Ret. intros n _. by apply IH. }
  destruct (firstPath _ (parentIds current)) as [[r|]|] eqn:E1; [done| |by destruct (Hs _ E1)].
  destruct (firstPath _ (childIds current)) as [[r|]|] eqn:E2; [done| |by destruct (Hs _ E2)].
  apply Hs.
Qed.

Lemma findPath_top_returns (people : list Person) (fromId toId : string) :
  findPath (S (length people)) people fromId toId ∅ [] <> NoFuel.
Proof.
  apply findPath_fuel_enough.
  assert (size (idSet people ∖ ∅) <= size (idSet people)) by (apply subseteq_size; set_solver).
  pose proof (idSet_size people). lia.
Qed.

(** What [findPath] answers extends the path it was given by a chain of
    unvisited, pairwise distinct ids from [fromId] to [toId]. *)
Lemma findPath_sound (people : list Person) (toId : string) (fuel : nat) :
  forall (fromId : string) (visited : gset string) (path0 r : list string),
    toId ∉ visited ->
    findPath fuel people fromId toId visited path0 = Ret (Some r) ->
    exists s, r = path0 ++ s /\ head s = Some fromId /\ last s = Some toId /\
              isChain people s /\ NoDup s /\ (forall i, i ∈ s -> i ∉ visited).
Proof.
  induction fuel as [|fuel IH]; intros fromId visited path0 r Hto; [done|].
  simpl. destruct (String.eqb_spec fromId toId) as [->|Hne].
  { intros [= <-]. exists [toId]. split_and!; [done..|apply NoDup_singleton|].
    by intros i ->%list_elem_of_singleton. }
  case_bool_decide as Hvis; [done|].
  destruct (findPerson people fromId) as [current|] eqn:Hfind; [|done].
  set (search := fun n => findPath fuel people n toId ({[fromId]} ∪ visited)
                            (path0 ++ [fromId])).
  intros Hres.
  assert (Hn : exists n, (n ∈ parentIds current \/ n ∈ childIds current \/
                          n ∈ spouseIds current) /\ search n = Ret (Some r)).
  { destruct (firstPath search (parentIds current)) as [[r1|]|] eqn:E1; [| |done].
    { injection Hres as ->. apply firstPath_Some in E1 as (n & ? & ?). eauto. }
    destruct (firstPath search (childIds current)) as [[r2|]|] eqn:E2; [| |done].
    { injection Hres as ->. apply firstPath_Some in E2 as (n & ? & ?). eauto. }
    apply firstPath_Some in Hres as (n & ? & ?). eauto 6. }
  destruct Hn as (n & Hadj & Hs). unfold search in Hs.
  apply IH in Hs as (s & -> & Hhd & Hlast & Hch & Hnd & Hfresh); [|set_solver].
  exists (fromId :: s). destruct s as [|n' s]; [done|]. injection Hhd as ->.
  rewrite <- app_assoc. split_and!; [done..| | |].
  - split; [by exists current | done].
  - apply NoDup_cons. split; [|done]. intros Hin. apply Hfresh in Hin. set_solver.
  - intros i [->|Hi]%elem_of_cons; [done|]. apply Hfresh in Hi. set_solver.
Qed.

(** ** The classification *)

Lemma byGender_path (g : Gender) (m f o : string * string) (l : list string) :
  path (byGender g m f o l) = l.
Proof. by destruct g. Qed.

(** Takes a goal [e = Some r -> path r = l] apart along the branches of [e]. *)
Ltac path_cases :=
  repeat match goal with
    | |- Some _ = Some _ -> _ => intros [= <-]
    | |- None = Some _ -> _ => discriminate
    | |- path (byGender _ _ _ _ _) = _ => apply byGender_path
    | |- path (mkResult _ _ _) = _ => reflexivity
    | |- firstSome _ _ = Some _ -> _ =>
        let a := fresh "a" in
        let H := fresh "H" in
        intros H; apply firstSome_Some in H as (a & _ & H); revert H; cbv beta
    | |- (match firstSome ?f ?l0 with _ => _ end) = Some _ -> _ =>
        let E := fresh "E" in
        destruct (firstSome f l0) eqn:E; [intros [= <-]; revert E | clear E]
    | |- (match ?c with _ => _ end) = Some _ -> _ => destruct c
    end.

(** Every named rule answers with the path that [findPath] found. *)
Lemma namedRelationship_path (people : list Person) (person1 person2 : Person)
    (l : list string) (r : RelationshipResult) :
  namedRelationship people person1 person2 l = Some r -> path r = l.
Proof. unfold namedRelationship. cbv zeta. path_cases. Qed.

Lemma findRelationship_cases (people : list Person) (A B : Person) :
  id A <> id B ->
  (findPath (S (length people)) people (id A) (id B) ∅ [] = Ret None /\
   findRelationship people A B
     = Ret (mkResult "No direct relationship found" "நேரடி உறவு இல்லை" [])) \/
  (exists l r, findPath (S (length people)) people (id A) (id B) ∅ [] = Ret (Some l) /\
     findRelationship people A B = Ret r /\ path r = l /\
     (namedRelationship people A B l = None ->
      r = fallbackRelationship people A B l)).
Proof.
  intros Hne. unfold findRelationship, findRelationshipFuel.
  apply String.eqb_neq in Hne. rewrite Hne.
  destruct (findPath _ _ _ _ _ _) as [[l|]|] eqn:E.
  - right. exists l.
    destruct (namedRelationship people A B l) as [r|] eqn:En.
    + exists r. split_and!; [done..|by apply namedRelationship_path in En|done].
    + eexists. split_and!; [done..| |done].
      unfold fallbackRelationship. by repeat case_match.
  - by left.
  - by destruct (findPath_top_returns _ _ _ E).
Qed.

Lemma isChain_lookup (people : list Person) (l : list string) :
  isChain people l ->
  forall i a b, l !! i = Some a -> l !! S i = Some b -> adjacent people a b.
Proof.
  induction l as [|a0 l IH]; intros Hch i a b Ha Hb; [done|].
  destruct l as [|b0 l]; [done|]. destruct Hch as [Hadj Hch].
  destruct i as [|i].
  - simpl in *. by simplify_eq.
  - by apply (IH Hch i).
Qed.

Lemma isChain_present (people : list Person) (l : list string) :
  isChain people l ->
  forall i a, l !! i = Some a -> S i < length l ->
    exists p, p ∈ people /\ id p = a.
Proof.
  intros Hch i a Ha Hlen.
  destruct (lookup_lt_is_Some_2 l (S i) Hlen) as [b Hb].
  destruct (isChain_lookup _ _ Hch i a b Ha Hb) as (p & Hp & _).
  apply findPerson_Some in Hp. eauto.
Qed.

Lemma findPath_top_sound (people : list Person) (fromId toId : string)
    (fuel : nat) (l : list string) :
  findPath fuel people fromId toId ∅ [] = Ret (Some l) ->
  head l = Some fromId /\ last l = Some toId /\ isChain people l /\ NoDup l.
Proof.
  intros H. apply findPath_sound in H as (s & -> & ? & ? & ? & ? & _); [|set_solver].
  done.
Qed.

(** C10. Whenever [findRelationship people A B] with [A] and [B] of different
    ids answers a non-empty path, the path starts at [A]'s id, ends at [B]'s
    id, holds no id twice, every element but the last is the id of a person of
    the list, and every consecutive pair [(a, b)] has [b] in the [parentIds],
    [childIds] or [spouseIds] stored at [a]. The call always answers. *)
Theorem findRelationship_path_simple (people : list Person) (A B : Person) :
  id A <> id B ->
  exists r, findRelationship people A B = Ret r /\
    (path r <> [] ->
     head (path r) = Some (id A) /\ last (path r) = Some (id B) /\
     NoDup (path r) /\
     (forall i a, path r !! i = Some a -> S i < length (path r) ->
        exists p, p ∈ people /\ id p = a) /\
     (forall i a b, path r !! i = Some a -> path r !! S i = Some b ->
        exists p, findPerson people a = Some p /\
          (b ∈ parentIds p \/ b ∈ childIds p \/ b ∈ spouseIds p))).
Proof.
  intros Hne.
  destruct (findRelationship_cases people A B Hne) as [[_ ->]|(l & r & Hp & -> & <- & _)].
  - eexists. split; [done|]. simpl. done.
  - exists r. split; [done|]. intros _.
    apply findPath_top_sound in Hp as (? & ? & Hch & ?).
    split_and!; [done..| |].
    + by apply isChain_present.
    + by apply isChain_lookup.
Qed.

(** C9. For two persons of different ids with no path of stored parent, child
    or spouse edges from the first to the second, [findRelationship] answers
    exactly the result labelled "No direct relationship found" with the empty
    path. *)
Theorem findRelationship_disconnected (people : list Person) (A B : Person) :
  id A <> id B ->
  ~ connected people (id A) (id B) ->
  findRelationship people A B
  = Ret (mkResult "No direct relationship found" "நேரடி உறவு இல்லை" []).
Proof.
  intros Hne Hdis.
  destruct (findRelationship_cases people A B Hne) as [[_ ->]|(l & r & Hp & _)]; [done|].
  exfalso. apply Hdis. exists l.
  by apply findPath_top_sound in Hp as (? & ? & ? & _).
Qed.

(** *** The fallback against the specification's wording *)

Lemma bool_decide_includes (l : list string) (s : string) :
  bool_decide (s ∈ l) = includes l s.
Proof.
  destruct (includes l s) eqn:E.
  - apply bool_decide_eq_true. by apply includes_true.
  - apply bool_decide_eq_false. by apply includes_false.
Qed.

Lemma generationHop_spec (people : list Person) (a b : string) :
  is_Some (findPerson people b) -> generationHop people a b = specHop people a b.
Proof.
  intros [q Hq]. unfold generationHop, specHop. rewrite Hq.
  apply findPerson_Some in Hq as [_ ->].
  destruct (findPerson people a); [|done]. by rewrite !bool_decide_includes.
Qed.

Lemma getGenerationDiffLoop_spec (people : list Person) (l : list string) :
  (forall i, i ∈ l -> is_Some (findPerson people i)) ->
  forall acc, getGenerationDiffLoop people l acc
              = (acc + specGenerationDiff people l)%Z.
Proof.
  induction l as [|a l IH]; intros Hall acc; [simpl; lia|].
  destruct l as [|b l]; [simpl; lia|].
  change (getGenerationDiffLoop people (a :: b :: l) acc)
    with (getGenerationDiffLoop people (b :: l) (acc + generationHop people a b)%Z).
  change (specGenerationDiff people (a :: b :: l))
    with (specHop people a b + specGenerationDiff people (b :: l))%Z.
  rewrite IH by (intros i Hi; apply Hall; by right).
  rewrite generationHop_spec by (apply Hall; right; left). lia.
Qed.

Lemma goesThoughSpouse_spec (people : list Person) (l : list string) :
  (forall i, i ∈ l -> is_Some (findPerson people i)) ->
  goesThoughSpouse people l = specThroughSpouse people l.
Proof.
  induction l as [|a l IH]; intros Hall; [done|].
  destruct l as [|b l]; [done|].
  change (specThroughSpouse people (a :: b :: l))
    with (specSpousalHop people a b || specThroughSpouse people (b :: l)).
  change (goesThoughSpouse people (a :: b :: l))
    with (match findPerson people a, findPerson people b with
          | Some current, Some next =>
              if includes (spouseIds current) (id next) then true
              else goesThoughSpouse people (b :: l)
          | _, _ => goesThoughSpouse people (b :: l)
          end).
  unfold specSpousalHop.
  destruct (Hall a) as [p Hp]; [left|]. destruct (Hall b) as [q Hq]; [right; left|].
  rewrite Hp, Hq. pose proof (findPerson_Some _ _ _ Hq) as [_ ->].
  rewrite bool_decide_includes.
  rewrite IH by (intros i Hi; apply Hall; by right).
  by destruct (includes (spouseIds p) b).
Qed.

(** Every id of a chain but the last is the id of a person of the list. *)
Lemma isChain_all_present (people : list Person) (l : list string) (b : string) :
  isChain people l -> last l = Some b -> is_Some (findPerson people b) ->
  forall i, i ∈ l -> is_Some (findPerson people i).
Proof.
  induction l as [|a l IH]; intros Hch Hlast Hb i Hi; [by apply elem_of_nil in Hi|].
  destruct l as [|a' l].
  - apply list_elem_of_singleton in Hi as ->. simpl in Hlast. by simplify_eq.
  - destruct Hch as [(p & Hp & _) Hch].
    apply elem_of_cons in Hi as [->|Hi]; [eauto|]. by apply IH.
Qed.

Lemma fallbackRelationship_spec (people : list Person) (A B : Person)
    (l : list string) :
  (forall i, i ∈ l -> is_Some (findPerson people i)) ->
  english (fallbackRelationship people A B l) = specFallbackLabel people l.
Proof.
  intros Hall. unfold fallbackRelationship, specFallbackLabel, getGenerationDiff.
  rewrite getGenerationDiffLoop_spec, goesThoughSpouse_spec by done.
  rewrite Z.add_0_l. set (d := specGenerationDiff people l).
  destruct (Z.ltb_spec d (-2)) as [Hlt|Hge].
  { rewrite bool_decide_eq_true_2 by lia. by rewrite bool_decide_eq_true_2 by lia. }
  destruct (Z.ltb_spec 2 d) as [Hgt|Hle].
  { rewrite bool_decide_eq_true_2 by lia. rewrite bool_decide_eq_false_2 by lia.
    simpl. by rewrite Z.abs_eq by lia. }
  rewrite bool_decide_eq_false_2 by lia. by destruct (specThroughSpouse people l).
Qed.

(** C8, amended. When [findPath] finds a path [l] between two persons of
    different ids, the second one is a person of the list and no named rule
    answers, the label is the one of the specification's fallback rule on
    [l]: the signed sum of -1 per parent-hop, +1 per child-hop and 0 per
    other hop decides between "Ancestor (N generations)" (sum below -2),
    "Descendant (N generations)" (sum above 2), "Relative by marriage" (a
    spousal hop on the path) and "Relative"; the result carries [l]. *)
Theorem findRelationship_fallback (people : list Person) (A B : Person)
    (l : list string) :
  id A <> id B ->
  (exists q, q ∈ people /\ id q = id B) ->
  findPath (S (length people)) people (id A) (id B) ∅ [] = Ret (Some l) ->
  namedRelationship people A B l = None ->
  exists r, findRelationship people A B = Ret r /\
            english r = specFallbackLabel people l /\ path r = l.
Proof.
  intros Hne (q & Hq & Hid) Hp Hnone.
  destruct (findRelationship_cases people A B Hne)
    as [[Hp' _]|(l' & r & Hp' & Hr & Hpath & Hfb)]; [congruence|].
  assert (l' = l) as -> by congruence.
  exists r. split_and!; [done| |done].
  rewrite (Hfb Hnone). apply fallbackRelationship_spec.
  apply findPath_top_sound in Hp as (_ & Hlast & Hch & _).
  apply (isChain_all_present _ _ (id B)); [done..|].
  rewrite <- Hid. by apply findPerson_present.
Qed.

(** *** The three-person chain *)

Lemma findPath_unfold (fuel : nat) (people : list Person) (fromId toId : string)
    (visited : gset string) (path0 : list string) :
  findPath (S fuel) people fromId toId visited path0 =
      if String.eqb fromId toId then Ret (Some (path0 ++ [fromId]))
      else if bool_decide (fromId ∈ visited) then Ret None
      else
        match findPerson people fromId with
        | None => Ret None
        | Some current =>
            let search := fun n => findPath fuel people n toId ({[fromId]} ∪ visited)
                                     (path0 ++ [fromId]) in
            match firstPath search (parentIds current) with
            | Ret None =>
                match firstPath search (childIds current) with
                | Ret None => firstPath search (spouseIds current)
                | r => r
                end
            | r => r
            end
        end.
Proof. reflexivity. Qed.

(** C2, amended. For three persons of pairwise different ids, [P1] the only
    parent of [P2] and [P2] the only parent of [P3], with the [childIds]
    mirroring the [parentIds] and no other edge, [findRelationship people P1 P3]
    answers the path [[P1; P2; P3]] and names what [P3] is to [P1]:
    "Grandson", "Granddaughter" or "Grandchild" by the gender of [P3]. *)
Theorem findRelationship_grandchild (people : list Person) (P1 P2 P3 : Person) :
  people ≡ₚ [P1; P2; P3] ->
  id P1 <> id P2 -> id P2 <> id P3 -> id P1 <> id P3 ->
  parentIds P1 = [] -> childIds P1 = [id P2] -> spouseIds P1 = [] ->
  parentIds P2 = [id P1] -> childIds P2 = [id P3] -> spouseIds P2 = [] ->
  parentIds P3 = [id P2] -> childIds P3 = [] -> spouseIds P3 = [] ->
  exists r, findRelationship people P1 P3 = Ret r /\
    path r = [id P1; id P2; id P3] /\
    english r = match gender P3 with
                | Male => "Grandson"
                | Female => "Granddaughter"
                | _ => "Grandchild"
                end.
Proof.
  intros Hperm H12 H23 H13 Hp1 Hc1 Hs1 Hp2 Hc2 Hs2 Hp3 Hc3 Hs3.
  assert (Hnd : NoDup (map id people)).
  { rewrite Hperm. simpl. repeat (apply NoDup_cons; split); [set_solver..|apply NoDup_nil_2]. }
  assert (Hf1 : findPerson people (id P1) = Some P1).
  { apply findPerson_unique; [done|]. rewrite Hperm. set_solver. }
  assert (Hf2 : findPerson people (id P2) = Some P2).
  { apply findPerson_unique; [done|]. rewrite Hperm. set_solver. }
  assert (Hf3 : findPerson people (id P3) = Some P3).
  { apply findPerson_unique; [done|]. rewrite Hperm. set_solver. }
  assert (Hlen : length people = 3) by (by rewrite Hperm).
  assert (Hpath : findPath (S (length people)) people (id P1) (id P3) ∅ []
                  = Ret (Some [id P1; id P2; id P3])).
  { rewrite Hlen. rewrite findPath_unfold.
    rewrite (proj2 (String.eqb_neq _ _) H13).
    rewrite bool_decide_eq_false_2 by set_solver.
    rewrite Hf1. cbv zeta. rewrite Hp1, Hc1. cbn [firstPath].
    rewrite findPath_unfold.
    rewrite (proj2 (String.eqb_neq _ _) H23).
    rewrite bool_decide_eq_false_2 by set_solver.
    rewrite Hf2. cbv zeta. rewrite Hp2, Hc2. cbn [firstPath].
    rewrite findPath_unfold.
    rewrite (proj2 (String.eqb_neq _ _) H13).
    rewrite bool_decide_eq_true_2 by set_solver.
    rewrite findPath_unfold. rewrite String.eqb_refl. done. }
  unfold findRelationship, findRelationshipFuel.
  rewrite (proj2 (String.eqb_neq _ _) H13), Hpath.
  unfold namedRelationship. cbv zeta.
  rewrite Hs1, Hp1, Hc1. cbn [includes existsb orb List.filter length Nat.eqb negb firstSome].
  assert (String.eqb (id P3) (id P2) = false) as -> by (apply String.eqb_neq; congruence).
  cbn [orb]. rewrite Hf2, Hc2. cbn [includes existsb]. rewrite String.eqb_refl. cbn [orb].
  eexists. split; [done|]. by destruct (gender P3).
Qed.

Lemma findRelationship_grandchild_witness :
  exists r, findRelationship [chainP1; chainP2; chainP3] chainP1 chainP3 = Ret r /\
    path r = ["P1"; "P2"; "P3"] /\ english r = "Granddaughter".
Proof.
  apply (findRelationship_grandchild [chainP1; chainP2; chainP3] chainP1 chainP2 chainP3);
    done.
Defined.

(** C2 as stated fails: asked about a grandfather and his granddaughter, the
    function does not answer a grandparent label. *)
Lemma findRelationship_grandparent_counterexample :
  ~ (exists r, findRelationship [chainP1; chainP2; chainP3] chainP1 chainP3 = Ret r /\
       (english r = "Grandparent" \/ english r = "Grandfather" \/
        english r = "Grandmother")).
Proof.
  intros (r & Hr & H). vm_compute in Hr. injection Hr as <-.
  simpl in H. destruct H as [H|[H|H]]; discriminate H.
Qed.

(** *** Witnesses and the absent second person *)

Lemma findRelationship_path_simple_witness :
  exists r, findRelationship [chainP1; chainP2; chainP3] chainP1 chainP3 = Ret r /\
    (path r <> [] ->
     head (path r) = Some "P1" /\ last (path r) = Some "P3" /\
     NoDup (path r) /\
     (forall i a, path r !! i = Some a -> S i < length (path r) ->
        exists p, p ∈ [chainP1; chainP2; chainP3] /\ id p = a) /\
     (forall i a b, path r !! i = Some a -> path r !! S i = Some b ->
        exists p, findPerson [chainP1; chainP2; chainP3] a = Some p /\
          (b ∈ parentIds p \/ b ∈ childIds p \/ b ∈ spouseIds p))).
Proof.
  apply (findRelationship_path_simple [chainP1; chainP2; chainP3] chainP1 chainP3).
  done.
Defined.

Lemma lone_not_connected : ~ connected [loneA; loneB] "A" "B".
Proof.
  intros (l & Hh & Hl & Hch).
  destruct l as [|a [|b l]]; simpl in *; simplify_eq.
  destruct Hch as [(p & Hp & Hadj) _]. vm_compute in Hp. injection Hp as <-.
  simpl in Hadj. destruct Hadj as [H|[H|H]]; by apply elem_of_nil in H.
Qed.

Lemma findRelationship_disconnected_witness :
  findRelationship [loneA; loneB] loneA loneB
  = Ret (mkResult "No direct relationship found" "நேரடி உறவு இல்லை" []).
Proof.
  apply (findRelationship_disconnected [loneA; loneB] loneA loneB);
    [done | exact lone_not_connected].
Defined.

Lemma findRelationship_fallback_witness :
  exists r, findRelationship [lineA; lineM1; lineM2; lineM3; lineX] lineA lineX = Ret r /\
    english r = specFallbackLabel [lineA; lineM1; lineM2; lineM3; lineX]
                  ["A"; "M1"; "M2"; "M3"; "X"] /\
    path r = ["A"; "M1"; "M2"; "M3"; "X"].
Proof.
  apply (findRelationship_fallback [lineA; lineM1; lineM2; lineM3; lineX] lineA lineX).
  - done.
  - exists lineX. split; [set_solver | done].
  - by vm_compute.
  - by vm_compute.
Defined.

(** C8 as stated fails when the second person is not in the list: the hop to
    it is skipped, so four parent-hops are counted as three. *)
Lemma findRelationship_fallback_counterexample :
  findPath 5 [lineA; lineM1; lineM2; lineM3] "A" "X" ∅ []
    = Ret (Some ["A"; "M1"; "M2"; "M3"; "X"]) /\
  namedRelationship [lineA; lineM1; lineM2; lineM3] lineA lineX
    ["A"; "M1"; "M2"; "M3"; "X"] = None /\
  specGenerationDiff [lineA; lineM1; lineM2; lineM3]
    ["A"; "M1"; "M2"; "M3"; "X"] = (-4)%Z /\
  specFallbackLabel [lineA; lineM1; lineM2; lineM3]
    ["A"; "M1"; "M2"; "M3"; "X"] = "Ancestor (4 generations)" /\
  exists r, findRelationship [lineA; lineM1; lineM2; lineM3] lineA lineX = Ret r /\
            english r = "Ancestor (3 generations)".
Proof.
  split_and!; [by vm_compute..|]. eexists. split; [by vm_compute | done].
Qed.

(** ** The cycle guard *)

(** *** The maps *)

Lemma peopleMap_fold_lookup (people : list Person) (m : gmap string Person)
    (k : string) (p : Person) :
  fold_left (fun m p => <[id p := p]> m) people m !! k = Some p ->
  (p ∈ people /\ id p = k) \/ m !! k = Some p.
Proof.
  revert m. induction people as [|q people IH]; intros m; simpl; [by right|].
  intros H. destruct (IH _ H) as [[Hin Hid]|Hm].
  - left. split; [by right | done].
  - destruct (decide (id q = k)) as [Heq|Hne].
    + rewrite Heq, lookup_insert_eq in Hm. injection Hm as <-. left. split; [left | done].
    + rewrite lookup_insert_ne in Hm by done. by right.
Qed.

Lemma peopleMapOf_Some (people : list Person) (k : string) (p : Person) :
  peopleMapOf people !! k = Some p -> p ∈ people /\ id p = k.
Proof.
  intros H. by destruct (peopleMap_fold_lookup _ _ _ _ H) as [?|?].
Qed.

Lemma peopleMap_fold_other (people : list Person) (m : gmap string Person)
    (k : string) :
  k ∉ map id people ->
  fold_left (fun m p => <[id p := p]> m) people m !! k = m !! k.
Proof.
  revert m. induction people as [|q people IH]; intros m Hk; simpl; [done|].
  simpl in Hk. apply not_elem_of_cons in Hk as [Hne Hk].
  rewrite IH by done. by rewrite lookup_insert_ne.
Qed.

(** With pairwise distinct ids the map answers each person under its id. *)
Lemma peopleMapOf_unique (people : list Person) (p : Person) :
  NoDup (map id people) -> p ∈ people -> peopleMapOf people !! id p = Some p.
Proof.
  unfold peopleMapOf. generalize (∅ : gmap string Person).
  induction people as [|q people IH]; intros m Hnd Hin; [by apply elem_of_nil in Hin|].
  simpl in *. apply NoDup_cons in Hnd as [Hq Hnd].
  destruct (decide (id q = id p)) as [Heq|Hne].
  - rewrite <- Heq, peopleMap_fold_other, lookup_insert_eq by done.
    apply elem_of_cons in Hin as [->|Hin]; [done|].
    exfalso. apply Hq. rewrite Heq. apply list_elem_of_fmap. eauto.
  - apply elem_of_cons in Hin as [->|Hin]; [done|]. by apply IH.
Qed.

Lemma pushChild_lookup (c : string) (m : gmap string (list string))
    (e k : string) :
  pushChild c m e !! k
  = (fun cs => cs ++ replicate (count_occ String.string_dec [e] k) c) <$> m !! k.
Proof.
  unfold pushChild. simpl. destruct (String.string_dec e k) as [->|Hne].
  - destruct (m !! k) eqn:E; simpl; [by rewrite lookup_insert_eq | by rewrite E].
  - simpl. destruct (m !! e) eqn:E.
    + rewrite lookup_insert_ne by done. destruct (m !! k); simpl; [|done].
      by rewrite app_nil_r.
    + destruct (m !! k); simpl; [|done]. by rewrite app_nil_r.
Qed.

Lemma pushChild_fold_lookup (c : string) (ps : list string)
    (m : gmap string (list string)) (k : string) :
  fold_left (pushChild c) ps m !! k
  = (fun cs => cs ++ replicate (count_occ String.string_dec ps k) c) <$> m !! k.
Proof.
  revert m. induction ps as [|e ps IH]; intros m.
  - simpl. destruct (m !! k); simpl; [|done]. by rewrite app_nil_r.
  - cbn [fold_left]. rewrite IH, pushChild_lookup.
    change (e :: ps) with ([e] ++ ps). rewrite count_occ_app.
    destruct (m !! k); simpl; [|done].
    by rewrite <- app_assoc, <- replicate_add.
Qed.

Lemma children_fold_lookup (people : list Person)
    (m : gmap string (list string)) (k : string) :
  fold_left (fun m person => fold_left (pushChild (id person)) (parentIds person) m)
    people m !! k
  = (fun cs => cs ++ childrenOf people k) <$> m !! k.
Proof.
  revert m. induction people as [|p people IH]; intros m.
  - simpl. destruct (m !! k); simpl; [|done]. by rewrite app_nil_r.
  - cbn [fold_left]. rewrite IH, pushChild_fold_lookup.
    destruct (m !! k); simpl; [|done]. by rewrite <- app_assoc.
Qed.

Lemma emptyChildrenMap_lookup (people : list Person) (k : string) :
  emptyChildrenMap people !! k = if decide (k ∈ map id people) then Some [] else None.
Proof.
  unfold emptyChildrenMap.
  assert (H : forall m : gmap string (list string),
            fold_left (fun m p => <[id p := []]> m) people m !! k
            = if decide (k ∈ map id people) then Some [] else m !! k).
  { induction people as [|p people IH]; intros m.
    - cbn [fold_left]. destruct (decide _) as [Hin|]; [by apply elem_of_nil in Hin | done].
    - cbn [fold_left]. rewrite IH. change (map id (p :: people)) with (id p :: map id people).
      destruct (decide (k ∈ map id people)) as [Hin|Hnin];
        destruct (decide (k ∈ id p :: map id people)) as [Hin'|Hnin']; try done.
      + exfalso. apply Hnin'. by right.
      + apply elem_of_cons in Hin' as [->|?]; [apply lookup_insert_eq | done].
      + apply lookup_insert_ne. intros <-. apply Hnin'. left. }
  by rewrite H.
Qed.

Lemma cycleChildrenMap_lookup (people : list Person) (k : string) :
  cycleChildrenMap people !! k
  = if decide (k ∈ map id people) then Some (childrenOf people k) else None.
Proof.
  unfold cycleChildrenMap. rewrite children_fold_lookup, emptyChildrenMap_lookup.
  by destruct (decide _).
Qed.

Lemma childrenOf_length (people : list Person) (k : string) :
  length (childrenOf people k) = count_occ String.string_dec (flat_map parentIds people) k.
Proof.
  unfold childrenOf. induction people as [|p people IH]; simpl; [done|].
  by rewrite length_app, count_occ_app, length_replicate, IH.
Qed.

(** *** Termination of the two loops *)

Lemma filter_visit (es : list string) (visited : gset string) (k : string) :
  k ∉ visited ->
  length (List.filter (fun e => bool_decide (e ∉ {[k]} ∪ visited)) es)
    + count_occ String.string_dec es k
  = length (List.filter (fun e => bool_decide (e ∉ visited)) es).
Proof.
  intros Hk. induction es as [|e es IH]; [done|]. cbn [List.filter count_occ].
  destruct (String.string_dec e k) as [->|Hne].
  - rewrite (bool_decide_eq_false_2 (k ∉ {[k]} ∪ visited)) by set_solver.
    rewrite (bool_decide_eq_true_2 (k ∉ visited)) by done. simpl. lia.
  - destruct (decide (e ∈ visited)) as [Hin|Hnin].
    + by rewrite !bool_decide_eq_false_2 by set_solver.
    + rewrite !bool_decide_eq_true_2 by set_solver. simpl. lia.
Qed.

Lemma openEntries_visit (people : list Person) (visited : gset string) (k : string) :
  k ∉ visited ->
  openEntries people ({[k]} ∪ visited)
    + count_occ String.string_dec (flat_map parentIds people) k
  = openEntries people visited.
Proof. intros Hk. by apply filter_visit. Qed.

Lemma openEntries_empty (people : list Person) :
  openEntries people ∅ <= parentEntries people.
Proof. unfold openEntries, parentEntries. apply filter_length_le. Qed.

Lemma openParents_mono (people : list Person) (visited : gset string) (k : string) :
  openParents people ({[k]} ∪ visited) <= openParents people visited.
Proof.
  unfold openParents. induction people as [|p people IH]; simpl; [done|].
  repeat case_bool_decide; try lia. set_solver.
Qed.

Lemma openParents_visit (people : list Person) (visited : gset string) (p : Person) :
  p ∈ people -> id p ∉ visited ->
  openParents people ({[id p]} ∪ visited) + length (parentIds p)
  <= openParents people visited.
Proof.
  intros Hin Hp. induction people as [|q people IH]; [by apply elem_of_nil in Hin|].
  unfold openParents in *. simpl.
  apply elem_of_cons in Hin as [<-|Hin].
  - rewrite (bool_decide_eq_true_2 (id p ∈ {[id p]} ∪ visited)) by set_solver.
    rewrite (bool_decide_eq_false_2 (id p ∈ visited)) by done.
    pose proof (openParents_mono people visited (id p)) as Hm.
    unfold openParents in Hm. lia.
  - specialize (IH Hin). repeat case_bool_decide; try lia. set_solver.
Qed.

Lemma openParents_empty (people : list Person) :
  openParents people ∅ = parentEntries people.
Proof.
  unfold openParents, parentEntries. induction people as [|p people IH]; simpl; [done|].
  rewrite length_app, <- IH. by rewrite bool_decide_eq_false_2 by set_solver.
Qed.

Section CycleLoops.
Variable people : list Person.
Variables childId potentialParentId : string.

(** The first loop ends: a turn either drops a visited entry of the queue or
    trades the open entries of a newly visited node for queue entries. *)
Lemma descendantsLoop_returns (fuel : nat) :
  forall (queue : list string) (visited : gset string),
    length queue + openEntries people visited < fuel ->
    descendantsLoop fuel (cycleChildrenMap people) potentialParentId queue visited
    = Ret tt.
Proof.
  induction fuel as [|fuel IH]; intros queue visited Hfuel; [lia|].
  destruct queue as [|currentId queue]; [done|]. simpl in *.
  case_bool_decide as Hvis; [apply IH; lia|].
  apply IH. rewrite length_app.
  pose proof (openEntries_visit people visited currentId Hvis) as Hopen.
  pose proof (filter_length_le
    (fun d => negb (String.eqb d potentialParentId))
    (default [] (cycleChildrenMap people !! currentId))) as Hlen.
  rewrite cycleChildrenMap_lookup in *.
  destruct (decide (currentId ∈ map id people)); simpl in *; [|lia].
  rewrite childrenOf_length in Hlen. lia.
Qed.

(** The second loop ends likewise. *)
Lemma ancestorsLoop_returns (fuel : nat) :
  forall (queue : list string) (visited : gset string),
    length queue + openParents people visited < fuel ->
    ancestorsLoop fuel (peopleMapOf people) childId queue visited <> NoFuel.
Proof.
  induction fuel as [|fuel IH]; intros queue visited Hfuel; [lia|].
  destruct queue as [|currentId queue]; [done|]. simpl in *.
  case_bool_decide as Hvis; [apply IH; lia|].
  destruct (String.eqb currentId childId); [done|].
  apply IH. rewrite length_app.
  destruct (peopleMapOf people !! currentId) as [person|] eqn:E.
  - apply peopleMapOf_Some in E as [Hin <-].
    pose proof (openParents_visit people visited person Hin Hvis). lia.
  - pose proof (openParents_mono people visited currentId). simpl. lia.
Qed.

(** *** The walk up finds every ancestor *)

Lemma reachUp_fresh (visited : gset string) (x : string) :
  reachUp people childId visited x -> x ∉ visited.
Proof. by destruct 1. Qed.

(** Visiting a node other than the target keeps a way up: the old one, or
    one from a parent of the visited node. *)
Lemma reachUp_visit (visited : gset string) (x cur : string) :
  reachUp people childId visited x -> cur <> childId ->
  reachUp people childId ({[cur]} ∪ visited) x \/
  exists p y, peopleMapOf people !! cur = Some p /\ y ∈ parentIds p /\
              reachUp people childId ({[cur]} ∪ visited) y.
Proof.
  intros Hreach Hcur. induction Hreach as [Hfresh|x y p Hfresh Hp Hy Hreach IH].
  - left. apply reachUp_here. set_solver.
  - destruct IH as [IH|IH]; [|by right].
    destruct (decide (x = cur)) as [->|Hne].
    + right. eauto.
    + left. apply (reachUp_step _ _ _ x y p); [set_solver|done..].
Qed.

Lemma ancestorsLoop_finds (fuel : nat) :
  forall (queue : list string) (visited : gset string),
    (exists x, x ∈ queue /\ reachUp people childId visited x) ->
    ancestorsLoop fuel (peopleMapOf people) childId queue visited <> Ret false.
Proof.
  induction fuel as [|fuel IH]; intros queue visited (x & Hx & Hreach); [done|].
  destruct queue as [|currentId queue]; [by apply elem_of_nil in Hx|]. simpl.
  case_bool_decide as Hvis.
  { apply IH. exists x. split; [|done].
    apply elem_of_cons in Hx as [->|Hx]; [|done].
    by apply reachUp_fresh in Hreach. }
  destruct (String.eqb_spec currentId childId) as [Heq|Hne]; [done|].
  apply IH.
  destruct (reachUp_visit visited x currentId Hreach Hne) as [Hr|(p & y & Hp & Hy & Hr)].
  - exists x. split; [|done]. apply elem_of_app. left.
    apply elem_of_cons in Hx as [->|Hx]; [|done].
    apply reachUp_fresh in Hr. set_solver.
  - exists y. split; [|done]. apply elem_of_app. right. by rewrite Hp.
Qed.
End CycleLoops.

(** *** The guard *)

(** [wouldCreateCycle] answers on every input. *)
Lemma wouldCreateCycle_returns (people : list Person)
    (childId potentialParentId : string) :
  exists b, wouldCreateCycle people childId potentialParentId = Ret b.
Proof.
  unfold wouldCreateCycle, wouldCreateCycleFuel.
  destruct (String.eqb childId potentialParentId); [eauto|].
  rewrite descendantsLoop_returns
    by (pose proof (openEntries_empty people); simpl; lia).
  destruct (ancestorsLoop _ _ _ _ _) as [b|] eqn:E; [eauto|].
  exfalso. revert E. apply ancestorsLoop_returns.
  rewrite openParents_empty. simpl. lia.
Qed.

Lemma descendantOf_reachUp (G : list Person) (a b : Person) :
  NoDup (map id G) -> descendantOf G a b -> reachUp G (id b) ∅ (id a).
Proof.
  intros Hnd. induction 1 as [a b Ha Hb Hab|a m b Ha Hm Ham _ IH].
  - apply (reachUp_step _ _ _ (id a) (id b) a); [set_solver| |done|].
    + by apply peopleMapOf_unique.
    + apply reachUp_here. set_solver.
  - apply (reachUp_step _ _ _ (id a) (id m) a); [set_solver| |done..].
    by apply peopleMapOf_unique.
Qed.

(** X3. In a people list with pairwise distinct ids, whenever [a] is a
    descendant of [b], [wouldCreateCycle G b.id a.id] answers true; and
    [wouldCreateCycle G i i] answers true for every list and every id. *)
Theorem wouldCreateCycle_sound (G : list Person) (i : string) :
  wouldCreateCycle G i i = Ret true /\
  forall a b : Person,
    NoDup (map id G) -> descendantOf G a b ->
    wouldCreateCycle G (id b) (id a) = Ret true.
Proof.
  split.
  - unfold wouldCreateCycle, wouldCreateCycleFuel. by rewrite String.eqb_refl.
  - intros a b Hnd Hdesc.
    destruct (wouldCreateCycle_returns G (id b) (id a)) as [[|] Hr]; [done|].
    exfalso. revert Hr. unfold wouldCreateCycle, wouldCreateCycleFuel.
    destruct (String.eqb (id b) (id a)); [done|].
    destruct (descendantsLoop _ _ _ _ _); [|done].
    apply ancestorsLoop_finds. exists (id a). split; [left|].
    by apply descendantOf_reachUp.
Qed.

(** Scenario 4 of the specification: the grandchild cannot become a parent of
    the grandparent. *)
Lemma wouldCreateCycle_sound_witness :
  wouldCreateCycle [chainP1; chainP2; chainP3] "P1" "P1" = Ret true /\
  wouldCreateCycle [chainP1; chainP2; chainP3] "P1" "P3" = Ret true.
Proof.
  destruct (wouldCreateCycle_sound [chainP1; chainP2; chainP3] "P1") as [H1 H2].
  split; [exact H1|].
  apply (H2 chainP3 chainP1).
  - repeat (apply NoDup_cons; split); [set_solver..|apply NoDup_nil_2].
  - apply (descendant_further _ chainP3 chainP2 chainP1); [set_solver..|].
    apply descendant_child; set_solver.
Defined.

(** C3. The guard misses a descendant when an id occurs twice. In [twiceList]
    the first person with the id [a] is a child of [b], hence a descendant of
    [b], and the children map lists [a] under [b]: the first loop meets the
    candidate parent among the children of the child, where its [return true]
    leaves the callback of [forEach] only. The walk up then starts from the
    person that the map holds for [a], the last one, who has no parents, and
    [wouldCreateCycle twiceList b a] answers false. *)
Theorem wouldCreateCycle_duplicate_id :
  descendantOf twiceList twiceChild twiceParent /\
  cycleChildrenMap twiceList !! id twiceParent = Some [id twiceChild] /\
  peopleMapOf twiceList !! id twiceChild = Some twiceAgain /\
  wouldCreateCycle twiceList (id twiceParent) (id twiceChild) = Ret false.
Proof.
  split_and!.
  - apply descendant_child; [set_solver..|]. simpl. set_solver.
  - by vm_compute.
  - by vm_compute.
  - by vm_compute.
Qed.

(** ** The children map of the layout *)

Lemma pushChildOnce_lookup (c : string) (m : gmap string (list string))
    (e k : string) :
  match pushChildOnce c m e !! k, m !! k with
  | Some cs', Some cs =>
      (cs' = cs /\ (e = k -> c ∈ cs)) \/ (cs' = (cs ++ [c]) /\ (c ∉ cs) /\ e = k)
  | None, None => True
  | _, _ => False
  end.
Proof.
  unfold pushChildOnce. destruct (decide (e = k)) as [->|Hne].
  - destruct (m !! k) as [cs|] eqn:E; [|by rewrite E].
    destruct (includes cs c) eqn:Hinc.
    + rewrite E. left. split; [done|]. intros _. by apply includes_true.
    + rewrite lookup_insert_eq. right. split_and!; [done| |done]. by apply includes_false.
  - destruct (m !! e) as [cs0|] eqn:E0.
    + destruct (includes cs0 c).
      * destruct (m !! k); [by left | done].
      * rewrite lookup_insert_ne by done. destruct (m !! k); [by left | done].
    + destruct (m !! k); [by left | done].
Qed.

Lemma pushChildOnce_fold (c : string) (ps : list string)
    (m : gmap string (list string)) (k : string) :
  match fold_left (pushChildOnce c) ps m !! k, m !! k with
  | Some cs', Some cs =>
      (forall d, d ∈ cs' <-> d ∈ cs \/ (d = c /\ k ∈ ps)) /\ (NoDup cs -> NoDup cs')
  | None, None => True
  | _, _ => False
  end.
Proof.
  revert m. induction ps as [|e ps IH]; intros m.
  - simpl. destruct (m !! k); [|done]. split; [|done].
    intros d. split; [by left|]. intros [?|[_ H]]; [done|]. by apply elem_of_nil in H.
  - cbn [fold_left]. specialize (IH (pushChildOnce c m e)).
    pose proof (pushChildOnce_lookup c m e k) as Hstep.
    destruct (fold_left _ ps _ !! k) as [cs''|];
      destruct (pushChildOnce c m e !! k) as [cs'|]; destruct (m !! k) as [cs|];
      try done.
    destruct IH as [IHmem IHnd]. split.
    + intros d. rewrite IHmem. destruct Hstep as [[-> Hin]|(-> & Hnin & ->)].
      * split; [intros [?|[-> ?]]; [by left | right; split; [done | by right]]|].
        intros [?|[-> [->|?]%elem_of_cons]]; [by left | left; by apply Hin | by right].
      * rewrite elem_of_app, list_elem_of_singleton. split.
        { intros [[?| ->]|[-> ?]]; [by left | right; split; [done|left] |
                                    right; split; [done | by right]]. }
        intros [?|[-> _]]; left; [by left | by right].
    + intros Hnd. apply IHnd. destruct Hstep as [[-> _]|(-> & Hnin & _)]; [done|].
      apply NoDup_app. split_and!; [done| |apply NoDup_singleton].
      by intros d Hd ->%list_elem_of_singleton.
Qed.

Lemma buildChildren_fold (people : list Person) (m : gmap string (list string))
    (k : string) :
  match fold_left (fun m person =>
                     fold_left (pushChildOnce (id person)) (parentIds person) m)
          people m !! k, m !! k with
  | Some cs', Some cs =>
      (forall d, d ∈ cs' <->
                 d ∈ cs \/ exists p, p ∈ people /\ id p = d /\ k ∈ parentIds p) /\
      (NoDup cs -> NoDup cs')
  | None, None => True
  | _, _ => False
  end.
Proof.
  revert m. induction people as [|q people IH]; intros m.
  - simpl. destruct (m !! k); [|done]. split; [|done].
    intros d. split; [by left|]. intros [?|(p & H & _)]; [done|]. by apply elem_of_nil in H.
  - cbn [fold_left].
    specialize (IH (fold_left (pushChildOnce (id q)) (parentIds q) m)).
    pose proof (pushChildOnce_fold (id q) (parentIds q) m k) as Hstep.
    destruct (fold_left _ people _ !! k) as [cs''|];
      destruct (fold_left (pushChildOnce (id q)) (parentIds q) m !! k) as [cs'|];
      destruct (m !! k) as [cs|]; try done.
    destruct IH as [IHmem IHnd], Hstep as [Hmem Hnd]. split; [|by auto].
    intros d. rewrite IHmem, Hmem. split.
    + intros [[?|[-> ?]]|(p & ? & ? & ?)]; [by left | |].
      * right. exists q. split_and!; [left|done..].
      * right. exists p. split_and!; [by right|done..].
    + intros [?|(p & [->|?]%elem_of_cons & <- & ?)]; [by left; left | |].
      * left. by right.
      * right. by exists p.
Qed.

(** What the children map of the layout holds: under the id of a person of
    the list, and only there, the ids of the persons that list it as a
    parent, each once. *)
Lemma buildChildrenMap_lookup (people : list Person) (k : string) :
  match buildChildrenMap people !! k with
  | Some cs =>
      k ∈ map id people /\ NoDup cs /\
      forall d, d ∈ cs <-> exists p, p ∈ people /\ id p = d /\ k ∈ parentIds p
  | None => k ∉ map id people
  end.
Proof.
  unfold buildChildrenMap.
  pose proof (buildChildren_fold people (emptyChildrenMap people) k) as H.
  rewrite emptyChildrenMap_lookup in H.
  destruct (fold_left _ people _ !! k) as [cs|];
    destruct (decide (k ∈ map id people)); try done.
  destruct H as [Hmem Hnd]. split_and!; [done|apply Hnd, NoDup_nil_2|].
  intros d. rewrite Hmem. split; [|by right]. intros [H|?]; [|done].
  by apply elem_of_nil in H.
Qed.

Lemma isChild_iff (people : list Person) (k c : string) :
  isChild people k c <-> parentOf people k c.
Proof.
  unfold isChild, parentOf. pose proof (buildChildrenMap_lookup people k) as H.
  destruct (buildChildrenMap people !! k) as [cs|].
  - destruct H as (Hk & _ & Hmem). split.
    + intros (cs' & [= <-] & Hc). split; [done|]. by apply Hmem.
    + intros [_ Hp]. exists cs. split; [done|]. by apply Hmem.
  - split; [by intros (? & ? & _) | by intros [? _]].
Qed.

Lemma children_length (people : list Person) (k : string) (cs : list string) :
  buildChildrenMap people !! k = Some cs -> length cs <= length people.
Proof.
  intros E. pose proof (buildChildrenMap_lookup people k) as H. rewrite E in H.
  destruct H as (_ & Hnd & Hmem).
  rewrite <- (length_map id people). apply submseteq_length, NoDup_submseteq; [done|].
  intros d Hd. apply Hmem in Hd as (p & Hp & <- & _). apply list_elem_of_fmap. eauto.
Qed.

(** ** The generation assignment *)

Lemma raiseGeneration_ge (generations : gmap string nat) (i : string) (gen : nat)
    (c : string) (g : nat) :
  generations !! c = Some g ->
  exists g', raiseGeneration generations i gen !! c = Some g' /\ g <= g'.
Proof.
  intros Hc. unfold raiseGeneration.
  destruct (generations !! i) as [gi|] eqn:Ei.
  - destruct (Nat.ltb_spec gi gen); [|eauto].
    destruct (decide (i = c)) as [->|Hne].
    + rewrite lookup_insert_eq. exists gen. split; [done|]. simplify_eq. lia.
    + rewrite lookup_insert_ne by done. eauto.
  - rewrite lookup_insert_ne by congruence. eauto.
Qed.

Lemma raiseGeneration_self (generations : gmap string nat) (i : string) (gen : nat) :
  exists g', raiseGeneration generations i gen !! i = Some g' /\ gen <= g'.
Proof.
  unfold raiseGeneration. destruct (generations !! i) as [gi|] eqn:Ei.
  - destruct (Nat.ltb_spec gi gen).
    + rewrite lookup_insert_eq. eauto.
    + rewrite Ei. eauto.
  - rewrite lookup_insert_eq. eauto.
Qed.

Lemma raiseGeneration_inv (generations : gmap string nat) (i : string) (gen : nat)
    (k : string) (g : nat) :
  raiseGeneration generations i gen !! k = Some g ->
  generations !! k = Some g \/ (k = i /\ g = gen).
Proof.
  unfold raiseGeneration. destruct (generations !! i) as [gi|] eqn:Ei.
  - destruct (Nat.ltb_spec gi gen); [|by left].
    destruct (decide (i = k)) as [->|Hne].
    + rewrite lookup_insert_eq. intros [= <-]. by right.
    + rewrite lookup_insert_ne by done. by left.
  - destruct (decide (i = k)) as [->|Hne].
    + rewrite lookup_insert_eq. intros [= <-]. by right.
    + rewrite lookup_insert_ne by done. by left.
Qed.

Lemma childrenToQueue_elem (generations : gmap string nat) (gen : nat)
    (children : list string) (c : string) (g : nat) :
  (c, g) ∈ childrenToQueue generations gen children <->
  g = gen + 1 /\ c ∈ children /\
  match generations !! c with None => True | Some currentGen => currentGen < gen + 1 end.
Proof.
  unfold childrenToQueue. rewrite list_elem_of_fmap. split.
  - intros (d & [= -> ->] & Hd). apply list_elem_of_In, filter_In in Hd as [Hd Hf].
    split_and!; [done|by apply list_elem_of_In|].
    destruct (generations !! d); [by apply Nat.ltb_lt|done].
  - intros (-> & Hc & Hf). exists c. split; [done|].
    apply list_elem_of_In, filter_In. split; [by apply list_elem_of_In|].
    destruct (generations !! c); [by apply Nat.ltb_lt|done].
Qed.

Section Generations.
Variable people : list Person.

Lemma generationsInv_init :
  generationsInv people (map (fun r => (id r, 0)) (findRoots people)) ∅.
Proof.
  split_and!.
  - intros k g c Hk. by rewrite lookup_empty in Hk.
  - intros r Hr Hroot. right. exists 0. apply list_elem_of_fmap. exists r.
    split; [done|]. apply list_elem_of_In, filter_In. split; [by apply list_elem_of_In|].
    by rewrite Hroot.
  - intros c g (r & [= -> ->] & Hr)%list_elem_of_fmap.
    apply list_elem_of_In, filter_In in Hr as [Hr Hroot].
    apply depth_root; [by apply list_elem_of_In|].
    apply Nat.eqb_eq in Hroot. by destruct (parentIds r).
  - intros c g Hc. by rewrite lookup_empty in Hc.
Qed.

Lemma generationsInv_step (i : string) (gen : nat) (queue : list (string * nat))
    (generations : gmap string nat) :
  generationsInv people ((i, gen) :: queue) generations ->
  generationsInv people
    (queue ++ childrenToQueue (raiseGeneration generations i gen) gen
                (default [] (buildChildrenMap people !! i)))
    (raiseGeneration generations i gen).
Proof.
  intros (I1 & I2 & I3 & I4).
  assert (Hi : chainDepth people i gen) by (apply I3; left).
  split_and!.
  - intros k g c Hk Hchild.
    apply raiseGeneration_inv in Hk as [Hk|[-> ->]].
    + destruct (I1 k g c Hk Hchild) as [(g' & Hc & Hlt)|(g' & Hc & Hlt)].
      * left. destruct (raiseGeneration_ge generations i gen c g' Hc) as (g'' & ? & ?).
        exists g''. split; [done | lia].
      * apply elem_of_cons in Hc as [[= -> ->]|Hc].
        -- left. destruct (raiseGeneration_self generations i gen) as (g'' & ? & ?).
           exists g''. split; [done | lia].
        -- right. exists g'. split; [|done]. apply elem_of_app. by left.
    + destruct Hchild as (cs & Hcs & Hc). rewrite Hcs. simpl.
      destruct (raiseGeneration generations i gen !! c) as [gc|] eqn:Ec.
      * destruct (Nat.lt_ge_cases gc (gen + 1)) as [Hlt|Hge].
        -- right. exists (gen + 1). split; [|lia]. apply elem_of_app. right.
           apply childrenToQueue_elem. by rewrite Ec.
        -- left. exists gc. split; [done | lia].
      * right. exists (gen + 1). split; [|lia]. apply elem_of_app. right.
        apply childrenToQueue_elem. by rewrite Ec.
  - intros r Hr Hroot. destruct (I2 r Hr Hroot) as [[g Hg]|[g Hg]].
    + left. destruct (raiseGeneration_ge generations i gen _ g Hg) as (g' & ? & _). eauto.
    + apply elem_of_cons in Hg as [[= <- <-]|Hg].
      * left. destruct (raiseGeneration_self generations (id r) g) as (g' & ? & _). eauto.
      * right. exists g. apply elem_of_app. by left.
  - intros c g [Hc|Hc]%elem_of_app; [apply I3; by right|].
    apply childrenToQueue_elem in Hc as (-> & Hc & _).
    rewrite Nat.add_1_r. apply (depth_child _ i); [done|]. apply isChild_iff.
    destruct (buildChildrenMap people !! i) as [cs|] eqn:Ecs; [|by apply elem_of_nil in Hc].
    by exists cs.
  - intros c g Hc. apply raiseGeneration_inv in Hc as [Hc|[-> ->]]; [by apply I4 | done].
Qed.

Lemma generationsLoop_inv (fuel : nat) :
  forall queue generations result,
    generationsInv people queue generations ->
    generationsLoop fuel (buildChildrenMap people) queue generations = Ret result ->
    generationsInv people [] result.
Proof.
  induction fuel as [|fuel IH]; intros queue generations result Hinv; [done|].
  destruct queue as [|[i gen] queue]; simpl.
  - by intros [= <-].
  - apply IH. by apply generationsInv_step.
Qed.

Lemma generationsLoop_fuel_mono (fuel fuel' : nat) :
  fuel <= fuel' ->
  forall queue generations result,
    generationsLoop fuel (buildChildrenMap people) queue generations = Ret result ->
    generationsLoop fuel' (buildChildrenMap people) queue generations = Ret result.
Proof.
  revert fuel'. induction fuel as [|fuel IH]; intros fuel' Hle queue generations result;
    [done|].
  destruct fuel' as [|fuel']; [lia|].
  destruct queue as [|[i gen] queue]; simpl; [done|]. apply IH. lia.
Qed.

(** *** Termination on an acyclic parent relation *)

(** The persons are numbered so that a parent of the list has a smaller
    number than its child. *)
Variable rank : string -> nat.
Hypothesis rank_parent :
  forall p k, p ∈ people -> k ∈ parentIds p -> k ∈ map id people ->
              rank k < rank (id p).

Lemma rank_child (k c : string) :
  isChild people k c -> rank k < rank c /\ rank c <= rankBound people rank.
Proof.
  intros (Hk & p & Hp & <- & Hkp)%isChild_iff. split; [by apply rank_parent|].
  unfold rankBound. apply max_list_elem_of_le, list_elem_of_fmap.
  exists (id p). split; [done|]. apply list_elem_of_fmap. eauto.
Qed.

Lemma queueWeight_app (q1 q2 : list (string * nat)) :
  queueWeight people rank (q1 ++ q2) = queueWeight people rank q1 + queueWeight people rank q2.
Proof.
  unfold queueWeight. induction q1 as [|e q1 IH]; simpl; [done|]. rewrite IH. lia.
Qed.

Lemma pushed_weight (generations : gmap string nat) (gen : nat) (i : string)
    (cs : list string) :
  (forall c, c ∈ cs -> isChild people i c) ->
  queueWeight people rank (childrenToQueue generations gen cs)
  <= length cs * weightBase people ^ (rankBound people rank - S (rank i)).
Proof.
  induction cs as [|c cs IH]; intros Hcs; [done|].
  unfold childrenToQueue, queueWeight in *. cbn [List.filter length].
  assert (Hc : weightBase people ^ (rankBound people rank - rank c) <= weightBase people ^ (rankBound people rank - S (rank i))).
  { destruct (rank_child i c) as [? ?]; [apply Hcs; left|].
    apply Nat.pow_le_mono_r; unfold weightBase; lia. }
  specialize (IH (fun d Hd => Hcs d (list_elem_of_further _ _ _ Hd))).
  destruct (match generations !! c with None => true | Some g => g <? gen + 1 end);
    simpl in *; lia.
Qed.

Lemma generationsLoop_returns (fuel : nat) :
  forall queue generations,
    queueWeight people rank queue < fuel ->
    exists result,
      generationsLoop fuel (buildChildrenMap people) queue generations = Ret result.
Proof.
  induction fuel as [|fuel IH]; intros queue generations Hfuel; [lia|].
  destruct queue as [|[i gen] queue]; simpl; [eauto|].
  apply IH. rewrite queueWeight_app.
  change (queueWeight people rank ((i, gen) :: queue))
    with (weightBase people ^ (rankBound people rank - rank i) + queueWeight people rank queue) in Hfuel.
  enough (queueWeight people rank (childrenToQueue (raiseGeneration generations i gen) gen
                         (default [] (buildChildrenMap people !! i)))
          < weightBase people ^ (rankBound people rank - rank i)) by lia.
  destruct (buildChildrenMap people !! i) as [cs|] eqn:Ecs; simpl.
  - pose proof (pushed_weight (raiseGeneration generations i gen) gen i cs) as Hw.
    pose proof (children_length people i cs Ecs) as Hlen.
    destruct cs as [|c cs].
    { unfold childrenToQueue, queueWeight. simpl.
      apply Nat.lt_le_trans with 1; [lia|]. apply Nat.le_succ_l.
      apply Nat.neq_0_lt_0, Nat.pow_nonzero. done. }
    assert (Hchild : forall d, d ∈ c :: cs -> isChild people i d)
      by (intros d Hd; by exists (c :: cs)).
    destruct (rank_child i c) as [Hlt Hle]; [apply Hchild; left|].
    specialize (Hw Hchild).
    replace (rankBound people rank - rank i) with (S (rankBound people rank - S (rank i))) by lia.
    rewrite Nat.pow_succ_r'.
    assert (0 < weightBase people ^ (rankBound people rank - S (rank i)))
      by (apply Nat.neq_0_lt_0, Nat.pow_nonzero; done).
    unfold weightBase in *. nia.
  - unfold childrenToQueue, queueWeight. simpl.
    apply Nat.neq_0_lt_0, Nat.pow_nonzero. done.
Qed.
End Generations.

Lemma fillDisconnected_lookup (people : list Person) (generations : gmap string nat)
    (k : string) :
  fillDisconnected people generations !! k
  = match generations !! k with
    | Some g => Some g
    | None => if decide (k ∈ map id people) then Some 0 else None
    end.
Proof.
  unfold fillDisconnected. revert generations.
  induction people as [|p people IH]; intros generations.
  - cbn [fold_left]. destruct (generations !! k); [done|].
    destruct (decide (k ∈ map id [])) as [H|]; [by apply elem_of_nil in H | done].
  - cbn [fold_left]. rewrite IH. change (map id (p :: people)) with (id p :: map id people).
    destruct (generations !! id p) as [gp|] eqn:Ep.
    + destruct (generations !! k) as [g|] eqn:Ek; [done|].
      destruct (decide (k ∈ map id people)), (decide (k ∈ id p :: map id people));
        try done.
      * exfalso. set_solver.
      * exfalso. assert (k = id p) as -> by set_solver. congruence.
    + destruct (decide (id p = k)) as [<-|Hne].
      * rewrite lookup_insert_eq, Ep. by rewrite decide_True by left.
      * rewrite lookup_insert_ne by done. destruct (generations !! k); [done|].
        destruct (decide (k ∈ map id people)), (decide (k ∈ id p :: map id people));
          try done; exfalso; set_solver.
Qed.

(** After the loop every chain from a root is recorded, with at least its
    length. *)
Lemma chainDepth_recorded (people : list Person) (result : gmap string nat) :
  generationsInv people [] result ->
  forall c m, chainDepth people c m -> exists g, result !! c = Some g /\ m <= g.
Proof.
  intros (I1 & I2 & _ & _) c m. induction 1 as [r Hr Hroot|k c g _ IH Hchild].
  - destruct (I2 r Hr Hroot) as [[g Hg]|[g Hg]]; [|by apply elem_of_nil in Hg].
    exists g. split; [done | lia].
  - destruct IH as (gk & Hk & Hle). apply isChild_iff in Hchild.
    destruct (I1 k gk c Hk Hchild) as [(g' & ? & ?)|(g' & Hg & _)];
      [|by apply elem_of_nil in Hg].
    exists g'. split; [done | lia].
Qed.

(** *** Acyclic lists have a numbering *)

Lemma parentsIn_iff (people : list Person) (k c : string) :
  k ∈ parentsIn people c <-> parentOf people k c.
Proof.
  unfold parentsIn, parentOf.
  rewrite list_elem_of_In, filter_In, in_flat_map, includes_true. split.
  - intros [(p & Hp & Hk) Hin]. apply filter_In in Hp as [Hp Hid].
    apply String.eqb_eq in Hid. split; [done|].
    exists p. by rewrite !list_elem_of_In.
  - intros [Hin (p & Hp & Hid & Hk)]. split; [|done].
    exists p. split; [|by apply list_elem_of_In].
    apply filter_In. split; [by apply list_elem_of_In | by apply String.eqb_eq].
Qed.

Lemma depthFuel_parent (people : list Person) (n : nat) (k c : string) :
  parentOf people k c -> S (depthFuel people n k) <= depthFuel people (S n) c.
Proof.
  intros Hk%parentsIn_iff. cbn [depthFuel].
  apply max_list_elem_of_le, list_elem_of_fmap. by exists k.
Qed.

Lemma depthFuel_chain (people : list Person) (n : nat) :
  forall c, exists l, length l = depthFuel people n c /\ isUpChain people c l.
Proof.
  induction n as [|n IH]; intros c; [by exists nil|].
  cbn [depthFuel]. destruct (parentsIn people c) as [|k0 ps] eqn:Eps; [by exists nil|].
  pose proof (max_list_elem_of
                (map (fun k => S (depthFuel people n k)) (k0 :: ps))) as Hmax.
  apply list_elem_of_fmap in Hmax as (k & Hk & Hin); [|done].
  destruct (IH k) as (l & Hlen & Hl). exists (k :: l). split.
  - cbn [length]. by rewrite Hlen, <- Hk.
  - split; [|done]. apply parentsIn_iff. by rewrite Eps.
Qed.

Lemma isUpChain_ancestor (people : list Person) (l : list string) :
  forall c x, isUpChain people c l -> x ∈ l -> tc (parentOf people) x c.
Proof.
  induction l as [|k l IH]; intros c x Hl Hx; [by apply elem_of_nil in Hx|].
  destruct Hl as [Hk Hl]. apply elem_of_cons in Hx as [->|Hx]; [by apply tc_once|].
  eapply tc_r; [by apply IH | done].
Qed.

Lemma isUpChain_NoDup (people : list Person) (l : list string) :
  acyclic people -> forall c, isUpChain people c l -> NoDup l.
Proof.
  intros Hacyc. induction l as [|k l IH]; intros c Hl; [apply NoDup_nil_2|].
  destruct Hl as [Hk Hl]. apply NoDup_cons. split; [|by apply (IH k)].
  intros Hin. apply (Hacyc k). by apply (isUpChain_ancestor people l).
Qed.

Lemma isUpChain_ids (people : list Person) (l : list string) :
  forall c x, isUpChain people c l -> x ∈ l -> x ∈ map id people.
Proof.
  induction l as [|k l IH]; intros c x Hl Hx; [by apply elem_of_nil in Hx|].
  destruct Hl as [[Hk _] Hl]. apply elem_of_cons in Hx as [->|Hx]; [done|].
  by apply (IH k).
Qed.

Lemma depthFuel_bound (people : list Person) (n : nat) (c : string) :
  acyclic people -> depthFuel people n c <= length people.
Proof.
  intros Hacyc. destruct (depthFuel_chain people n c) as (l & <- & Hl).
  rewrite <- (length_map id people). apply submseteq_length, NoDup_submseteq.
  - by apply (isUpChain_NoDup people l Hacyc c).
  - intros x Hx. by apply (isUpChain_ids people l c).
Qed.

Lemma depthFuel_stable (people : list Person) (n : nat) :
  forall c, depthFuel people n c < n ->
            depthFuel people (S n) c = depthFuel people n c.
Proof.
  induction n as [|n IH]; intros c Hlt; [lia|].
  change (depthFuel people (S (S n)) c)
    with (max_list (map (fun k => S (depthFuel people (S n) k)) (parentsIn people c))).
  change (depthFuel people (S n) c)
    with (max_list (map (fun k => S (depthFuel people n k)) (parentsIn people c))).
  f_equal. apply map_ext_in. intros k Hk%list_elem_of_In%parentsIn_iff.
  f_equal. apply IH. pose proof (depthFuel_parent people n k c Hk). lia.
Qed.

(** An acyclic list has a numbering that grows from each parent to its
    child. *)
Lemma acyclic_rank (people : list Person) :
  acyclic people ->
  exists rank : string -> nat, forall k c, parentOf people k c -> rank k < rank c.
Proof.
  intros Hacyc. exists (depthFuel people (S (length people))). intros k c Hk.
  rewrite <- (depthFuel_stable people (S (length people)) c).
  - by apply depthFuel_parent.
  - pose proof (depthFuel_bound people (S (length people)) c Hacyc). lia.
Qed.

Lemma rank_acyclic (people : list Person) (rank : string -> nat) :
  (forall k c, parentOf people k c -> rank k < rank c) -> acyclic people.
Proof.
  intros Hrank i Hi.
  assert (H : forall a b, tc (parentOf people) a b -> rank a < rank b).
  { induction 1 as [a b Hab|a b c Hab _ IH]; [by apply Hrank|].
    specialize (Hrank a b Hab). lia. }
  specialize (H i i Hi). lia.
Qed.

(** The loop of [calculateGenerations] ends on an acyclic parent relation,
    within a fuel that the list determines, and what it records satisfies the
    invariant with an empty queue. *)
Lemma calculateGenerations_returns (people : list Person) :
  acyclic people ->
  exists loopResult,
    generationsInv people [] loopResult /\
    exists fuel0, forall fuel, fuel0 <= fuel ->
      calculateGenerations fuel people = Ret (fillDisconnected people loopResult).
Proof.
  intros (rank & Hparent)%acyclic_rank.
  assert (Hrank : forall p k, p ∈ people -> k ∈ parentIds p -> k ∈ map id people ->
                              rank k < rank (id p)).
  { intros p k Hp Hk Hin. apply Hparent. split; [done|]. by exists p. }
  set (queue := map (fun r => (id r, 0)) (findRoots people)).
  destruct (generationsLoop_returns people rank Hrank
              (S (queueWeight people rank queue)) queue ∅) as [result Hres]; [lia|].
  exists result. split.
  - eapply generationsLoop_inv; [apply generationsInv_init | exact Hres].
  - exists (S (queueWeight people rank queue)). intros fuel Hle.
    unfold calculateGenerations. fold queue.
    by rewrite (generationsLoop_fuel_mono people _ fuel Hle _ _ _ Hres).
Qed.

Lemma person_unique (people : list Person) (p q : Person) :
  NoDup (map id people) -> p ∈ people -> q ∈ people -> id p = id q -> p = q.
Proof.
  intros Hnd Hp Hq Heq.
  pose proof (findPerson_unique people p Hnd Hp) as H1.
  pose proof (findPerson_unique people q Hnd Hq) as H2. congruence.
Qed.

(** With pairwise distinct ids a root heads no longer chain than itself. *)
Lemma root_longestChain (people : list Person) (r : Person) :
  NoDup (map id people) -> r ∈ people -> parentIds r = [] ->
  longestChain people (id r) 0.
Proof.
  intros Hnd Hr Hroot. split; [by apply depth_root|].
  intros m Hm. inversion Hm as [|k c g _ Hchild]; [lia|]. subst.
  destruct Hchild as (_ & p & Hp & Hid & Hk).
  rewrite (person_unique people p r Hnd Hp Hr Hid), Hroot in Hk.
  by apply elem_of_nil in Hk.
Qed.

(** The generation of a person is the length of the longest chain from a root
    down to it. *)
Lemma generation_longestChain (people : list Person) (loopResult : gmap string nat)
    (c : string) (n : nat) :
  generationsInv people [] loopResult ->
  longestChain people c n ->
  fillDisconnected people loopResult !! c = Some n.
Proof.
  intros Hinv [Hn Hmax].
  destruct (chainDepth_recorded people loopResult Hinv c n Hn) as (g & Hg & Hle).
  rewrite fillDisconnected_lookup, Hg. f_equal.
  destruct Hinv as (_ & _ & _ & I4). specialize (Hmax g (I4 c g Hg)). lia.
Qed.

(** C1, amended. [calculateGenerations] does not read [spouseIds]: on an
    acyclic parent relation it ends, and the generation of a person is the
    length of the longest chain of parents of the list from a root down to
    that person. So two spouses, both in the list, get the same generation
    whenever these lengths agree. *)
Theorem calculateGenerations_spouses (people : list Person) :
  acyclic people ->
  exists generations,
    (exists fuel0, forall fuel, fuel0 <= fuel ->
       calculateGenerations fuel people = Ret generations) /\
    forall p q n,
      p ∈ people -> q ∈ people ->
      id q ∈ spouseIds p \/ id p ∈ spouseIds q ->
      longestChain people (id p) n -> longestChain people (id q) n ->
      generations !! id p = Some n /\ generations !! id q = Some n.
Proof.
  intros Hacyc.
  destruct (calculateGenerations_returns people Hacyc) as (result & Hinv & Hfuel).
  exists (fillDisconnected people result). split; [done|].
  intros p q n _ _ _ Hp Hq. split; by apply generation_longestChain.
Qed.

(** C5, amended. On a list with pairwise distinct ids in which every
    [parentIds] entry is the id of a person of the list and the parent
    relation is acyclic, [calculateGenerations] ends, the generation of a
    person is strictly greater than the generation of each of its parents, and
    a person without [parentIds] has generation 0. *)
Theorem calculateGenerations_monotone (people : list Person) :
  NoDup (map id people) ->
  (forall p k, p ∈ people -> k ∈ parentIds p -> k ∈ map id people) ->
  acyclic people ->
  exists generations,
    (exists fuel0, forall fuel, fuel0 <= fuel ->
       calculateGenerations fuel people = Ret generations) /\
    (forall p q, p ∈ people -> q ∈ people -> id q ∈ parentIds p ->
       exists gp gq, generations !! id p = Some gp /\
                     generations !! id q = Some gq /\ gq < gp) /\
    (forall r, r ∈ people -> parentIds r = [] -> generations !! id r = Some 0).
Proof.
  intros Hnd Hclosed Hacyc.
  destruct (calculateGenerations_returns people Hacyc) as (result & Hinv & Hfuel).
  destruct (acyclic_rank people Hacyc) as (rank & Hparent).
  assert (Hrank : forall p k, p ∈ people -> k ∈ parentIds p -> rank k < rank (id p)).
  { intros p k Hp Hk. apply Hparent. split; [by apply (Hclosed p)|]. by exists p. }
  exists (fillDisconnected people result). split_and!; [done| |].
  - (* every person is recorded by the loop *)
    assert (Hall : forall n p, p ∈ people -> rank (id p) < n -> is_Some (result !! id p)).
    { induction n as [|n IH]; intros p Hp Hn; [lia|].
      destruct (parentIds p) as [|k ks] eqn:Eps.
      - destruct Hinv as (_ & I2 & _ & _).
        destruct (I2 p Hp Eps) as [?|[g Hg]]; [done | by apply elem_of_nil in Hg].
      - assert (Hk : k ∈ parentIds p) by (rewrite Eps; left).
        pose proof (Hclosed p k Hp Hk) as Hin.
        pose proof Hin as (q & -> & Hq)%list_elem_of_fmap.
        destruct (IH q Hq) as [gq Hgq]; [specialize (Hrank p (id q) Hp Hk); lia|].
        destruct Hinv as (I1 & _ & _ & _).
        destruct (I1 (id q) gq (id p) Hgq) as [(g' & ? & _)|(g' & Hg & _)];
          [|done|by apply elem_of_nil in Hg].
        apply isChild_iff. split; [done|]. by exists p. }
    intros p q Hp Hq Hqp.
    destruct (Hall (S (rank (id q))) q Hq) as [gq Hgq]; [lia|].
    destruct Hinv as (I1 & _ & _ & _).
    destruct (I1 (id q) gq (id p) Hgq) as [(gp & Hgp & Hlt)|(g' & Hg & _)];
      [| |by apply elem_of_nil in Hg].
    { apply isChild_iff. split; [apply list_elem_of_fmap; eauto|]. by exists p. }
    exists gp, gq. by rewrite !fillDisconnected_lookup, Hgp, Hgq.
  - intros r Hr Hroot. apply generation_longestChain; [done|].
    by apply root_longestChain.
Qed.

(** *** Examples of the generation assignment *)

(** C1 as stated fails: the spouses [B] and [C] are both in the list, and [B],
    a child of the root [A], gets generation 1 while [C] gets generation 0. *)
Lemma calculateGenerations_spouses_counterexample :
  exists generations,
    calculateGenerations 10 [inLawA; inLawB; inLawC] = Ret generations /\
    "C" ∈ spouseIds inLawB /\ "B" ∈ spouseIds inLawC /\
    generations !! "B" = Some 1 /\ generations !! "C" = Some 0.
Proof.
  eexists. split; [by vm_compute|]. split_and!; [set_solver..| |]; by vm_compute.
Qed.

Lemma couple_acyclic : acyclic [coupleP1; coupleP2].
Proof.
  apply (rank_acyclic _ (fun _ => 0)). intros k c (_ & p & Hp & _ & Hk). exfalso.
  repeat (apply elem_of_cons in Hp as [->|Hp]); set_solver.
Qed.

Lemma couple_NoDup : NoDup (map id [coupleP1; coupleP2]).
Proof. repeat (apply NoDup_cons; split); [set_solver..|apply NoDup_nil_2]. Qed.

Lemma calculateGenerations_spouses_witness :
  exists generations,
    (exists fuel0, forall fuel, fuel0 <= fuel ->
       calculateGenerations fuel [coupleP1; coupleP2] = Ret generations) /\
    generations !! "P1" = Some 0 /\ generations !! "P2" = Some 0.
Proof.
  destruct (calculateGenerations_spouses [coupleP1; coupleP2] couple_acyclic)
    as (generations & Hfuel & Hsame).
  exists generations. split; [exact Hfuel|].
  apply (Hsame coupleP1 coupleP2 0); [set_solver..|left; set_solver| |].
  - apply root_longestChain; [apply couple_NoDup|set_solver|done].
  - apply root_longestChain; [apply couple_NoDup|set_solver|done].
Defined.

(** C5 as stated fails: [q] is in the list and is a parent of [p], none of
    the parents of [q] is in the list, and both get generation 0. *)
Lemma calculateGenerations_monotone_counterexample :
  exists generations,
    calculateGenerations 10 [danglingQ; danglingP] = Ret generations /\
    "q" ∈ parentIds danglingP /\
    generations !! "p" = Some 0 /\ generations !! "q" = Some 0.
Proof.
  eexists. split; [by vm_compute|]. split_and!; [set_solver| |]; by vm_compute.
Qed.

Lemma chain_acyclic : acyclic [chainP1; chainP2; chainP3].
Proof.
  apply (rank_acyclic _ chainRank). intros k c (_ & p & Hp & <- & Hk).
  repeat (apply elem_of_cons in Hp as [->|Hp]); [..|by apply elem_of_nil in Hp];
    simpl in Hk; repeat (apply elem_of_cons in Hk as [->|Hk]);
    try (by apply elem_of_nil in Hk); vm_compute; lia.
Qed.

Lemma calculateGenerations_monotone_witness :
  exists generations,
    (exists fuel0, forall fuel, fuel0 <= fuel ->
       calculateGenerations fuel [chainP1; chainP2; chainP3] = Ret generations) /\
    (forall p q, p ∈ [chainP1; chainP2; chainP3] -> q ∈ [chainP1; chainP2; chainP3] ->
       id q ∈ parentIds p ->
       exists gp gq, generations !! id p = Some gp /\
                     generations !! id q = Some gq /\ gq < gp) /\
    (forall r, r ∈ [chainP1; chainP2; chainP3] -> parentIds r = [] ->
       generations !! id r = Some 0).
Proof.
  apply (calculateGenerations_monotone [chainP1; chainP2; chainP3]).
  - repeat (apply NoDup_cons; split); [set_solver..|apply NoDup_nil_2].
  - intros p k Hp Hk.
    repeat (apply elem_of_cons in Hp as [->|Hp]); set_solver.
  - exact chain_acyclic.
Defined.

(** ** The layout *)

(** *** Two spouses *)

(** C6 as stated fails: the two spouses make up the bottom generation, which
    is laid out with the spacing of siblings; they are 180 apart, not 50. *)
Lemma computeLayout_couple_counterexample :
  exists s n1 n2 w h,
    computeLayout compareStrings 10 [] [coupleP1; coupleP2] true
      = Ret (s, mkLayout [n1; n2] w h) /\
    (readX s (computedPosition n2) - readX s (computedPosition n1)
     == HORIZONTAL_SPACING)%Q /\
    ~ (readX s (computedPosition n2) - readX s (computedPosition n1)
       == SPOUSE_SPACING / 2)%Q /\
    ~ (readX s (computedPosition n1) - readX s (computedPosition n2)
       == SPOUSE_SPACING / 2)%Q.
Proof.
  do 5 eexists. split; [by vm_compute|]. split_and!; by vm_compute.
Qed.

(** *** A person with two spouses *)

(** C7: the code at the failing input. Both couples of [A] are centred above
    the same children, so the two spouses [B] and [C] of [A] are put on the
    same coordinates. *)
Theorem computeLayout_multi_spouse_overlap :
  exists s nA nB nC nK1 nK2 w h,
    computeLayout compareStrings 10 [] [famA; famB; famC; famK1; famK2] true
      = Ret (s, mkLayout [nA; nB; nC; nK1; nK2] w h) /\
    person nB = famB /\ person nC = famC /\
    generation nB = 0 /\ generation nC = 0 /\
    s !! computedPosition nB = Some (mkPosition 270 100) /\
    s !! computedPosition nC = Some (mkPosition 270 100).
Proof.
  do 8 eexists. split; [by vm_compute|]. split_and!; by vm_compute.
Qed.

(** *** A manual position left of the padding *)

(** C4: the code at the failing input. Without forced auto-align the node
    shares the [position] object of the person, and the normalization shift
    is written into it: the input position (50, 70) is (100, 70) after the
    call. *)
Theorem computeLayout_shifts_manual_position :
  exists s n w h,
    computeLayout compareStrings 10 draggedStore [draggedPerson] false
      = Ret (s, mkLayout [n] w h) /\
    person n = draggedPerson /\ position draggedPerson = Some 0 /\
    computedPosition n = 0 /\
    draggedStore !! 0 = Some (mkPosition 50 70) /\
    s !! 0 = Some (mkPosition 100 70).
Proof.
  do 4 eexists. split; [by vm_compute|]. split_and!; by vm_compute.
Qed.

(** *** Two spouses, in general *)

Lemma maxGenerationOf_le (generations : gmap string nat) (n : nat) :
  (forall k g, generations !! k = Some g -> g <= n) -> maxGenerationOf generations <= n.
Proof.
  unfold maxGenerationOf.
  induction generations as [|k g m Hk Hfold IH] using map_first_key_ind; intros H.
  - rewrite map_fold_empty. lia.
  - rewrite map_fold_insert_first_key by done.
    assert (g <= n) by (apply (H k); apply lookup_insert_eq).
    assert (map_fold (fun _ g acc => Nat.max g acc) 0 m <= n).
    { apply IH. intros k' g' Hk'. apply (H k'). rewrite lookup_insert_ne; [done|]. intros ->. congruence. }
    lia.
Qed.

Lemma couple_generations (fuel : nat) (P1 P2 : Person) :
  id P1 <> id P2 -> parentIds P1 = [] -> parentIds P2 = [] -> 3 <= fuel ->
  calculateGenerations fuel [P1; P2] = Ret (<[id P2 := 0]> (<[id P1 := 0]> ∅)).
Proof.
  intros Hne H1 H2 Hfuel.
  destruct fuel as [|[|[|fuel]]]; [lia..|].
  unfold calculateGenerations, findRoots, buildChildrenMap, emptyChildrenMap.
  cbn [fold_left List.filter]. rewrite H1, H2. cbn [fold_left length Nat.eqb map].
  cbn [generationsLoop].
  rewrite lookup_insert_ne, lookup_insert_eq by done.
  cbn [default from_option Datatypes.id childrenToQueue List.filter map app].
  rewrite lookup_insert_eq.
  cbn [default from_option Datatypes.id childrenToQueue List.filter map app].
  unfold raiseGeneration. rewrite lookup_empty, lookup_insert_ne, lookup_empty by done.
  unfold fillDisconnected. cbn [fold_left].
  rewrite lookup_insert_ne, lookup_insert_eq by done.
  by rewrite lookup_insert_eq.
Qed.

Lemma couple_groups (P1 P2 : Person) :
  id P1 <> id P2 ->
  groupByGeneration [P1; P2] (<[id P2 := 0]> (<[id P1 := 0]> ∅)) !! 0 = Some [P1; P2].
Proof.
  intros Hne.
  assert (E1 : (<[id P2 := 0]> (<[id P1 := 0]> ∅) : gmap string nat) !! id P1 = Some 0)
    by (by rewrite lookup_insert_ne, lookup_insert_eq).
  assert (E2 : (<[id P2 := 0]> (<[id P1 := 0]> ∅) : gmap string nat) !! id P2 = Some 0)
    by (by rewrite lookup_insert_eq).
  unfold groupByGeneration. cbn [fold_left]. rewrite E1, E2.
  cbn [default from_option Datatypes.id].
  by rewrite lookup_empty, !lookup_insert_eq.
Qed.

Lemma couple_sorted (localeCompare : string -> string -> Z) (P1 P2 : Person) :
  spouseIds P2 = [id P1] ->
  sortBy (compareSiblings localeCompare) [P1; P2] = [P1; P2].
Proof.
  intros H2. unfold sortBy. cbn [fold_left insertBy].
  unfold compareSiblings, areSpouses. rewrite H2.
  assert (includes [id P1] (id P1) = true) as -> by (apply includes_true; left).
  done.
Qed.

Lemma mathMin_ge (l : list Q) (b m : Q) :
  (forall q, q ∈ l -> (b <= q)%Q) -> mathMin l = Some m -> (b <= m)%Q.
Proof.
  destruct l as [|a l]; [done|]. simpl. intros Hall [= <-].
  assert (Ha : (b <= a)%Q) by (apply Hall; left).
  assert (Hl : forall q, q ∈ l -> (b <= q)%Q) by (intros q Hq; apply Hall; by right).
  clear Hall. revert a Ha. induction l as [|c l IH]; intros a Ha; [done|].
  simpl. apply IH.
  - intros q Hq. apply Hl. by right.
  - apply Q.min_glb; [done|]. apply Hl. left.
Qed.

Lemma normalize_noop (s : Store) (nodes : list LayoutNode) :
  (forall n, n ∈ nodes -> (CANVAS_PADDING <= readX s (computedPosition n))%Q) ->
  normalize s nodes = s.
Proof.
  intros Hall. unfold normalize.
  destruct (mathMin _) as [minX|] eqn:E; [|done].
  assert (Hle : (CANVAS_PADDING <= minX)%Q).
  { eapply mathMin_ge; [|exact E].
    intros q (n & -> & Hn)%list_elem_of_fmap. by apply Hall. }
  apply Qle_bool_iff in Hle. by rewrite Hle.
Qed.

Lemma bottomGroups_orphans (genPeople : list Person) :
  genPeople <> [] -> Forall (fun p => parentIds p = []) genPeople ->
  bottomGroups genPeople = [genPeople].
Proof.
  intros Hne Hall. unfold bottomGroups.
  assert (H : forall byParents orphans,
            fold_left (fun '(byParents, orphans) person =>
                         if Nat.eqb (length (parentIds person)) 0
                         then (byParents, orphans ++ [person])
                         else (groupPush (joinSorted (parentIds person)) person byParents,
                               orphans))
              genPeople (byParents, orphans)
            = (byParents, orphans ++ genPeople)).
  { clear Hne. induction Hall as [|p l Hp _ IH]; intros byParents orphans.
    - by rewrite app_nil_r.
    - cbn [fold_left]. rewrite Hp. cbn [length Nat.eqb]. rewrite IH.
      by rewrite <- app_assoc. }
  rewrite H. cbn [app map]. destruct genPeople; [done|]. done.
Qed.

(** C6, amended. For two persons of different ids that are spouses of each
    other and have no parents, with forced auto-align or without manual
    positions, [computeLayout] gives both generation 0 and the same [y], and
    puts them [HORIZONTAL_SPACING] apart: the first at [x = CANVAS_PADDING],
    the second at [x = CANVAS_PADDING + HORIZONTAL_SPACING]. *)
Theorem computeLayout_couple (localeCompare : string -> string -> Z) (fuel : nat)
    (s : Store) (P1 P2 : Person) (autoAlign : bool) :
  id P1 <> id P2 ->
  parentIds P1 = [] -> parentIds P2 = [] ->
  spouseIds P1 = [id P2] -> spouseIds P2 = [id P1] ->
  autoAlign = true \/ (position P1 = None /\ position P2 = None) ->
  3 <= fuel ->
  exists s' n1 n2 w h,
    computeLayout localeCompare fuel s [P1; P2] autoAlign
      = Ret (s', mkLayout [n1; n2] w h) /\
    person n1 = P1 /\ person n2 = P2 /\
    generation n1 = 0 /\ generation n2 = 0 /\
    s' !! computedPosition n1 = Some (mkPosition CANVAS_PADDING CANVAS_PADDING) /\
    s' !! computedPosition n2
      = Some (mkPosition (CANVAS_PADDING + HORIZONTAL_SPACING) CANVAS_PADDING).
Proof.
  intros Hne Hp1 Hp2 Hs1 Hs2 Hpos Hfuel.
  unfold computeLayout. rewrite couple_generations by done.
  set (generations := <[id P2 := 0]> (<[id P1 := 0]> ∅) : gmap string nat).
  assert (E1 : generations !! id P1 = Some 0)
    by (unfold generations; by rewrite lookup_insert_ne, lookup_insert_eq).
  assert (E2 : generations !! id P2 = Some 0)
    by (unfold generations; by rewrite lookup_insert_eq).
  assert (Hmax : maxGenerationOf generations = 0).
  { apply Nat.le_0_r, maxGenerationOf_le. intros k g.
    unfold generations. rewrite !lookup_insert. repeat case_decide; naive_solver. }
  rewrite Hmax. cbn [seq rev app fold_left Nat.eqb].
  fold generations. rewrite couple_groups by done.
  cbn [default from_option Datatypes.id].
  set (pos1 := mkPosition CANVAS_PADDING (yOfGeneration 0)).
  set (pos2 := mkPosition (CANVAS_PADDING + CHILD_SPACING) (yOfGeneration 0)).
  assert (Hbottom :
    placeBottom localeCompare 0 [P1; P2] (mkPlacement s ∅ ∅)
    = mkPlacement ((s ++ [pos1]) ++ [pos2])
        (<[id P2 := length (s ++ [pos1])]> (<[id P1 := length s]> ∅))
        ({[id P2]} ∪ ({[id P1]} ∪ ∅))).
  { unfold placeBottom. rewrite bottomGroups_orphans by (by repeat constructor).
    cbn [placeGroups]. rewrite couple_sorted by done. unfold placeGroup. cbn [fold_left].
    cbn [positionedIds]. rewrite bool_decide_eq_false_2 by set_solver.
    unfold setPosition at 2. cbn [alloc store nodePositions positionedIds].
    rewrite bool_decide_eq_false_2 by set_solver.
    unfold setPosition. cbn [alloc store nodePositions positionedIds fst]. done. }
  rewrite Hbottom. cbn [nodePositions store].
  unfold makeNode. rewrite E1, E2. cbn [default from_option Datatypes.id].
  rewrite lookup_insert_ne, !lookup_insert_eq by done.
  set (r1 := length s). set (r2 := length (s ++ [pos1])).
  set (s1 := (s ++ [pos1]) ++ [pos2]).
  assert (Hr1 : s1 !! r1 = Some pos1).
  { unfold s1, r1. rewrite lookup_app_l by (rewrite length_app; simpl; lia).
    by rewrite lookup_app_r, Nat.sub_diag by lia. }
  assert (Hr2 : s1 !! r2 = Some pos2).
  { unfold s1, r2. by rewrite lookup_app_r, Nat.sub_diag by lia. }
  assert (Hc1 : match position P1 with
                | Some manual => if negb autoAlign then manual else r1
                | None => r1
                end = r1).
  { destruct Hpos as [->|[-> _]]; [by destruct (position P1) | done]. }
  assert (Hc2 : match position P2 with
                | Some manual => if negb autoAlign then manual else r2
                | None => r2
                end = r2).
  { destruct Hpos as [->|[_ ->]]; [by destruct (position P2) | done]. }
  rewrite Hc1, Hc2. cbn [app].
  rewrite normalize_noop.
  - do 5 eexists. split; [done|]. cbn [person generation computedPosition].
    split_and!; [done..| |]; [by rewrite Hr1 | by rewrite Hr2].
  - intros n Hn. unfold readX.
    repeat (apply elem_of_cons in Hn as [->|Hn]); [..|by apply elem_of_nil in Hn];
      cbn [computedPosition]; [rewrite Hr1 | rewrite Hr2]; by vm_compute.
Qed.

Lemma computeLayout_couple_witness :
  exists s' n1 n2 w h,
    computeLayout compareStrings 10 [] [coupleP1; coupleP2] true
      = Ret (s', mkLayout [n1; n2] w h) /\
    person n1 = coupleP1 /\ person n2 = coupleP2 /\
    generation n1 = 0 /\ generation n2 = 0 /\
    s' !! computedPosition n1 = Some (mkPosition CANVAS_PADDING CANVAS_PADDING) /\
    s' !! computedPosition n2
      = Some (mkPosition (CANVAS_PADDING + HORIZONTAL_SPACING) CANVAS_PADDING).
Proof.
  apply (computeLayout_couple compareStrings 10 [] coupleP1 coupleP2 true);
    [done..|by left|lia].
Defined.


(** * Further properties *)

(** ** The cycle guard, exactly *)

Lemma ancestorsLoop_true (people : list Person) (childId start : string)
    (fuel : nat) :
  forall (queue : list string) (visited : gset string),
    (forall x, x ∈ queue -> rtc (parentStep people) start x) ->
    ancestorsLoop fuel (peopleMapOf people) childId queue visited = Ret true ->
    rtc (parentStep people) start childId.
Proof.
  induction fuel as [|fuel IH]; intros queue visited Hq; [done|].
  destruct queue as [|currentId queue]; [done|]. simpl.
  case_bool_decide as Hvis.
  { apply IH. intros x Hx. apply Hq. by right. }
  destruct (String.eqb_spec currentId childId) as [<-|Hne].
  { intros _. apply Hq. left. }
  apply IH. intros x [Hx|Hx]%elem_of_app; [apply Hq; by right|].
  destruct (peopleMapOf people !! currentId) as [p|] eqn:Ep; [|by apply elem_of_nil in Hx].
  eapply rtc_r; [apply Hq; left|]. by exists p.
Qed.

Lemma parentStep_reachUp (people : list Person) (childId x : string) :
  rtc (parentStep people) x childId -> reachUp people childId ∅ x.
Proof.
  induction 1 as [x|x y z (p & Hp & Hy) _ IH].
  - apply reachUp_here. set_solver.
  - apply (reachUp_step _ _ _ x y p); [set_solver|done..].
Qed.

(** What the guard answers, on every list. *)
Lemma wouldCreateCycle_spec (people : list Person) (childId potentialParentId : string) :
  exists b, wouldCreateCycle people childId potentialParentId = Ret b /\
            (b = true <-> rtc (parentStep people) potentialParentId childId).
Proof.
  destruct (wouldCreateCycle_returns people childId potentialParentId) as [b Hb].
  exists b. split; [done|]. revert Hb.
  unfold wouldCreateCycle, wouldCreateCycleFuel.
  destruct (String.eqb_spec childId potentialParentId) as [->|Hne].
  { intros [= <-]. split; [intros _; apply rtc_refl | done]. }
  destruct (descendantsLoop _ _ _ _ _); [|done]. intros Hb. split.
  - intros ->. eapply ancestorsLoop_true; [|exact Hb].
    intros x ->%list_elem_of_singleton. apply rtc_refl.
  - intros Hreach. destruct b; [done|]. exfalso. revert Hb.
    apply ancestorsLoop_finds. exists potentialParentId. split; [left|].
    by apply parentStep_reachUp.
Qed.

(** X1. [wouldCreateCycle] answers on every list, cyclic or with dangling ids,
    and it answers true exactly when the walk up from the candidate parent,
    through the [parentIds] of the persons that the map of the list holds,
    arrives at the child (at once when the two ids are equal). *)
Theorem wouldCreateCycle_exact (people : list Person)
    (childId potentialParentId : string) :
  exists b, wouldCreateCycle people childId potentialParentId = Ret b /\
            (b = true <-> rtc (parentStep people) potentialParentId childId).
Proof. apply wouldCreateCycle_spec. Qed.

(** ** The validation of a whole tree *)

Lemma withoutEdge_elem (people : list Person) (q : Person) (k : string) (p : Person) :
  p ∈ withoutEdge people q k <-> p ∈ people /\ (id p <> id q \/ k ∉ parentIds p).
Proof.
  unfold withoutEdge. rewrite list_elem_of_In, filter_In, <- list_elem_of_In.
  rewrite orb_true_iff, !negb_true_iff, String.eqb_neq, includes_false. done.
Qed.

Lemma NoDup_map_filter (f : Person -> bool) (people : list Person) :
  NoDup (map id people) -> NoDup (map id (List.filter f people)).
Proof.
  induction people as [|p people IH]; simpl; [done|].
  intros [Hp Hnd]%NoDup_cons. destruct (f p); simpl; [|by apply IH].
  apply NoDup_cons. split; [|by apply IH].
  intros (p' & Hid & Hin)%list_elem_of_fmap. apply Hp.
  apply list_elem_of_fmap. exists p'. split; [done|].
  apply list_elem_of_In, filter_In in Hin as [Hin _]. by apply list_elem_of_In.
Qed.

(** An upward walk inside a part of the list is a chain of parents of the
    list. *)
Lemma parentStep_parentOf (people part : list Person) (x c : string) :
  (forall p, p ∈ part -> p ∈ people) ->
  rtc (parentStep part) x c -> c ∈ map id people ->
  x ∈ map id people /\ rtc (parentOf people) c x.
Proof.
  intros Hsub Hwalk Hc. induction Hwalk as [x|x y z (p & Hp & Hy) _ IH]; [done|].
  destruct (IH Hc) as [Hyin Hzy]. apply peopleMapOf_Some in Hp as [Hp <-].
  apply Hsub in Hp. split; [apply list_elem_of_fmap; eauto|].
  eapply rtc_r; [exact Hzy|]. split; [done|]. by exists p.
Qed.

Lemma parentOf_parentStep (people : list Person) (c x : string) :
  NoDup (map id people) ->
  rtc (parentOf people) c x -> rtc (parentStep people) x c.
Proof.
  intros Hnd. induction 1 as [c|c y x (_ & p & Hp & <- & Hc) _ IH]; [done|].
  eapply rtc_r; [exact IH|]. exists p. split; [by apply peopleMapOf_unique | done].
Qed.

(** The walk up to the id of [q] does not need [q]: it stops at the first
    arrival. *)
Lemma parentStep_withoutEdge (people : list Person) (q : Person) (k x : string) :
  NoDup (map id people) ->
  rtc (parentStep people) x (id q) ->
  rtc (parentStep (withoutEdge people q k)) x (id q).
Proof.
  intros Hnd. remember (id q) as c eqn:Hc.
  induction 1 as [x|x y z (p & Hp & Hy) _ IH]; [done|].
  destruct (decide (x = z)) as [->|Hne]; [done|].
  eapply rtc_l; [|by apply IH]. exists p. split; [|done].
  apply peopleMapOf_Some in Hp as [Hp <-].
  apply peopleMapOf_unique; [by apply NoDup_map_filter|].
  apply withoutEdge_elem. split; [done|]. left. congruence.
Qed.

Lemma tc_last {A : Type} (R : relation A) (x z : A) :
  tc R x z -> exists y, rtc R x y /\ R y z.
Proof.
  induction 1 as [x z H|x y z H _ (w & Hyw & Hwz)].
  - exists x. split; [apply rtc_refl | done].
  - exists w. split; [by eapply rtc_l | done].
Qed.

(** A check of [validateTree] that answers true shows a cycle. *)
Lemma check_true_cycle (people : list Person) (q : Person) (k : string) :
  q ∈ people -> k ∈ parentIds q ->
  wouldCreateCycle (withoutEdge people q k) (id q) k = Ret true ->
  tc (parentOf people) (id q) (id q).
Proof.
  intros Hq Hk Hcheck.
  destruct (wouldCreateCycle_spec (withoutEdge people q k) (id q) k) as (b & Hb & Hiff).
  rewrite Hcheck in Hb. injection Hb as <-.
  destruct (parentStep_parentOf people (withoutEdge people q k) k (id q)) as [Hkin Hchain].
  - by intros p [Hp _]%withoutEdge_elem.
  - by apply Hiff.
  - apply list_elem_of_fmap. eauto.
  - eapply tc_rtc_l; [exact Hchain|]. apply tc_once. split; [done|]. by exists q.
Qed.

(** On a list with pairwise distinct ids a cycle makes a check answer
    true. *)
Lemma cycle_check_true (people : list Person) (i : string) :
  NoDup (map id people) -> tc (parentOf people) i i ->
  exists q k, q ∈ people /\ k ∈ parentIds q /\
    wouldCreateCycle (withoutEdge people q k) (id q) k = Ret true.
Proof.
  intros Hnd (k & Hik & (_ & q & Hq & <- & Hk))%tc_last.
  exists q, k. split_and!; [done..|].
  destruct (wouldCreateCycle_spec (withoutEdge people q k) (id q) k) as (b & Hb & Hiff).
  rewrite Hb. f_equal. apply Hiff.
  apply parentStep_withoutEdge; [done|]. by apply parentOf_parentStep.
Qed.

Lemma validateParents_spec (people : list Person) (q : Person) (ps : list string) :
  (validateParents people q ps = Ret None /\
   forall k, k ∈ ps -> wouldCreateCycle (withoutEdge people q k) (id q) k = Ret false) \/
  (exists v k, validateParents people q ps = Ret (Some v) /\ valid v = false /\
     is_Some (error v) /\ k ∈ ps /\
     wouldCreateCycle (withoutEdge people q k) (id q) k = Ret true).
Proof.
  induction ps as [|k ps IH]; simpl.
  - left. split; [done|]. intros k Hk. by apply elem_of_nil in Hk.
  - destruct (wouldCreateCycle_spec (withoutEdge people q k) (id q) k) as ([|] & Hb & _);
      rewrite Hb.
    + right. eexists _, k. split_and!; [done..|eauto|left|done].
    + destruct IH as [[-> Hall]|(v & k' & -> & ? & ? & ? & ?)].
      * left. split; [done|]. by intros k' [->|?]%elem_of_cons; [|apply Hall].
      * right. exists v, k'. split_and!; [done..|by right|done].
Qed.

Lemma validatePersons_spec (people l : list Person) :
  (validatePersons people l = Ret None /\
   forall q k, q ∈ l -> k ∈ parentIds q ->
     wouldCreateCycle (withoutEdge people q k) (id q) k = Ret false) \/
  (exists v q k, validatePersons people l = Ret (Some v) /\ valid v = false /\
     is_Some (error v) /\ q ∈ l /\ k ∈ parentIds q /\
     wouldCreateCycle (withoutEdge people q k) (id q) k = Ret true).
Proof.
  induction l as [|q l IH]; simpl.
  - left. split; [done|]. intros q k Hq. by apply elem_of_nil in Hq.
  - destruct (validateParents_spec people q (parentIds q))
      as [[-> Hall]|(v & k & -> & ? & ? & ? & ?)].
    + destruct IH as [[-> Hall']|(v & q' & k & -> & ? & ? & ? & ? & ?)].
      * left. split; [done|].
        intros q' k [->|?]%elem_of_cons ?; [by apply Hall | by apply Hall'].
      * right. exists v, q', k. split_and!; [done..|by right|done|done].
    + right. exists v, q, k. split_and!; [done..|left|done|done].
Qed.

(** X2. On a list with pairwise distinct ids, [validateTree] answers, and it
    answers valid (without an error text) exactly when no id is its own
    ancestor within the list; otherwise it answers invalid with an error
    text. *)
Theorem validateTree_acyclic (people : list Person) :
  NoDup (map id people) ->
  exists v, validateTree people = Ret v /\
    (valid v = true <-> acyclic people) /\
    (valid v = true -> error v = None) /\
    (valid v = false -> is_Some (error v)).
Proof.
  intros Hnd. unfold validateTree.
  destruct (validatePersons_spec people people)
    as [[-> Hall]|(v & q & k & -> & Hv & He & Hq & Hk & Hcheck)].
  - eexists. split; [done|]. simpl. split_and!; [|done..]. split; [|done].
    intros _ i Hi. destruct (cycle_check_true people i Hnd Hi) as (q & k & Hq & Hk & Hc).
    rewrite (Hall q k Hq Hk) in Hc. done.
  - exists v. split; [done|]. rewrite Hv. split_and!; [|done..]. split; [done|].
    intros Hacyc. exfalso. apply (Hacyc (id q)). by apply (check_true_cycle people q k).
Qed.

Lemma validateTree_acyclic_witness :
  exists v, validateTree [chainP1; chainP2; chainP3] = Ret v /\
    (valid v = true <-> acyclic [chainP1; chainP2; chainP3]) /\
    (valid v = true -> error v = None) /\
    (valid v = false -> is_Some (error v)).
Proof.
  apply (validateTree_acyclic [chainP1; chainP2; chainP3]).
  repeat (apply NoDup_cons; split); [set_solver..|apply NoDup_nil_2].
Defined.

(** ** The path search finds every connection *)

Lemma isChain_suffix (people : list Person) (l1 l2 : list string) :
  isChain people (l1 ++ l2) -> isChain people l2.
Proof.
  induction l1 as [|a l1 IH]; [done|]. intros H. apply IH.
  destruct l1 as [|b l1]; simpl in *; [by destruct l2; [|destruct H]|by destruct H].
Qed.

(** A chain can be cut down to one without repeated ids. *)
Lemma chain_simple (people : list Person) (l : list string) (a b : string) :
  head l = Some a -> last l = Some b -> isChain people l ->
  exists s, head s = Some a /\ last s = Some b /\ isChain people s /\ NoDup s.
Proof.
  revert a. induction l as [|x l IH]; intros a Hhd Hlast Hch; [done|].
  injection Hhd as ->. destruct l as [|y l].
  { exists [a]. split_and!; [done..|apply NoDup_singleton]. }
  destruct Hch as [Hadj Hch].
  destruct (IH y eq_refl Hlast Hch) as (s & Hs1 & Hs2 & Hs3 & Hs4).
  destruct (decide (a ∈ s)) as [Hin|Hnin].
  - apply list_elem_of_split in Hin as (l1 & l2 & ->).
    exists (a :: l2). split_and!; [done| | |].
    + rewrite last_app in Hs2. destruct (last (a :: l2)) eqn:E; [done|].
      by apply last_None in E.
    + by apply isChain_suffix in Hs3.
    + by apply NoDup_app in Hs4 as (_ & _ & ?).
  - exists (a :: s). destruct s as [|y' s]; [done|]. injection Hs1 as ->.
    split_and!; [done..| |by apply NoDup_cons].
    by split.
Qed.

Lemma firstPath_found (search : string -> fuelled (option (list string)))
    (l : list string) (n : string) :
  n ∈ l -> search n <> Ret None -> firstPath search l <> Ret None.
Proof.
  induction l as [|m l IH]; intros Hn Hs; [by apply elem_of_nil in Hn|].
  simpl. destruct (search m) as [[r|]|] eqn:E; [done| |done].
  apply elem_of_cons in Hn as [->|Hn]; [done|]. by apply IH.
Qed.

(** With a chain of unvisited, pairwise distinct ids ahead, the search does
    not give up. *)
Lemma findPath_complete (people : list Person) (toId : string) (fuel : nat) :
  forall (fromId : string) (visited : gset string) (path0 s : list string),
    head s = Some fromId -> last s = Some toId -> isChain people s -> NoDup s ->
    (forall i, i ∈ s -> i ∉ visited) ->
    findPath fuel people fromId toId visited path0 <> Ret None.
Proof.
  induction fuel as [|fuel IH]; intros fromId visited path0 s Hhd Hlast Hch Hnd Hfresh;
    [done|].
  simpl. destruct (String.eqb_spec fromId toId) as [->|Hne]; [done|].
  destruct s as [|x s]; [done|]. injection Hhd as ->.
  rewrite bool_decide_eq_false_2 by (apply Hfresh; left).
  destruct s as [|n s]; [by injection Hlast as ->|].
  destruct Hch as [(current & Hfind & Hadj) Hch]. rewrite Hfind.
  apply NoDup_cons in Hnd as [Hx Hnd].
  set (search := fun n => findPath fuel people n toId ({[fromId]} ∪ visited)
                            (path0 ++ [fromId])).
  assert (Hs : search n <> Ret None).
  { apply (IH _ _ _ (n :: s)); [done..|].
    intros i Hi. apply not_elem_of_union. split; [set_solver|]. apply Hfresh. by right. }
  destruct (firstPath search (parentIds current)) as [[r1|]|] eqn:E1; [done| |done].
  destruct (firstPath search (childIds current)) as [[r2|]|] eqn:E2; [done| |done].
  destruct Hadj as [Hn|[Hn|Hn]].
  - by destruct (firstPath_found search _ n Hn Hs).
  - by destruct (firstPath_found search _ n Hn Hs).
  - by apply (firstPath_found search _ n Hn Hs).
Qed.

(** X4. Whenever some path of stored parent, child or spouse edges leads from
    the first person to the second, [findRelationship] answers a relationship
    whose path starts at the first and ends at the second id: the search is
    complete, it never answers that there is no relationship while one
    exists. *)
Theorem findRelationship_connected (people : list Person) (A B : Person) :
  id A <> id B ->
  connected people (id A) (id B) ->
  exists r, findRelationship people A B = Ret r /\
            head (path r) = Some (id A) /\ last (path r) = Some (id B).
Proof.
  intros Hne (l & Hhd & Hlast & Hch).
  destruct (chain_simple people l _ _ Hhd Hlast Hch) as (s & Hs1 & Hs2 & Hs3 & Hs4).
  destruct (findRelationship_cases people A B Hne) as [[Hnone _]|(p & r & Hp & Hr & <- & _)].
  - exfalso. revert Hnone. by apply (findPath_complete _ _ _ _ _ _ s).
  - exists r. split; [done|].
    by apply findPath_top_sound in Hp as (? & ? & _).
Qed.

Lemma findRelationship_connected_witness :
  exists r, findRelationship [chainP1; chainP2; chainP3] chainP3 chainP1 = Ret r /\
            head (path r) = Some "P3" /\ last (path r) = Some "P1".
Proof.
  apply (findRelationship_connected [chainP1; chainP2; chainP3] chainP3 chainP1);
    [done|].
  exists ["P3"; "P2"; "P1"]. split_and!; [done..|]. simpl. split_and!; [| |done].
  - exists chainP3. split; [done|]. left. simpl. set_solver.
  - exists chainP2. split; [done|]. left. simpl. set_solver.
Defined.

(** ** The updates of the editor *)

Lemma fold_map_person (f : string -> Person -> Person) (targets : list string)
    (l : list Person) :
  fold_left (fun np t => map (f t) np) targets l
  = map (fun p => fold_left (fun q t => f t q) targets p) l.
Proof.
  revert l. induction targets as [|t targets IH]; intros l; simpl.
  - by rewrite List.map_id.
  - by rewrite IH, List.map_map.
Qed.

Lemma Forall2_map_r (R : Person -> Person -> Prop) (g : Person -> Person)
    (l : list Person) :
  (forall p, R p (g p)) -> Forall2 R l (map g l).
Proof. intros H. induction l; simpl; by constructor. Qed.

Lemma Forall2_elem_r (R : Person -> Person -> Prop) (l k : list Person) (q : Person) :
  Forall2 R l k -> q ∈ k -> exists p, p ∈ l /\ R p q.
Proof.
  induction 1 as [|p q' l k HR _ IH]; intros Hq; [by apply elem_of_nil in Hq|].
  apply elem_of_cons in Hq as [->|Hq].
  - exists p. split; [left | done].
  - destruct (IH Hq) as (p' & ? & ?). exists p'. split; [by right | done].
Qed.

Lemma Forall2_elem_l (R : Person -> Person -> Prop) (l k : list Person) (p : Person) :
  Forall2 R l k -> p ∈ l -> exists q, q ∈ k /\ R p q.
Proof.
  induction 1 as [|p' q l k HR _ IH]; intros Hp; [by apply elem_of_nil in Hp|].
  apply elem_of_cons in Hp as [->|Hp].
  - exists q. split; [left | done].
  - destruct (IH Hp) as (q' & ? & ?). exists q'. split; [by right | done].
Qed.

Lemma Forall2_ids (R : Person -> Person -> Prop) (l k : list Person) :
  Forall2 R l k -> (forall p q, R p q -> id q = id p) -> map id k = map id l.
Proof.
  intros H Hid. induction H as [|p q l k HR _ IH]; simpl; [done|].
  by rewrite IH, (Hid p q HR).
Qed.

Lemma mirrored_refl (i : string) (p : Person) : mirrored i [] [] [] p p.
Proof.
  split_and!; [done|intros x..];
    (split; [by left | intros [?|[_ H]]; [done | by apply elem_of_nil in H]]).
Qed.

Lemma mirrored_trans (i : string) (ps cs ss ps' cs' ss' : list string)
    (p q r : Person) :
  mirrored i ps cs ss p q -> mirrored i ps' cs' ss' q r ->
  mirrored i (ps ++ ps') (cs ++ cs') (ss ++ ss') p r.
Proof.
  intros (Hid & Hc & Hp & Hs) (Hid' & Hc' & Hp' & Hs').
  split_and!; [congruence|intros x..].
  - rewrite Hc', Hc, Hid, elem_of_app. tauto.
  - rewrite Hp', Hp, Hid, elem_of_app. tauto.
  - rewrite Hs', Hs, Hid, elem_of_app. tauto.
Qed.

Lemma linkChild_mirrored (i t : string) (p : Person) :
  mirrored i [t] [] [] p (linkChild i t p).
Proof.
  unfold linkChild.
  destruct (String.eqb_spec (id p) t) as [Ht|Ht];
    destruct (includes (childIds p) i) eqn:E; simpl;
    (split_and!; [done|intros x; simpl..]);
    rewrite ?elem_of_app, ?list_elem_of_singleton, ?elem_of_nil;
    try apply includes_true in E; try tauto.
  - split; [by left | intros [?|[-> _]]; done].
Qed.

Lemma linkParent_mirrored (i t : string) (p : Person) :
  mirrored i [] [t] [] p (linkParent i t p).
Proof.
  unfold linkParent.
  destruct (String.eqb_spec (id p) t) as [Ht|Ht];
    destruct (includes (parentIds p) i) eqn:E; simpl;
    (split_and!; [done|intros x; simpl..]);
    rewrite ?elem_of_app, ?list_elem_of_singleton, ?elem_of_nil;
    try apply includes_true in E; try tauto.
  - split; [by left | intros [?|[-> _]]; done].
Qed.

Lemma linkSpouse_mirrored (i t : string) (p : Person) :
  mirrored i [] [] [t] p (linkSpouse i t p).
Proof.
  unfold linkSpouse.
  destruct (String.eqb_spec (id p) t) as [Ht|Ht];
    destruct (includes (spouseIds p) i) eqn:E; simpl;
    (split_and!; [done|intros x; simpl..]);
    rewrite ?elem_of_app, ?list_elem_of_singleton, ?elem_of_nil;
    try apply includes_true in E; try tauto.
  - split; [by left | intros [?|[-> _]]; done].
Qed.

Lemma linkChildren_mirrored (i : string) (targets : list string) (p : Person) :
  mirrored i targets [] [] p (fold_left (fun q t => linkChild i t q) targets p).
Proof.
  revert p. induction targets as [|t targets IH]; intros p; [apply mirrored_refl|].
  simpl. apply (mirrored_trans i [t] [] [] targets [] [] _ _ _ (linkChild_mirrored i t p)).
  apply IH.
Qed.

Lemma linkParents_mirrored (i : string) (targets : list string) (p : Person) :
  mirrored i [] targets [] p (fold_left (fun q t => linkParent i t q) targets p).
Proof.
  revert p. induction targets as [|t targets IH]; intros p; [apply mirrored_refl|].
  simpl. apply (mirrored_trans i [] [t] [] [] targets [] _ _ _ (linkParent_mirrored i t p)).
  apply IH.
Qed.

Lemma linkSpouses_mirrored (i : string) (targets : list string) (p : Person) :
  mirrored i [] [] targets p (fold_left (fun q t => linkSpouse i t q) targets p).
Proof.
  revert p. induction targets as [|t targets IH]; intros p; [apply mirrored_refl|].
  simpl. apply (mirrored_trans i [] [] [t] [] [] targets _ _ _ (linkSpouse_mirrored i t p)).
  apply IH.
Qed.

(** Person by person, [handleDialogAdd] adds the mirror entries of the new
    person and nothing else. *)
Lemma handleDialogAdd_mirrored (prev : list Person) (person : Person) :
  Forall2 (mirrored (id person) (parentIds person) (childIds person) (spouseIds person))
    (prev ++ [person]) (handleDialogAdd prev person).
Proof.
  unfold handleDialogAdd. rewrite !fold_map_person, !List.map_map.
  apply Forall2_map_r. intros p.
  pose proof (mirrored_trans _ _ _ _ _ _ _ _ _ _
    (mirrored_trans _ _ _ _ _ _ _ _ _ _
       (linkChildren_mirrored (id person) (parentIds person) p)
       (linkParents_mirrored (id person) (childIds person) _))
    (linkSpouses_mirrored (id person) (spouseIds person) _)) as H.
  by rewrite !app_nil_r in H.
Qed.

(** Person by person, [handleUpdatePerson] replaces the person of the id and
    adds the mirror entries of the update. *)
Lemma handleUpdatePerson_mirrored (prev : list Person) (u : Person) :
  Forall2 (fun p q =>
             mirrored (id u) (parentIds u) (childIds u) (spouseIds u)
               (if String.eqb (id p) (id u) then u else p) q)
    prev (handleUpdatePerson prev u).
Proof.
  unfold handleUpdatePerson. rewrite !fold_map_person, !List.map_map.
  apply Forall2_map_r. intros p.
  pose proof (mirrored_trans _ _ _ _ _ _ _ _ _ _
    (mirrored_trans _ _ _ _ _ _ _ _ _ _
       (linkSpouses_mirrored (id u) (spouseIds u) (if String.eqb (id p) (id u) then u else p))
       (linkParents_mirrored (id u) (childIds u) _))
    (linkChildren_mirrored (id u) (parentIds u) _)) as H.
  by rewrite !app_nil_r in H.
Qed.

(** X5. [handleDialogAdd] with a person whose id is new and not yet referred
    to appends the person, keeps the ids of the others in their order, and
    keeps the relation arrays mirrored: parents list their children and
    spouses list each other, the new person included. *)
Theorem handleDialogAdd_symmetric (prev : list Person) (person : Person) :
  id person ∉ map id prev ->
  (forall p, p ∈ prev ->
     (id person ∉ parentIds p) /\ (id person ∉ childIds p) /\
     (id person ∉ spouseIds p)) ->
  symmetricRefs prev ->
  map id (handleDialogAdd prev person) = map id prev ++ [id person] /\
  symmetricRefs (handleDialogAdd prev person).
Proof.
  intros Hfresh Hunref Hsym.
  pose proof (handleDialogAdd_mirrored prev person) as Hall. split.
  { rewrite (Forall2_ids _ _ _ Hall), List.map_app; [done|]. by intros p q [? _]. }
  intros p' q' Hp' Hq'.
  destruct (Forall2_elem_r _ _ _ _ Hall Hp') as (p & Hp & Hidp & Hcp & Hpp & Hsp).
  destruct (Forall2_elem_r _ _ _ _ Hall Hq') as (q & Hq & Hidq & Hcq & Hpq & Hsq).
  rewrite Hidp, Hidq, Hpp, Hcq, Hsp, Hsq.
  assert (Hold : forall r, r ∈ prev -> id r <> id person).
  { intros r Hr Heq. apply Hfresh. apply list_elem_of_fmap. eauto. }
  apply elem_of_app in Hp as [Hp| ->%list_elem_of_singleton];
    apply elem_of_app in Hq as [Hq| ->%list_elem_of_singleton].
  - destruct (Hsym p q Hp Hq) as [H1 H2].
    pose proof (Hold p Hp). pose proof (Hold q Hq). tauto.
  - destruct (Hunref p Hp) as (? & ? & ?). pose proof (Hold p Hp). tauto.
  - destruct (Hunref q Hq) as (? & ? & ?). pose proof (Hold q Hq). tauto.
  - tauto.
Qed.

Lemma handleDialogAdd_symmetric_witness :
  map id (handleDialogAdd [coupleP1; coupleP2]
       (withParents ["P1"; "P2"] (createEmptyPerson "K")))
    = ["P1"; "P2"; "K"] /\
  symmetricRefs
    (handleDialogAdd [coupleP1; coupleP2]
       (withParents ["P1"; "P2"] (createEmptyPerson "K"))).
Proof.
  apply (handleDialogAdd_symmetric [coupleP1; coupleP2]
           (withParents ["P1"; "P2"] (createEmptyPerson "K"))).
  - simpl. set_solver.
  - intros p Hp.
    repeat (apply elem_of_cons in Hp as [->|Hp]); [..|by apply elem_of_nil in Hp];
      simpl; set_solver.
  - intros p q Hp Hq.
    repeat (apply elem_of_cons in Hp as [->|Hp]); [..|by apply elem_of_nil in Hp];
      repeat (apply elem_of_cons in Hq as [->|Hq]); [..|by apply elem_of_nil in Hq];
      simpl; set_solver.
Defined.

(** X6. [handleDialogAdd] leaves no reference dangling when there was none and
    the arrays of the new person name persons of the list or the person
    itself. *)
Theorem handleDialogAdd_closed (prev : list Person) (person : Person) :
  closedRefs prev ->
  (forall i, i ∈ parentIds person \/ i ∈ childIds person \/ i ∈ spouseIds person ->
     i ∈ (map id prev ++ [id person])) ->
  closedRefs (handleDialogAdd prev person).
Proof.
  intros Hclosed Hnew.
  pose proof (handleDialogAdd_mirrored prev person) as Hall.
  assert (Hids : map id (handleDialogAdd prev person) = map id prev ++ [id person]).
  { rewrite (Forall2_ids _ _ _ Hall), List.map_app; [done|]. by intros p q [? _]. }
  intros p' i Hp' Hi. rewrite Hids.
  destruct (Forall2_elem_r _ _ _ _ Hall Hp') as (p & Hp & Hidp & Hcp & Hpp & Hsp).
  rewrite Hpp, Hcp, Hsp in Hi.
  assert (Hi' : (i ∈ parentIds p \/ i ∈ childIds p \/ i ∈ spouseIds p) \/ i = id person)
    by tauto.
  destruct Hi' as [Hin | ->]; [|set_solver].
  apply elem_of_app in Hp as [Hp| ->%list_elem_of_singleton]; [|by apply Hnew].
  apply elem_of_app. left. by apply (Hclosed p).
Qed.

Lemma handleDialogAdd_closed_witness :
  closedRefs
    (handleDialogAdd [coupleP1; coupleP2]
       (withParents ["P1"; "P2"] (createEmptyPerson "K"))).
Proof.
  apply (handleDialogAdd_closed [coupleP1; coupleP2]
           (withParents ["P1"; "P2"] (createEmptyPerson "K"))).
  - intros p i Hp.
    repeat (apply elem_of_cons in Hp as [->|Hp]); [..|by apply elem_of_nil in Hp];
      simpl; set_solver.
  - simpl. set_solver.
Defined.

(** X7. [handleUpdatePerson] keeps every id in its place, and after it every
    person that the update names as spouse, as child or as parent lists the
    updated person in return. *)
Theorem handleUpdatePerson_links (prev : list Person) (updatedPerson : Person) :
  map id (handleUpdatePerson prev updatedPerson) = map id prev /\
  forall q, q ∈ handleUpdatePerson prev updatedPerson ->
    (id q ∈ spouseIds updatedPerson -> id updatedPerson ∈ spouseIds q) /\
    (id q ∈ childIds updatedPerson -> id updatedPerson ∈ parentIds q) /\
    (id q ∈ parentIds updatedPerson -> id updatedPerson ∈ childIds q).
Proof.
  pose proof (handleUpdatePerson_mirrored prev updatedPerson) as Hall. split.
  { apply (Forall2_ids _ _ _ Hall). intros p q [-> _].
    by destruct (String.eqb_spec (id p) (id updatedPerson)). }
  intros q Hq.
  destruct (Forall2_elem_r _ _ _ _ Hall Hq) as (p & Hp & Hid & Hc & Hpa & Hs).
  rewrite Hs, Hpa, Hc, Hid. tauto.
Qed.

(** X8. [handleUpdatePerson] adds mirror entries and removes none. On a list
    with mirrored arrays that holds the updated id, the arrays are mirrored
    after the update exactly when the update drops no link that another
    person still lists: a parent, child or spouse that the form has removed
    keeps its entry for the updated person. *)
Theorem handleUpdatePerson_symmetric (prev : list Person) (updatedPerson old : Person) :
  symmetricRefs prev -> old ∈ prev -> id old = id updatedPerson ->
  symmetricRefs (handleUpdatePerson prev updatedPerson) <->
  (forall p, p ∈ prev -> id p <> id updatedPerson ->
     (id updatedPerson ∈ childIds p -> id p ∈ parentIds updatedPerson) /\
     (id updatedPerson ∈ parentIds p -> id p ∈ childIds updatedPerson) /\
     (id updatedPerson ∈ spouseIds p -> id p ∈ spouseIds updatedPerson)).
Proof.
  intros Hsym Hold Hidold.
  pose proof (handleUpdatePerson_mirrored prev updatedPerson) as Hall. split.
  - intros Hnext p Hp Hne.
    destruct (Forall2_elem_l _ _ _ _ Hall Hp) as (q & Hq & Hm).
    destruct (Forall2_elem_l _ _ _ _ Hall Hold) as (u & Hu & Hmu).
    apply String.eqb_neq in Hne as Hne'. rewrite Hne' in Hm.
    rewrite Hidold, String.eqb_refl in Hmu.
    destruct Hm as (Hidq & Hcq & Hpq & Hsq). destruct Hmu as (Hidu & Hcu & Hpu & Hsu).
    destruct (Hnext u q Hu Hq) as [H1 H2]. destruct (Hnext q u Hq Hu) as [H3 _].
    rewrite Hidq, Hidu, Hpu, Hcq, Hsu, Hsq in *. rewrite Hpq, Hcu in H3.
    tauto.
  - intros Hkept p' q' Hp' Hq'.
    destruct (Forall2_elem_r _ _ _ _ Hall Hp') as (p & Hp & Hidp & Hcp & Hpp & Hsp).
    destruct (Forall2_elem_r _ _ _ _ Hall Hq') as (q & Hq & Hidq & Hcq & Hpq & Hsq).
    rewrite Hidp, Hidq, Hpp, Hcq, Hsp, Hsq. clear Hcp Hpq Hidp Hidq.
    destruct (String.eqb_spec (id p) (id updatedPerson)) as [Hep|Hnp];
      destruct (String.eqb_spec (id q) (id updatedPerson)) as [Heq|Hnq].
    + tauto.
    + destruct (Hkept q Hq Hnq) as (? & ? & ?). tauto.
    + destruct (Hkept p Hp Hnp) as (? & ? & ?). tauto.
    + destruct (Hsym p q Hp Hq) as [? ?]. tauto.
Qed.

Lemma handleUpdatePerson_symmetric_witness :
  symmetricRefs (handleUpdatePerson [chainP1; chainP2; chainP3]
                   (withParents [] chainP2)) <->
  (forall p, p ∈ [chainP1; chainP2; chainP3] -> id p <> "P2" ->
     ("P2" ∈ childIds p -> id p ∈ []) /\
     ("P2" ∈ parentIds p -> id p ∈ ["P3"]) /\
     ("P2" ∈ spouseIds p -> id p ∈ [])).
Proof.
  apply (handleUpdatePerson_symmetric [chainP1; chainP2; chainP3]
           (withParents [] chainP2) chainP2); [|set_solver|done].
  intros p q Hp Hq.
  repeat (apply elem_of_cons in Hp as [->|Hp]); [..|by apply elem_of_nil in Hp];
    repeat (apply elem_of_cons in Hq as [->|Hq]); [..|by apply elem_of_nil in Hq];
    simpl; set_solver.
Defined.

(** ** Deleting a person *)

Lemma handleDeletePerson_elem (prev : list Person) (personId : string) (q : Person) :
  q ∈ handleDeletePerson prev personId ->
  exists p, p ∈ prev /\ id p <> personId /\ id q = id p /\
    (forall x, x ∈ parentIds q <-> x ∈ parentIds p /\ x <> personId) /\
    (forall x, x ∈ childIds q <-> x ∈ childIds p /\ x <> personId) /\
    (forall x, x ∈ spouseIds q <-> x ∈ spouseIds p /\ x <> personId) /\
    (forall m, m ∈ marriages q <-> m ∈ marriages p /\ spouseId m <> personId).
Proof.
  unfold handleDeletePerson. intros (p & -> & Hp)%list_elem_of_fmap.
  apply list_elem_of_In, filter_In in Hp as [Hp Hne].
  apply list_elem_of_In in Hp. apply negb_true_iff, String.eqb_neq in Hne.
  exists p. split_and!; [done|done|done|..]; intros x;
    cbn [parentIds childIds spouseIds marriages];
    rewrite list_elem_of_In, filter_In, <- list_elem_of_In, negb_true_iff, String.eqb_neq;
    done.
Qed.

Lemma handleDeletePerson_kept (prev : list Person) (personId : string) (p : Person) :
  p ∈ prev -> id p <> personId -> id p ∈ map id (handleDeletePerson prev personId).
Proof.
  intros Hp Hne. unfold handleDeletePerson. rewrite List.map_map. cbn [id].
  apply list_elem_of_fmap. exists p. split; [done|].
  apply list_elem_of_In, filter_In. split; [by apply list_elem_of_In|].
  by apply negb_true_iff, String.eqb_neq.
Qed.

(** X9. After [handleDeletePerson] the ids are those of the list without the
    deleted one, in their order, and no person refers to the deleted id: not
    as a parent, a child or a spouse, and not in a marriage. *)
Theorem handleDeletePerson_clean (prev : list Person) (personId : string) :
  map id (handleDeletePerson prev personId)
    = List.filter (fun i => negb (String.eqb i personId)) (map id prev) /\
  forall p, p ∈ handleDeletePerson prev personId ->
    id p <> personId /\
    (personId ∉ parentIds p) /\ (personId ∉ childIds p) /\ (personId ∉ spouseIds p) /\
    forall m, m ∈ marriages p -> spouseId m <> personId.
Proof.
  split.
  - unfold handleDeletePerson. rewrite List.map_map. cbn [id].
    induction prev as [|p prev IH]; simpl; [done|].
    destruct (negb (String.eqb (id p) personId)); simpl; by rewrite IH.
  - intros q (p & Hp & Hne & Hid & Hpa & Hc & Hs & Hm)%handleDeletePerson_elem.
    split_and!; [congruence|rewrite ?Hpa, ?Hc, ?Hs; tauto..|].
    intros m Hin. by apply Hm in Hin as [_ ?].
Qed.

(** X10. [handleDeletePerson] leaves no reference dangling when there was
    none. *)
Theorem handleDeletePerson_closed (prev : list Person) (personId : string) :
  closedRefs prev -> closedRefs (handleDeletePerson prev personId).
Proof.
  intros Hclosed q i (p & Hp & Hne & Hid & Hpa & Hc & Hs & _)%handleDeletePerson_elem Hi.
  rewrite Hpa, Hc, Hs in Hi.
  assert (Hin : i ∈ map id prev) by (apply (Hclosed p); tauto).
  apply list_elem_of_fmap in Hin as (r & -> & Hr).
  apply handleDeletePerson_kept; [done|tauto].
Qed.

Lemma handleDeletePerson_closed_witness :
  closedRefs (handleDeletePerson [chainP1; chainP2; chainP3] "P2").
Proof.
  apply (handleDeletePerson_closed [chainP1; chainP2; chainP3] "P2").
  intros p i Hp.
  repeat (apply elem_of_cons in Hp as [->|Hp]); [..|by apply elem_of_nil in Hp];
    simpl; set_solver.
Defined.

(** X11. [handleDeletePerson] keeps the relation arrays mirrored. *)
Theorem handleDeletePerson_symmetric (prev : list Person) (personId : string) :
  symmetricRefs prev -> symmetricRefs (handleDeletePerson prev personId).
Proof.
  intros Hsym p' q'
    (p & Hp & Hnp & Hidp & Hpp & Hcp & Hsp & _)%handleDeletePerson_elem
    (q & Hq & Hnq & Hidq & Hpq & Hcq & Hsq & _)%handleDeletePerson_elem.
  rewrite Hpp, Hcq, Hsp, Hsq, Hidp, Hidq.
  destruct (Hsym p q Hp Hq) as [? ?]. tauto.
Qed.

Lemma handleDeletePerson_symmetric_witness :
  symmetricRefs (handleDeletePerson [chainP1; chainP2; chainP3] "P2").
Proof.
  apply (handleDeletePerson_symmetric [chainP1; chainP2; chainP3] "P2").
  intros p q Hp Hq.
  repeat (apply elem_of_cons in Hp as [->|Hp]); [..|by apply elem_of_nil in Hp];
    repeat (apply elem_of_cons in Hq as [->|Hq]); [..|by apply elem_of_nil in Hq];
    simpl; set_solver.
Defined.

(** ** The generation assignment below a cycle *)

(** The ids along a walk: each is the end of the walk or has a successor
    among them. *)
Lemma rtc_nodes {A : Type} (R : relation A) (x y : A) :
  rtc R x y ->
  exists L : list A, x ∈ L /\ forall t, t ∈ L -> t = y \/ exists d, d ∈ L /\ R t d.
Proof.
  induction 1 as [x|x x' y Hstep _ (L & Hx' & HL)].
  - exists [x]. split; [left|]. intros t ->%list_elem_of_singleton. by left.
  - exists (x :: L). split; [left|]. intros t [->|Ht]%elem_of_cons.
    + right. exists x'. split; [by right | done].
    + destruct (HL t Ht) as [->|(d & Hd & HR)]; [by left|].
      right. exists d. split; [by right | done].
Qed.

Lemma tc_first {A : Type} (R : relation A) (x y : A) :
  tc R x y -> exists w, R x w /\ rtc R w y.
Proof.
  induction 1 as [x y H|x w y H Hwy _].
  - exists y. split; [done | apply rtc_refl].
  - exists w. split; [done | by apply tc_rtc].
Qed.

(** A walk into a cycle gives a set of ids in which everyone has a
    successor. *)
Lemma lasso_nodes {A : Type} (R : relation A) (x z : A) :
  rtc R x z -> tc R z z ->
  exists T : list A, x ∈ T /\ forall t, t ∈ T -> exists d, d ∈ T /\ R t d.
Proof.
  intros (L1 & Hx & H1)%rtc_nodes (w & Hzw & (L2 & Hw & H2)%rtc_nodes)%tc_first.
  exists (L1 ++ L2). split; [apply elem_of_app; by left|].
  assert (Hz : exists d, d ∈ L1 ++ L2 /\ R z d).
  { exists w. split; [apply elem_of_app; by right | done]. }
  intros t [Ht|Ht]%elem_of_app.
  - destruct (H1 t Ht) as [->|(d & Hd & HR)]; [done|].
    exists d. split; [apply elem_of_app; by left | done].
  - destruct (H2 t Ht) as [->|(d & Hd & HR)]; [done|].
    exists d. split; [apply elem_of_app; by right | done].
Qed.

(** While the queue holds an id of such a set with a generation that no
    recorded generation of the set exceeds, the loop goes on: the entry, or a
    later one of the set with a larger generation, brings a child of the set
    into the queue. *)
Lemma generationsLoop_descent (people : list Person) (T : list string) :
  (forall t, t ∈ T -> exists d, d ∈ T /\ parentOf people t d) ->
  forall (fuel : nat) (queue : list (string * nat)) (generations : gmap string nat),
    (exists c g, (c, g) ∈ queue /\ c ∈ T /\
       forall t g', t ∈ T -> generations !! t = Some g' -> g' <= g) ->
    generationsLoop fuel (buildChildrenMap people) queue generations = NoFuel.
Proof.
  intros Hclosed. induction fuel as [|fuel IH]; intros queue generations
    (c & g & Hin & Hc & Hbound); [done|].
  destruct queue as [|[i gen] queue]; [by apply elem_of_nil in Hin|].
  simpl. apply IH.
  destruct (decide (i ∈ T /\ g <= gen)) as [[Hi Hle]|Hno].
  - destruct (Hclosed i Hi) as (d & Hd & (cs & Hcs & Hdcs)%isChild_iff).
    exists d, (gen + 1). rewrite Hcs. split_and!; [|done|].
    + apply elem_of_app. right. apply childrenToQueue_elem. split_and!; [done..|].
      destruct (raiseGeneration generations i gen !! d) as [cur|] eqn:E; [|done].
      apply raiseGeneration_inv in E as [E|[_ ->]]; [|lia].
      specialize (Hbound d cur Hd E). lia.
    + intros t g' Ht [E|[_ ->]]%raiseGeneration_inv; [|lia].
      specialize (Hbound t g' Ht E). lia.
  - exists c, g. split_and!; [|done|].
    + apply elem_of_app. left. apply elem_of_cons in Hin as [[= -> ->]|Hin]; [|done].
      destruct Hno. split; [done | lia].
    + intros t g' Ht [E|[-> ->]]%raiseGeneration_inv; [by apply (Hbound t)|].
      apply not_and_l in Hno as [?|?]; [done | lia].
Qed.

(** X12. Below a root that reaches a cycle of the parent relation the loop of
    [calculateGenerations] never ends: whatever the fuel, it is used up, and
    so it is for [computeLayout] and [computeAutoAlignPositions], which start
    with the generation assignment. *)
Theorem calculateGenerations_cycle (people : list Person) (r : Person) (z : string)
    (fuel : nat) :
  r ∈ people -> parentIds r = [] ->
  rtc (parentOf people) (id r) z -> tc (parentOf people) z z ->
  calculateGenerations fuel people = NoFuel /\
  forall localeCompare s,
    (forall autoAlign, computeLayout localeCompare fuel s people autoAlign = NoFuel) /\
    computeAutoAlignPositions localeCompare fuel s people = NoFuel.
Proof.
  intros Hr Hroot Hwalk Hcycle.
  destruct (lasso_nodes _ _ _ Hwalk Hcycle) as (T & HrT & Hclosed).
  assert (Hgen : calculateGenerations fuel people = NoFuel).
  { unfold calculateGenerations.
    rewrite (generationsLoop_descent people T Hclosed); [done|].
    exists (id r), 0. split_and!; [|done|by intros t g' _ ?].
    apply list_elem_of_fmap. exists r. split; [done|].
    apply list_elem_of_In, filter_In. split; [by apply list_elem_of_In|].
    by rewrite Hroot. }
  split; [done|]. intros localeCompare s.
  assert (Hlayout : forall autoAlign,
            computeLayout localeCompare fuel s people autoAlign = NoFuel).
  { intros autoAlign. unfold computeLayout. rewrite Hgen.
    destruct people; [by apply elem_of_nil in Hr | done]. }
  split; [done|]. unfold computeAutoAlignPositions. by rewrite Hlayout.
Qed.

Lemma calculateGenerations_cycle_witness :
  calculateGenerations 1000 [lassoR; lassoA; lassoB] = NoFuel /\
  forall localeCompare s,
    (forall autoAlign,
       computeLayout localeCompare 1000 s [lassoR; lassoA; lassoB] autoAlign = NoFuel) /\
    computeAutoAlignPositions localeCompare 1000 s [lassoR; lassoA; lassoB] = NoFuel.
Proof.
  apply (calculateGenerations_cycle [lassoR; lassoA; lassoB] lassoR "a" 1000);
    [set_solver|done| |].
  - apply rtc_once. split; [simpl; set_solver|].
    exists lassoA. split_and!; [set_solver|done|simpl; set_solver].
  - apply (tc_l _ _ "b"); [|apply tc_once].
    + split; [simpl; set_solver|].
      exists lassoB. split_and!; [set_solver|done|simpl; set_solver].
    + split; [simpl; set_solver|].
      exists lassoA. split_and!; [set_solver|done|simpl; set_solver].
Defined.

(** ** The layout, in general *)

Section LayoutFacts.
Variable localeCompare : string -> string -> Z.
Variable generations : gmap string nat.

Lemma placedFrom_trans (st1 st2 st3 : Placement) :
  placedFrom generations st1 st2 -> placedFrom generations st2 st3 ->
  placedFrom generations st1 st3.
Proof. intros H12. induction 1; [done|]. by constructor. Qed.

Lemma placeIfNew_placed (st : Placement) (p : Person) (pos : Position) :
  y pos = yOfGeneration (rowOf generations (id p)) ->
  placedFrom generations st (placeIfNew st p pos).
Proof.
  intros Hy. unfold placeIfNew. case_bool_decide; [constructor|].
  constructor; [constructor | done].
Qed.

Lemma placeUnit_placed (childrenMap : gmap string (list string)) (gen : nat)
    (st : Placement) (unit : list Person) :
  (forall p, p ∈ unit -> rowOf generations (id p) = gen) ->
  placedFrom generations st (placeUnit childrenMap (yOfGeneration gen) st unit).
Proof.
  intros Hrow. unfold placeUnit.
  destruct unit as [|p1 [|p2 [|p3 rest]]]; [constructor|..].
  - apply placeIfNew_placed. simpl. by rewrite Hrow by left.
  - eapply placedFrom_trans; apply placeIfNew_placed; simpl; rewrite Hrow; try done.
    + left.
    + right. left.
  - apply placeIfNew_placed. simpl. by rewrite Hrow by left.
Qed.

Lemma placeUnits_placed (childrenMap : gmap string (list string)) (gen : nat)
    (units : list (list Person)) :
  (forall unit p, unit ∈ units -> p ∈ unit -> rowOf generations (id p) = gen) ->
  forall st, placedFrom generations st
               (fold_left (placeUnit childrenMap (yOfGeneration gen)) units st).
Proof.
  induction units as [|unit units IH]; intros Hrow st; [constructor|].
  simpl. eapply placedFrom_trans.
  - apply (placeUnit_placed childrenMap gen st unit). intros p Hp.
    apply (Hrow unit); [left | done].
  - apply IH. intros u p Hu. apply (Hrow u). by right.
Qed.

Lemma placeGroup_placed (gen : nat) (sorted : list Person) :
  (forall p, p ∈ sorted -> rowOf generations (id p) = gen) ->
  forall st currentX,
    placedFrom generations st
      (fst (placeGroup (yOfGeneration gen) sorted (st, currentX))).
Proof.
  unfold placeGroup.
  induction sorted as [|p sorted IH]; intros Hrow st currentX; [constructor|].
  cbn [fold_left]. case_bool_decide.
  - apply IH. intros q Hq. apply Hrow. by right.
  - eapply placedFrom_trans; [|apply IH; intros q Hq; apply Hrow; by right].
    constructor; [constructor|]. simpl. by rewrite Hrow by left.
Qed.

Lemma insertBy_elem {A : Type} (cmp : A -> A -> Z) (a b : A) (sorted : list A) :
  b ∈ insertBy cmp a sorted -> b = a \/ b ∈ sorted.
Proof.
  induction sorted as [|c sorted IH]; simpl.
  - intros ->%list_elem_of_singleton. by left.
  - destruct (cmp a c <? 0)%Z.
    + intros [->|H]%elem_of_cons; [by left | by right].
    + intros [->|H]%elem_of_cons; [right; left|].
      destruct (IH H) as [->|?]; [by left | right; by right].
Qed.

Lemma sortBy_elem {A : Type} (cmp : A -> A -> Z) (l : list A) (b : A) :
  b ∈ sortBy cmp l -> b ∈ l.
Proof.
  unfold sortBy.
  assert (H : forall acc, b ∈ fold_left (fun sorted a => insertBy cmp a sorted) l acc ->
                          b ∈ l \/ b ∈ acc).
  { induction l as [|a l IH]; intros acc; simpl; [by right|].
    intros [Hb|Hb]%IH; [left; by right|].
    apply insertBy_elem in Hb as [->|Hb]; [left; left | by right]. }
  intros [Hb|Hb]%H; [done | by apply elem_of_nil in Hb].
Qed.

Lemma placeGroups_placed (gen : nat) (allGroups : list (list Person)) :
  (forall g p, g ∈ allGroups -> p ∈ g -> rowOf generations (id p) = gen) ->
  forall st currentX,
    placedFrom generations st
      (fst (placeGroups localeCompare (yOfGeneration gen) allGroups (st, currentX))).
Proof.
  induction allGroups as [|group rest IH]; intros Hrow st currentX; [constructor|].
  cbn [placeGroups].
  pose proof (placeGroup_placed gen (sortBy (compareSiblings localeCompare) group)) as Hg.
  destruct (placeGroup _ _ _) as [st1 x1] eqn:E.
  eapply placedFrom_trans.
  - specialize (Hg (fun p Hp => Hrow group p ltac:(left) (sortBy_elem _ _ _ Hp)) st currentX).
    rewrite E in Hg. exact Hg.
  - apply IH. intros g p Hgin. apply Hrow. by right.
Qed.

Lemma groupPush_elem (key : string) (person p : Person)
    (groups : list (string * list Person)) (k : string) (g : list Person) :
  (k, g) ∈ groupPush key person groups -> p ∈ g ->
  p = person \/ exists g', (k, g') ∈ groups /\ p ∈ g'.
Proof.
  induction groups as [|[k' g'] groups IH]; simpl.
  - intros [= -> ->]%list_elem_of_singleton ->%list_elem_of_singleton. by left.
  - destruct (String.eqb k' key).
    + intros [[= -> ->]|Hin]%elem_of_cons Hp.
      * apply elem_of_app in Hp as [Hp| ->%list_elem_of_singleton]; [|by left].
        right. exists g'. split; [left | done].
      * right. exists g. split; [by right | done].
    + intros [[= -> ->]|Hin]%elem_of_cons Hp.
      * right. exists g'. split; [left | done].
      * destruct (IH Hin Hp) as [->|(g2 & ? & ?)]; [by left|].
        right. exists g2. split; [by right | done].
Qed.

Lemma bottomGroups_elem (genPeople : list Person) (g : list Person) (p : Person) :
  g ∈ bottomGroups genPeople -> p ∈ g -> p ∈ genPeople.
Proof.
  unfold bottomGroups.
  assert (H : forall byParents orphans byParents' orphans',
            fold_left (fun '(byParents, orphans) person =>
                         if Nat.eqb (length (parentIds person)) 0
                         then (byParents, orphans ++ [person])
                         else (groupPush (joinSorted (parentIds person)) person byParents,
                               orphans))
              genPeople (byParents, orphans) = (byParents', orphans') ->
            (forall q, q ∈ orphans' -> q ∈ orphans \/ q ∈ genPeople) /\
            (forall k g' q, (k, g') ∈ byParents' -> q ∈ g' ->
               q ∈ genPeople \/ exists g2, (k, g2) ∈ byParents /\ q ∈ g2)).
  { induction genPeople as [|person genPeople IH]; intros byParents orphans byParents' orphans'.
    - intros [= <- <-]. split; [by left|]. intros k g' q ? ?. right. eauto.
    - cbn [fold_left]. destruct (Nat.eqb (length (parentIds person)) 0).
      + intros [H1 H2]%IH. split.
        * intros q [[Hq| ->%list_elem_of_singleton]%elem_of_app|Hq]%H1;
            [by left|right; left|right; by right].
        * intros k g' q Hk Hq. destruct (H2 k g' q Hk Hq) as [?|?]; [left; by right | by right].
      + intros [H1 H2]%IH. split.
        * intros q [Hq|Hq]%H1; [by left | right; by right].
        * intros k g' q Hk Hq.
          destruct (H2 k g' q Hk Hq) as [?|(g2 & Hg2 & Hq2)]; [left; by right|].
          destruct (groupPush_elem _ _ _ _ _ _ Hg2 Hq2) as [->|?]; [left; left | by right]. }
  destruct (fold_left _ genPeople ([], [])) as [byParents' orphans'] eqn:E.
  destruct (H _ _ _ _ E) as [H1 H2]. intros Hg Hp.
  assert (Hgroups : g ∈ map snd byParents' -> p ∈ genPeople).
  { intros ([k g'] & -> & Hin)%list_elem_of_fmap.
    destruct (H2 k g' p Hin Hp) as [?|(? & Hnil & _)]; [done | by apply elem_of_nil in Hnil]. }
  destruct (0 <? length orphans'); [|by apply Hgroups].
  apply elem_of_app in Hg as [Hg| ->%list_elem_of_singleton]; [by apply Hgroups|].
  destruct (H1 p Hp) as [Hnil|?]; [by apply elem_of_nil in Hnil | done].
Qed.

Lemma placeBottom_placed (gen : nat) (genPeople : list Person) (st : Placement) :
  (forall p, p ∈ genPeople -> rowOf generations (id p) = gen) ->
  placedFrom generations st (placeBottom localeCompare gen genPeople st).
Proof.
  intros Hrow. unfold placeBottom. apply placeGroups_placed.
  intros g p Hg Hp. apply Hrow. by apply (bottomGroups_elem genPeople g).
Qed.

Lemma addCouple_units (peopleMap : gmap string Person) (gen : nat) (person : Person)
    (acc : gset string * list (list Person)) (spouseId : string) :
  (forall k q, peopleMap !! k = Some q -> id q = k) ->
  rowOf generations (id person) = gen ->
  spouseId ∈ spousesInGen peopleMap generations gen person ->
  (forall unit p, unit ∈ snd acc -> p ∈ unit -> rowOf generations (id p) = gen) ->
  forall unit p, unit ∈ snd (addCouple peopleMap person acc spouseId) -> p ∈ unit ->
                 rowOf generations (id p) = gen.
Proof.
  intros Hmap Hperson Hspouse Hacc. destruct acc as [processedPairs units].
  unfold addCouple. case_bool_decide; [done|].
  destruct (peopleMap !! spouseId) as [spouse|] eqn:E; [|done].
  cbn [snd] in *. intros unit p [Hu| ->%list_elem_of_singleton]%elem_of_app Hp;
    [by apply (Hacc unit)|].
  apply elem_of_cons in Hp as [->|Hp]; [done|].
  apply list_elem_of_singleton in Hp as ->. rewrite (Hmap _ _ E).
  unfold spousesInGen in Hspouse.
  apply list_elem_of_In, filter_In in Hspouse as [_ Hf]. rewrite E in Hf.
  apply bool_decide_eq_true in Hf. unfold rowOf. by rewrite Hf.
Qed.

Lemma collectUnits_elem (peopleMap : gmap string Person) (gen : nat)
    (genPeople : list Person) (unit : list Person) (p : Person) :
  (forall k q, peopleMap !! k = Some q -> id q = k) ->
  (forall q, q ∈ genPeople -> rowOf generations (id q) = gen) ->
  unit ∈ collectUnits peopleMap generations gen genPeople -> p ∈ unit ->
  rowOf generations (id p) = gen.
Proof.
  intros Hmap Hgen. unfold collectUnits.
  set (good := fun acc : gset string * list (list Person) =>
         forall unit p, unit ∈ snd acc -> p ∈ unit -> rowOf generations (id p) = gen).
  assert (Hcouples : forall person spouses acc,
            rowOf generations (id person) = gen ->
            (forall i, i ∈ spouses -> i ∈ spousesInGen peopleMap generations gen person) ->
            good acc -> good (fold_left (addCouple peopleMap person) spouses acc)).
  { intros person spouses. induction spouses as [|i spouses IH]; intros acc Hp Hs Hacc;
      [done|].
    simpl. apply IH; [done|intros j Hj; apply Hs; by right|].
    unfold good. apply addCouple_units; [done..|apply Hs; left|done]. }
  assert (Hmulti : forall l acc, (forall q, q ∈ l -> q ∈ genPeople) -> good acc ->
            good (fold_left (fun acc person =>
                    let spouses := spousesInGen peopleMap generations gen person in
                    if 1 <? length spouses
                    then fold_left (addCouple peopleMap person) spouses acc
                    else acc) l acc)).
  { induction l as [|person l IH]; intros acc Hl Hacc; [done|].
    cbn [fold_left]. apply IH; [intros q Hq; apply Hl; by right|].
    cbv zeta. destruct (1 <? length _); [|done].
    apply Hcouples; [apply Hgen, Hl; left|done|done]. }
  assert (Hsingle : forall l acc, (forall q, q ∈ l -> q ∈ genPeople) -> good acc ->
            good (fold_left (fun acc person =>
                    match spousesInGen peopleMap generations gen person with
                    | [spouseId] => addCouple peopleMap person acc spouseId
                    | [] =>
                        let isInPair :=
                          List.existsb (fun key => stringIncludes key (id person))
                            (elements (fst acc)) in
                        if isInPair then acc else (fst acc, snd acc ++ [[person]])
                    | _ => acc
                    end) l acc)).
  { induction l as [|person l IH]; intros acc Hl Hacc; [done|].
    cbn [fold_left]. apply IH; [intros q Hq; apply Hl; by right|].
    destruct (spousesInGen peopleMap generations gen person) as [|i [|j rest]] eqn:E;
      [|unfold good; apply addCouple_units; [done|apply Hgen, Hl; left|rewrite E; left|done]|done].
    cbv zeta. destruct (List.existsb _ _); [done|].
    intros u q [Hu| ->%list_elem_of_singleton]%elem_of_app Hq; [by apply (Hacc u)|].
    apply list_elem_of_singleton in Hq as ->. apply Hgen, Hl. left. }
  intros Hu Hp. eapply (Hsingle genPeople _ (fun q Hq => Hq)); [|exact Hu|exact Hp].
  apply Hmulti; [done|]. intros u q Hnil. by apply elem_of_nil in Hnil.
Qed.

Lemma placeUpper_placed (peopleMap : gmap string Person)
    (childrenMap : gmap string (list string)) (gen : nat)
    (genPeople : list Person) (st : Placement) :
  (forall k q, peopleMap !! k = Some q -> id q = k) ->
  (forall p, p ∈ genPeople -> rowOf generations (id p) = gen) ->
  placedFrom generations st
    (placeUpper peopleMap childrenMap generations gen genPeople st).
Proof.
  intros Hmap Hrow. unfold placeUpper. apply placeUnits_placed.
  intros unit p Hu Hp. by apply (collectUnits_elem peopleMap gen genPeople unit).
Qed.

Lemma groupByGeneration_elem (people : list Person) (gen : nat) (l : list Person)
    (p : Person) :
  groupByGeneration people generations !! gen = Some l -> p ∈ l ->
  rowOf generations (id p) = gen.
Proof.
  unfold groupByGeneration.
  assert (H : forall groups : gmap nat (list Person),
            (forall g l' q, groups !! g = Some l' -> q ∈ l' -> rowOf generations (id q) = g) ->
            forall g l' q,
              fold_left (fun groups person =>
                           let gen := default 0 (generations !! id person) in
                           <[gen := default [] (groups !! gen) ++ [person]]> groups)
                people groups !! g = Some l' -> q ∈ l' -> rowOf generations (id q) = g).
  { induction people as [|person people IH]; intros groups Hgroups; [done|].
    cbn [fold_left]. apply IH. cbv zeta. intros g l' q.
    destruct (decide (default 0 (generations !! id person) = g)) as [<-|Hne].
    - rewrite lookup_insert_eq. intros [= <-] [Hq| ->%list_elem_of_singleton]%elem_of_app;
        [|done].
      destruct (groups !! _) as [l0|] eqn:E; [|by apply elem_of_nil in Hq].
      by apply (Hgroups _ l0).
    - rewrite lookup_insert_ne by done. apply Hgroups. }
  apply H. intros g l' q Hnil. by rewrite lookup_empty in Hnil.
Qed.

(** All rows are placed by [setPosition] steps, each on the row of its id. *)
Lemma placement_placed (people : list Person) (gens : list nat) (n : nat) :
  forall st,
    placedFrom generations st
      (fold_left (fun st gen =>
                    let genPeople :=
                      default [] (groupByGeneration people generations !! gen) in
                    if Nat.eqb gen n
                    then placeBottom localeCompare gen genPeople st
                    else placeUpper (peopleMapOf people)
                           (buildChildrenMap people) generations gen genPeople st)
         gens st).
Proof.
  induction gens as [|gen gens IH]; intros st; [constructor|].
  cbn [fold_left]. eapply placedFrom_trans; [|apply IH]. cbv zeta.
  assert (Hrow : forall p,
            p ∈ default [] (groupByGeneration people generations !! gen) ->
            rowOf generations (id p) = gen).
  { intros p. destruct (groupByGeneration people generations !! gen) as [l|] eqn:E.
    - by apply (groupByGeneration_elem people).
    - intros Hnil. by apply elem_of_nil in Hnil. }
  destruct (Nat.eqb gen n).
  - by apply placeBottom_placed.
  - apply placeUpper_placed; [|done]. intros k q Hq. by apply peopleMapOf_Some in Hq as [_ ?].
Qed.

Lemma placedFrom_inv (s : Store) (st st' : Placement) :
  placementInv generations s st -> placedFrom generations st st' ->
  placementInv generations s st'.
Proof.
  intros Hinv. induction 1 as [|st' i pos _ IH Hy]; [done|].
  destruct IH as [[ext Hext] Hpos].
  unfold placementInv, setPosition, alloc. cbn [store nodePositions].
  split.
  - exists (ext ++ [pos]). by rewrite Hext, app_assoc.
  - intros j r. destruct (decide (i = j)) as [->|Hne].
    + rewrite lookup_insert_eq. intros [= <-]. split.
      * rewrite Hext, length_app. lia.
      * exists pos. split; [|done]. by rewrite lookup_app_r, Nat.sub_diag.
    + rewrite lookup_insert_ne by done. intros Hj.
      destruct (Hpos j r Hj) as (Hle & pos' & Hr & Hy'). split; [done|].
      exists pos'. split; [|done]. by apply lookup_app_l_Some.
Qed.

Lemma placementInv_init (s : Store) : placementInv generations s (mkPlacement s ∅ ∅).
Proof.
  split; [exists []; simpl; by rewrite app_nil_r|]. intros i r Hnil.
  cbn [nodePositions] in Hnil. by rewrite lookup_empty in Hnil.
Qed.

(** What [makeNode] pushes for the persons, one node each: the node of a
    person refers to the manual position, to the recorded position, or to a
    new object at the padding on the row of the person. *)
Lemma makeNode_fold (autoAlign : bool) (np : gmap string ref) (people : list Person) :
  forall (s : Store) (nodes0 : list LayoutNode) (s1 : Store) (nodes : list LayoutNode),
    fold_left (makeNode autoAlign generations np) people (s, nodes0) = (s1, nodes) ->
    exists new ext,
      nodes = nodes0 ++ new /\ s1 = s ++ ext /\ map person new = people /\
      forall n, n ∈ new ->
        generation n = rowOf generations (id (person n)) /\
        ((autoAlign = false /\ position (person n) = Some (computedPosition n)) \/
         np !! id (person n) = Some (computedPosition n) \/
         (length s <= computedPosition n /\
          s1 !! computedPosition n
          = Some (mkPosition CANVAS_PADDING (yOfGeneration (generation n))))).
Proof.
  induction people as [|p people IH]; intros s nodes0 s1 nodes.
  { intros [= <- <-]. exists [], []. rewrite !app_nil_r. split_and!; [done..|].
    intros n Hn. by apply elem_of_nil in Hn. }
  cbn [fold_left]. unfold makeNode at 2. fold (rowOf generations (id p)).
  destruct (np !! id p) as [pos|] eqn:Enp.
  - intros (new & ext & -> & -> & Hmap & Hall)%IH.
    eexists (_ :: new), ext. rewrite <- app_assoc. split_and!; [done|done|by rewrite <- Hmap|].
    intros n [->|Hn]%elem_of_cons; [|by apply Hall].
    cbn [person generation computedPosition]. split; [done|].
    destruct (position p) as [manual|]; [|by right; left].
    destruct autoAlign; [by right; left | by left].
  - unfold alloc.
    intros (new & ext & -> & -> & Hmap & Hall)%IH.
    eexists (_ :: new), (_ :: ext). rewrite <- !app_assoc.
    split_and!; [done|done|by rewrite <- Hmap|].
    intros n [->|Hn]%elem_of_cons.
    + cbn [person generation computedPosition]. split; [done|].
      destruct (position p) as [manual|].
      * destruct autoAlign; [|by left]. right. right. split; [done|].
        by rewrite lookup_app_r, Nat.sub_diag.
      * right. right. split; [done|]. by rewrite lookup_app_r, Nat.sub_diag.
    + destruct (Hall n Hn) as [Hg Href]. split; [done|].
      destruct Href as [?|[?|[Hle Hlook]]]; [by left|by right; left|].
      right. right. rewrite length_app in Hle. cbn [length] in Hle.
      split; [lia|]. by rewrite <- app_assoc in Hlook.
Qed.
End LayoutFacts.

(** *** The normalization *)

Lemma fold_Qmin_le (l : list Q) :
  forall a, (fold_left Qmin l a <= a)%Q /\ forall q, q ∈ l -> (fold_left Qmin l a <= q)%Q.
Proof.
  induction l as [|c l IH]; intros a; simpl.
  - split; [apply Qle_refl|]. intros q Hq. by apply elem_of_nil in Hq.
  - destruct (IH (Qmin a c)) as [H1 H2]. split.
    + eapply Qle_trans; [exact H1 | apply Q.le_min_l].
    + intros q [->|Hq]%elem_of_cons; [|by apply H2].
      eapply Qle_trans; [exact H1 | apply Q.le_min_r].
Qed.


Lemma mathMin_le (l : list Q) (m : Q) :
  mathMin l = Some m -> forall q, q ∈ l -> (m <= q)%Q.
Proof.
  destruct l as [|a l]; [done|]. intros [= <-] q Hq.
  destruct (fold_Qmin_le l a) as [H1 H2].
  apply elem_of_cons in Hq as [->|Hq]; [done | by apply H2].
Qed.

Lemma shiftNode_length (shiftX : Q) (nodes : list LayoutNode) :
  forall s, length (fold_left (shiftNode shiftX) nodes s) = length s.
Proof.
  induction nodes as [|n nodes IH]; intros s; [done|].
  simpl. rewrite IH. unfold shiftNode. apply length_alter.
Qed.

(** The shift writes abscissas only. *)
Lemma shift_lookup (shiftX : Q) (nodes : list LayoutNode) :
  forall (s : Store) (r : ref) (pos : Position),
    s !! r = Some pos ->
    exists pos', fold_left (shiftNode shiftX) nodes s !! r = Some pos' /\ y pos' = y pos.
Proof.
  induction nodes as [|n nodes IH]; intros s r pos Hr; [eauto|].
  simpl. unfold shiftNode at 2.
  destruct (decide (computedPosition n = r)) as [<-|Hne].
  - destruct (IH (alter (fun pos => mkPosition (x pos + shiftX)%Q (y pos))
                    (computedPosition n) s) (computedPosition n)
                (mkPosition (x pos + shiftX)%Q (y pos))) as (pos' & ? & ?).
    { by rewrite list_lookup_alter_eq, Hr. }
    eauto.
  - apply IH. by rewrite list_lookup_alter_ne.
Qed.

(** The shift leaves the objects below [length s0] alone when no node refers
    to them. *)
Lemma shift_prefix (shiftX : Q) (s0 : Store) (nodes : list LayoutNode) :
  (forall n, n ∈ nodes -> length s0 <= computedPosition n) ->
  forall ext, exists ext', fold_left (shiftNode shiftX) nodes (s0 ++ ext) = s0 ++ ext'.
Proof.
  induction nodes as [|n nodes IH]; intros Hrefs ext; [eauto|].
  simpl. unfold shiftNode at 2. rewrite alter_app_r_alt by (apply Hrefs; left).
  apply IH. intros m Hm. apply Hrefs. by right.
Qed.

Lemma readX_shiftNode (shiftX : Q) (s : Store) (n : LayoutNode) (r : ref) :
  readX (shiftNode shiftX s n) r
  = if decide (computedPosition n = r /\ r < length s)
    then (readX s r + shiftX)%Q else readX s r.
Proof.
  unfold readX, shiftNode. destruct (decide (computedPosition n = r)) as [<-|Hne].
  - rewrite list_lookup_alter_eq.
    destruct (s !! computedPosition n) as [pos|] eqn:E; simpl.
    + apply lookup_lt_Some in E as Hlt. by rewrite decide_True.
    + apply lookup_ge_None in E. rewrite decide_False by lia. done.
  - rewrite list_lookup_alter_ne by done. rewrite decide_False by tauto. done.
Qed.

(** Every object that a node refers to moves right by the shift at least. *)
Lemma shift_x (shiftX : Q) (nodes : list LayoutNode) :
  (0 <= shiftX)%Q ->
  forall (s : Store) (r : ref),
    (readX s r <= readX (fold_left (shiftNode shiftX) nodes s) r)%Q /\
    ((exists n, n ∈ nodes /\ computedPosition n = r) -> r < length s ->
     (readX s r + shiftX <= readX (fold_left (shiftNode shiftX) nodes s) r)%Q).
Proof.
  intros Hshift. induction nodes as [|n nodes IH]; intros s r.
  { simpl. split; [apply Qle_refl|]. intros (n & Hn & _). by apply elem_of_nil in Hn. }
  cbn [fold_left]. destruct (IH (shiftNode shiftX s n) r) as [Hmono Hmoved].
  pose proof (readX_shiftNode shiftX s n r) as Hstep.
  assert (Hlen : length (shiftNode shiftX s n) = length s) by apply length_alter.
  destruct (decide (computedPosition n = r /\ r < length s)) as [[Heq Hlt]|Hno].
  - rewrite Hstep in Hmono. split; [|intros _ _; done].
    eapply Qle_trans; [|exact Hmono]. lra.
  - rewrite Hstep in Hmono, Hmoved. split; [done|].
    intros (m & [->|Hm]%elem_of_cons & Href) Hlt; [tauto|].
    apply Hmoved; [eauto | by rewrite Hlen].
Qed.

(** After the normalization no node is left of the padding. *)
Lemma normalize_padding (s : Store) (nodes : list LayoutNode) :
  (forall n, n ∈ nodes -> computedPosition n < length s) ->
  forall n, n ∈ nodes ->
    (CANVAS_PADDING <= readX (normalize s nodes) (computedPosition n))%Q.
Proof.
  intros Hvalid n Hn. unfold normalize.
  destruct (mathMin _) as [minX|] eqn:E.
  - assert (Hmin : (minX <= readX s (computedPosition n))%Q).
    { apply (mathMin_le _ _ E). apply list_elem_of_fmap. eauto. }
    destruct (Qle_bool CANVAS_PADDING minX) eqn:Hb.
    + apply Qle_bool_iff in Hb. by eapply Qle_trans.
    + assert (Hlt : (minX < CANVAS_PADDING)%Q).
      { apply Qnot_le_lt. intros Hle. apply Qle_bool_iff in Hle. congruence. }
      destruct (shift_x (CANVAS_PADDING - minX)%Q nodes ltac:(lra) s (computedPosition n))
        as [_ Hmoved].
      specialize (Hmoved ltac:(eauto) (Hvalid n Hn)). lra.
  - destruct nodes; [by apply elem_of_nil in Hn | done].
Qed.

Lemma normalize_lookup (s : Store) (nodes : list LayoutNode) (r : ref) (pos : Position) :
  s !! r = Some pos ->
  exists pos', normalize s nodes !! r = Some pos' /\ y pos' = y pos.
Proof.
  intros Hr. unfold normalize. destruct (mathMin _) as [minX|]; [|eauto].
  destruct (Qle_bool CANVAS_PADDING minX); [eauto|]. by apply shift_lookup.
Qed.

Lemma normalize_prefix (s0 ext : Store) (nodes : list LayoutNode) :
  (forall n, n ∈ nodes -> length s0 <= computedPosition n) ->
  exists ext', normalize (s0 ++ ext) nodes = s0 ++ ext'.
Proof.
  intros Hrefs. unfold normalize. destruct (mathMin _) as [minX|]; [|eauto].
  destruct (Qle_bool CANVAS_PADDING minX); [eauto|]. by apply shift_prefix.
Qed.

Lemma normalize_length (s : Store) (nodes : list LayoutNode) :
  length (normalize s nodes) = length s.
Proof.
  unfold normalize. destruct (mathMin _) as [minX|]; [|done].
  destruct (Qle_bool CANVAS_PADDING minX); [done|]. apply shiftNode_length.
Qed.

(** *** The result of [computeLayout] *)

(** Every person of the list has a generation. *)
Lemma calculateGenerations_total (fuel : nat) (people : list Person)
    (generations : gmap string nat) :
  calculateGenerations fuel people = Ret generations ->
  forall p, p ∈ people -> generations !! id p = Some (rowOf generations (id p)).
Proof.
  unfold calculateGenerations.
  destruct (generationsLoop _ _ _ _) as [g|]; [|done]. intros [= <-] p Hp.
  unfold rowOf. rewrite fillDisconnected_lookup.
  destruct (g !! id p); [done|]. rewrite decide_True; [done|].
  apply list_elem_of_fmap. eauto.
Qed.

(** Once the generations are assigned, [computeLayout] returns: one node per
    person, in the order of the list, each with the generation of its id and
    with a position object that is either the manual one of the person or a
    new one on the row of the generation; the shift of the normalization is
    then written into the objects. *)
Lemma computeLayout_facts (localeCompare : string -> string -> Z) (fuel : nat)
    (s : Store) (people : list Person) (autoAlign : bool)
    (generations : gmap string nat) :
  people <> [] ->
  calculateGenerations fuel people = Ret generations ->
  exists s1 ext l,
    computeLayout localeCompare fuel s people autoAlign
      = Ret (normalize s1 (nodes l), l) /\
    s1 = s ++ ext /\
    map person (nodes l) = people /\
    width l = (fold_left Qmax
                 (map (fun n => readX (normalize s1 (nodes l)) (computedPosition n))
                    (nodes l)) 800 + CANVAS_PADDING)%Q /\
    height l = (fold_left Qmax
                  (map (fun n => readY (normalize s1 (nodes l)) (computedPosition n))
                     (nodes l)) 600 + CANVAS_PADDING)%Q /\
    forall n, n ∈ nodes l ->
      generation n = rowOf generations (id (person n)) /\
      ((autoAlign = false /\ position (person n) = Some (computedPosition n)) \/
       (length s <= computedPosition n /\
        exists pos, s1 !! computedPosition n = Some pos /\
                    y pos = yOfGeneration (generation n))).
Proof.
  intros Hne Hgen. unfold computeLayout. rewrite Hgen.
  destruct people as [|p0 people0]; [done|]. cbv zeta.
  set (people := p0 :: people0) in *.
  match goal with
  | |- context [fold_left (makeNode _ _ (nodePositions ?st)) _ _] => set (placed := st)
  end.
  assert (Hinv : placementInv generations s placed).
  { eapply placedFrom_inv; [apply placementInv_init|].
    apply (placement_placed localeCompare generations people). }
  destruct Hinv as [[ext0 Hext0] Hpos].
  destruct (fold_left (makeNode autoAlign generations (nodePositions placed)) people
              (store placed, [])) as [s1 nodes0] eqn:E.
  apply makeNode_fold in E as (new & ext' & -> & -> & Hmap & Hall).
  cbn [app].
  exists (store placed ++ ext'), (ext0 ++ ext'),
    (mkLayout new
       (fold_left Qmax
          (map (fun n => readX (normalize (store placed ++ ext') new) (computedPosition n))
             new) 800 + CANVAS_PADDING)%Q
       (fold_left Qmax
          (map (fun n => readY (normalize (store placed ++ ext') new) (computedPosition n))
             new) 600 + CANVAS_PADDING)%Q).
  split_and!; [reflexivity|by rewrite Hext0, app_assoc|done|done|done|].
  cbn [nodes]. intros n Hn. destruct (Hall n Hn) as [Hg Href]. split; [done|].
  destruct Href as [?|[Hnp|[Hle Hlook]]]; [by left|right..].
  - destruct (Hpos _ _ Hnp) as (Hle & pos & Hlook & Hy). split; [done|].
    exists pos. split; [by apply lookup_app_l_Some | by rewrite Hg].
  - split; [rewrite Hext0, length_app in Hle; lia|]. eauto.
Qed.

(** With forced auto-align, or without manual positions, every node refers to
    a new object. *)
Lemma computeLayout_auto_facts (localeCompare : string -> string -> Z) (fuel : nat)
    (s : Store) (people : list Person) (autoAlign : bool)
    (generations : gmap string nat) :
  autoAlign = true \/ (forall p, p ∈ people -> position p = None) ->
  calculateGenerations fuel people = Ret generations ->
  exists s' ext l,
    computeLayout localeCompare fuel s people autoAlign = Ret (s', l) /\
    s' = s ++ ext /\
    map person (nodes l) = people /\
    forall n, n ∈ nodes l ->
      generation n = rowOf generations (id (person n)) /\
      length s <= computedPosition n /\
      (CANVAS_PADDING <= readX s' (computedPosition n))%Q /\
      exists pos, s' !! computedPosition n = Some pos /\
                  y pos = yOfGeneration (generation n).
Proof.
  intros Hauto Hgen. destruct (decide (people = [])) as [->|Hne].
  { exists s, [], (mkLayout [] 800%Q 600%Q). rewrite app_nil_r.
    split_and!; [done..|]. intros n Hn. by apply elem_of_nil in Hn. }
  destruct (computeLayout_facts localeCompare fuel s people autoAlign generations Hne Hgen)
    as (s1 & ext & l & Hres & -> & Hmap & _ & _ & Hall).
  assert (Hnew : forall n, n ∈ nodes l ->
            length s <= computedPosition n /\
            exists pos, (s ++ ext) !! computedPosition n = Some pos /\
                        y pos = yOfGeneration (generation n)).
  { intros n Hn. destruct (Hall n Hn) as [_ [[-> Hmanual]|?]]; [|done].
    destruct Hauto as [?|Hnone]; [done|].
    rewrite Hnone in Hmanual; [done|]. rewrite <- Hmap. apply list_elem_of_fmap. eauto. }
  destruct (normalize_prefix s ext (nodes l)) as [ext' Hext']; [intros n Hn; by apply Hnew|].
  exists (normalize (s ++ ext) (nodes l)), ext', l.
  split_and!; [done..|]. intros n Hn.
  destruct (Hnew n Hn) as (Hle & pos & Hpos & Hy).
  destruct (normalize_lookup (s ++ ext) (nodes l) _ _ Hpos) as (pos' & Hpos' & Hy').
  split_and!; [by apply Hall|done| |exists pos'; split; [done|congruence]].
  apply normalize_padding; [|done].
  intros m Hm. destruct (Hnew m Hm) as (_ & ? & Hlook & _). by apply lookup_lt_Some in Hlook.
Qed.

(** X13. On an acyclic parent relation [computeLayout] returns, with one node
    per person in the order of the list, and the generation of a node is the
    one that [calculateGenerations] assigns to the id of its person. *)
Theorem computeLayout_nodes (localeCompare : string -> string -> Z) (s : Store)
    (people : list Person) (autoAlign : bool) :
  acyclic people ->
  exists generations fuel0, forall fuel, fuel0 <= fuel ->
    calculateGenerations fuel people = Ret generations /\
    exists s' l,
      computeLayout localeCompare fuel s people autoAlign = Ret (s', l) /\
      map person (nodes l) = people /\
      forall n, n ∈ nodes l -> generations !! id (person n) = Some (generation n).
Proof.
  intros (loopResult & _ & fuel0 & Hfuel)%calculateGenerations_returns.
  exists (fillDisconnected people loopResult), fuel0. intros fuel Hle.
  specialize (Hfuel fuel Hle). split; [done|].
  destruct (decide (people = [])) as [->|Hne].
  { exists s, (mkLayout [] 800%Q 600%Q). split_and!; [done..|].
    intros n Hn. by apply elem_of_nil in Hn. }
  destruct (computeLayout_facts localeCompare fuel s people autoAlign _ Hne Hfuel)
    as (s1 & ext & l & Hres & _ & Hmap & _ & _ & Hall).
  exists (normalize s1 (nodes l)), l. split_and!; [done..|]. intros n Hn.
  destruct (Hall n Hn) as [-> _].
  apply (calculateGenerations_total fuel people); [done|].
  rewrite <- Hmap. apply list_elem_of_fmap. eauto.
Qed.

Lemma computeLayout_nodes_witness :
  exists generations fuel0, forall fuel, fuel0 <= fuel ->
    calculateGenerations fuel [chainP1; chainP2; chainP3] = Ret generations /\
    exists s' l,
      computeLayout compareStrings fuel [] [chainP1; chainP2; chainP3] false
        = Ret (s', l) /\
      map person (nodes l) = [chainP1; chainP2; chainP3] /\
      forall n, n ∈ nodes l -> generations !! id (person n) = Some (generation n).
Proof.
  apply (computeLayout_nodes compareStrings [] [chainP1; chainP2; chainP3] false).
  apply chain_acyclic.
Defined.

(** X14. With forced auto-align, or when no person has a manual position,
    [computeLayout] on an acyclic parent relation leaves every object of the
    store as it was: the store after the call is the one before, followed by
    new objects, and the nodes refer to new objects only. *)
Theorem computeLayout_frame (localeCompare : string -> string -> Z) (s : Store)
    (people : list Person) (autoAlign : bool) :
  acyclic people ->
  autoAlign = true \/ (forall p, p ∈ people -> position p = None) ->
  exists fuel0, forall fuel, fuel0 <= fuel ->
    exists s' ext l,
      computeLayout localeCompare fuel s people autoAlign = Ret (s', l) /\
      s' = s ++ ext /\
      forall n, n ∈ nodes l ->
        length s <= computedPosition n /\ computedPosition n < length s'.
Proof.
  intros (loopResult & _ & fuel0 & Hfuel)%calculateGenerations_returns Hauto.
  exists fuel0. intros fuel Hle.
  destruct (computeLayout_auto_facts localeCompare fuel s people autoAlign _ Hauto
              (Hfuel fuel Hle)) as (s' & ext & l & Hres & Hs' & _ & Hall).
  exists s', ext, l. split_and!; [done..|]. intros n Hn.
  destruct (Hall n Hn) as (_ & Hge & _ & pos & Hpos & _).
  split; [done|]. by apply lookup_lt_Some in Hpos.
Qed.

Lemma computeLayout_frame_witness :
  exists fuel0, forall fuel, fuel0 <= fuel ->
    exists s' ext l,
      computeLayout compareStrings fuel draggedStore [draggedPerson] true = Ret (s', l) /\
      s' = draggedStore ++ ext /\
      forall n, n ∈ nodes l ->
        length draggedStore <= computedPosition n /\ computedPosition n < length s'.
Proof.
  apply (computeLayout_frame compareStrings draggedStore [draggedPerson] true);
    [|by left].
  apply (rank_acyclic _ (fun _ => 0)). intros k c (_ & p & Hp & _ & Hk).
  apply list_elem_of_singleton in Hp as ->. by apply elem_of_nil in Hk.
Defined.

(** X15. With forced auto-align, or when no person has a manual position,
    every node of the layout of an acyclic parent relation lies on the row of
    its generation: its ordinate is the padding plus the generation times the
    vertical spacing. *)
Theorem computeLayout_rows (localeCompare : string -> string -> Z) (s : Store)
    (people : list Person) (autoAlign : bool) :
  acyclic people ->
  autoAlign = true \/ (forall p, p ∈ people -> position p = None) ->
  exists fuel0, forall fuel, fuel0 <= fuel ->
    exists s' l,
      computeLayout localeCompare fuel s people autoAlign = Ret (s', l) /\
      forall n, n ∈ nodes l ->
        readY s' (computedPosition n)
        = (CANVAS_PADDING + inject_Z (Z.of_nat (generation n)) * VERTICAL_SPACING)%Q.
Proof.
  intros (loopResult & _ & fuel0 & Hfuel)%calculateGenerations_returns Hauto.
  exists fuel0. intros fuel Hle.
  destruct (computeLayout_auto_facts localeCompare fuel s people autoAlign _ Hauto
              (Hfuel fuel Hle)) as (s' & ext & l & Hres & _ & _ & Hall).
  exists s', l. split; [done|]. intros n Hn.
  destruct (Hall n Hn) as (_ & _ & _ & pos & Hpos & Hy).
  unfold readY. by rewrite Hpos.
Qed.

Lemma computeLayout_rows_witness :
  exists fuel0, forall fuel, fuel0 <= fuel ->
    exists s' l,
      computeLayout compareStrings fuel [] [chainP1; chainP2; chainP3] false
        = Ret (s', l) /\
      forall n, n ∈ nodes l ->
        readY s' (computedPosition n)
        = (CANVAS_PADDING + inject_Z (Z.of_nat (generation n)) * VERTICAL_SPACING)%Q.
Proof.
  apply (computeLayout_rows compareStrings [] [chainP1; chainP2; chainP3] false);
    [apply chain_acyclic|].
  right. intros p Hp.
  repeat (apply elem_of_cons in Hp as [->|Hp]); [done..|by apply elem_of_nil in Hp].
Defined.



(** *** The positions of the auto-align button *)

Lemma positions_fold (m : gmap string ref) (nodes : list LayoutNode) (k : string) :
  (exists n, n ∈ nodes /\ id (person n) = k) ->
  exists n, n ∈ nodes /\ id (person n) = k /\
    fold_left (fun positions node =>
                 <[id (person node) := computedPosition node]> positions) nodes m !! k
    = Some (computedPosition n).
Proof.
  induction nodes as [|a nodes IH] using rev_ind; intros (n & Hn & Hk);
    [by apply elem_of_nil in Hn|].
  rewrite fold_left_app. cbn [fold_left].
  destruct (decide (id (person a) = k)) as [Ha|Ha].
  - exists a. split_and!; [apply elem_of_app; right; left|done|].
    by rewrite Ha, lookup_insert_eq.
  - apply elem_of_app in Hn as [Hn| ->%list_elem_of_singleton]; [|done].
    destruct IH as (n' & Hn' & Hk' & Hlook); [eauto|].
    exists n'. split_and!; [apply elem_of_app; by left|done|].
    by rewrite lookup_insert_ne.
Qed.

(** X17. On an acyclic parent relation [computeAutoAlignPositions] returns a
    map with a position for the id of every person: a new object (the store of
    the call is left as it was), on the row of the generation of the id and
    not left of the padding. *)
Theorem computeAutoAlignPositions_all (localeCompare : string -> string -> Z)
    (s : Store) (people : list Person) :
  acyclic people ->
  exists generations fuel0, forall fuel, fuel0 <= fuel ->
    calculateGenerations fuel people = Ret generations /\
    exists s' ext positions,
      computeAutoAlignPositions localeCompare fuel s people = Ret (s', positions) /\
      s' = s ++ ext /\
      forall p, p ∈ people ->
        exists r pos g,
          positions !! id p = Some r /\ length s <= r /\ s' !! r = Some pos /\
          generations !! id p = Some g /\
          (CANVAS_PADDING <= x pos)%Q /\
          y pos = (CANVAS_PADDING + inject_Z (Z.of_nat g) * VERTICAL_SPACING)%Q.
Proof.
  intros (loopResult & _ & fuel0 & Hfuel)%calculateGenerations_returns.
  exists (fillDisconnected people loopResult), fuel0. intros fuel Hle.
  specialize (Hfuel fuel Hle). split; [done|].
  destruct (computeLayout_auto_facts localeCompare fuel s people true _
              ltac:(by left) Hfuel) as (s' & ext & l & Hres & Hs' & Hmap & Hall).
  unfold computeAutoAlignPositions. rewrite Hres.
  eexists s', ext, _. split_and!; [done..|]. intros p Hp.
  destruct (positions_fold ∅ (nodes l) (id p)) as (n & Hn & Hid & Hlook).
  { rewrite <- Hmap in Hp. apply list_elem_of_fmap in Hp as (n & -> & Hn). eauto. }
  destruct (Hall n Hn) as (Hg & Hge & Hx & pos & Hpos & Hy).
  exists (computedPosition n), pos, (generation n).
  split_and!; [done..| | |done].
  - rewrite Hg, Hid. by apply (calculateGenerations_total fuel people).
  - unfold readX in Hx. by rewrite Hpos in Hx.
Qed.

Lemma computeAutoAlignPositions_all_witness :
  exists generations fuel0, forall fuel, fuel0 <= fuel ->
    calculateGenerations fuel [chainP1; chainP2; chainP3] = Ret generations /\
    exists s' ext positions,
      computeAutoAlignPositions compareStrings fuel [] [chainP1; chainP2; chainP3]
        = Ret (s', positions) /\
      s' = [] ++ ext /\
      forall p, p ∈ [chainP1; chainP2; chainP3] ->
        exists r pos g,
          positions !! id p = Some r /\ length ([] : Store) <= r /\ s' !! r = Some pos /\
          generations !! id p = Some g /\
          (CANVAS_PADDING <= x pos)%Q /\
          y pos = (CANVAS_PADDING + inject_Z (Z.of_nat g) * VERTICAL_SPACING)%Q.
Proof.
  apply (computeAutoAlignPositions_all compareStrings [] [chainP1; chainP2; chainP3]).
  apply chain_acyclic.
Defined.

(** *** Parents above children *)

(** What the loop records puts every parent of the list above its child. *)
Lemma parent_generation_lt (people : list Person) (loopResult : gmap string nat) :
  (forall p k, p ∈ people -> k ∈ parentIds p -> k ∈ map id people) ->
  acyclic people ->
  generationsInv people [] loopResult ->
  forall p q, p ∈ people -> q ∈ people -> id q ∈ parentIds p ->
    exists gp gq, loopResult !! id p = Some gp /\ loopResult !! id q = Some gq /\ gq < gp.
Proof.
  intros Hclosed Hacyc Hinv.
  destruct (acyclic_rank people Hacyc) as (rank & Hparent).
  assert (Hrank : forall p k, p ∈ people -> k ∈ parentIds p -> rank k < rank (id p)).
  { intros p k Hp Hk. apply Hparent. split; [by apply (Hclosed p)|]. by exists p. }
  destruct Hinv as (I1 & I2 & _ & _).
  assert (Hchild : forall p q, p ∈ people -> q ∈ people -> id q ∈ parentIds p ->
            forall gq, loopResult !! id q = Some gq ->
            exists gp, loopResult !! id p = Some gp /\ gq < gp).
  { intros p q Hp Hq Hqp gq Hgq.
    destruct (I1 (id q) gq (id p) Hgq) as [(gp & Hgp & Hlt)|(g' & Hg & _)];
      [|eauto|by apply elem_of_nil in Hg].
    apply isChild_iff. split; [apply list_elem_of_fmap; eauto|]. by exists p. }
  assert (Hall : forall n p, p ∈ people -> rank (id p) < n -> is_Some (loopResult !! id p)).
  { induction n as [|n IH]; intros p Hp Hn; [lia|].
    destruct (parentIds p) as [|k ks] eqn:Eps.
    - destruct (I2 p Hp Eps) as [?|[g Hg]]; [done | by apply elem_of_nil in Hg].
    - assert (Hk : k ∈ parentIds p) by (rewrite Eps; left).
      pose proof (Hclosed p k Hp Hk) as (q & -> & Hq)%list_elem_of_fmap.
      destruct (IH q Hq) as [gq Hgq]; [specialize (Hrank p (id q) Hp Hk); lia|].
      destruct (Hchild p q Hp Hq Hk gq Hgq) as (gp & ? & _). eauto. }
  intros p q Hp Hq Hqp.
  destruct (Hall (S (rank (id q))) q Hq) as [gq Hgq]; [lia|].
  destruct (Hchild p q Hp Hq Hqp gq Hgq) as (gp & ? & ?). eauto.
Qed.

Lemma yOfGeneration_lt (g g' : nat) :
  g < g' -> (yOfGeneration g < yOfGeneration g')%Q.
Proof.
  intros Hlt. unfold yOfGeneration.
  assert (H : (inject_Z (Z.of_nat g) < inject_Z (Z.of_nat g'))%Q).
  { rewrite <- Zlt_Qlt. lia. }
  assert (Hv : (VERTICAL_SPACING == 180)%Q) by done.
  assert (Hp : (CANVAS_PADDING == 100)%Q) by done.
  rewrite Hv, Hp. lra.
Qed.

(** X18. With forced auto-align, or without manual positions, the layout of an
    acyclic parent relation whose [parentIds] all name persons of the list
    puts every parent strictly above each of its children. *)
Theorem computeLayout_parents_above (localeCompare : string -> string -> Z)
    (s : Store) (people : list Person) (autoAlign : bool) :
  (forall p k, p ∈ people -> k ∈ parentIds p -> k ∈ map id people) ->
  acyclic people ->
  autoAlign = true \/ (forall p, p ∈ people -> position p = None) ->
  exists fuel0, forall fuel, fuel0 <= fuel ->
    exists s' l,
      computeLayout localeCompare fuel s people autoAlign = Ret (s', l) /\
      forall child parent, child ∈ nodes l -> parent ∈ nodes l ->
        id (person parent) ∈ parentIds (person child) ->
        (readY s' (computedPosition parent) < readY s' (computedPosition child))%Q.
Proof.
  intros Hclosed Hacyc Hauto.
  destruct (calculateGenerations_returns people Hacyc) as (loopResult & Hinv & fuel0 & Hfuel).
  exists fuel0. intros fuel Hle.
  destruct (computeLayout_auto_facts localeCompare fuel s people autoAlign _ Hauto
              (Hfuel fuel Hle)) as (s' & ext & l & Hres & _ & Hmap & Hall).
  exists s', l. split; [done|]. intros c p Hc Hp Hpc.
  destruct (Hall c Hc) as (Hgc & _ & _ & posc & Hposc & Hyc).
  destruct (Hall p Hp) as (Hgp & _ & _ & posp & Hposp & Hyp).
  unfold readY. rewrite Hposc, Hposp. cbn [default from_option Datatypes.id].
  rewrite Hyc, Hyp. apply yOfGeneration_lt. rewrite Hgc, Hgp.
  destruct (parent_generation_lt people loopResult Hclosed Hacyc Hinv (person c) (person p))
    as (gc & gp & Egc & Egp & Hlt); [rewrite <- Hmap; apply list_elem_of_fmap; eauto..|done|].
  unfold rowOf. by rewrite !fillDisconnected_lookup, Egc, Egp.
Qed.

Lemma computeLayout_parents_above_witness :
  exists fuel0, forall fuel, fuel0 <= fuel ->
    exists s' l,
      computeLayout compareStrings fuel [] [chainP1; chainP2; chainP3] true = Ret (s', l) /\
      forall child parent, child ∈ nodes l -> parent ∈ nodes l ->
        id (person parent) ∈ parentIds (person child) ->
        (readY s' (computedPosition parent) < readY s' (computedPosition child))%Q.
Proof.
  apply (computeLayout_parents_above compareStrings [] [chainP1; chainP2; chainP3] true);
    [|apply chain_acyclic|by left].
  intros p k Hp.
  repeat (apply elem_of_cons in Hp as [->|Hp]); [..|by apply elem_of_nil in Hp];
    simpl; set_solver.
Defined.
